(** * ompl_interface::ModelBasedPlanningContext and ompl::geometric::Follower

    A shallow embedding of
    [ompl/ompl_interface/src/model_based_planning_context.cpp]
    and the properties of its specification.

    Conventions.
    - A C++ [unsigned int] or [int] is a [Z]; conversions between the two
      are written out ([to_int], [to_size_t]).
    - A raw or shared pointer that may be null is an [option].
    - Indexing a [std::vector] out of range, dividing by zero and the like
      are undefined behaviour: the embedded function returns [None] there.
    - An exception is a result of its own ([Throws], [Unwound]), never
      [None]: a function that throws has a defined behaviour.
    - The collaborators that are not part of this file of the repository
      (the OMPL engine, the kinematic model, the constraint samplers, the
      random number generator, the clock) are interfaces: type classes or
      records of functions, over an abstract world [W] where they are
      stateful or random. *)

From Stdlib Require Import ZArith Lia String Ascii.
From stdpp Require Import base tactics option list strings gmap.

Local Open Scope Z_scope.
Set Warnings "-register-all".

(** [H : mx ≫= f = Some y] becomes [Hx : mx = Some x] and [H : f x = Some y]. *)
Tactic Notation "bind_inv" hyp(H) ident(x) ident(Hx) :=
  apply bind_Some in H as (x & Hx & H).

(** ** ompl::base::PlannerStatus *)

Inductive PlannerStatus :=
| UNKNOWN
| INVALID_START
| INVALID_GOAL
| UNRECOGNIZED_GOAL_TYPE
| TIMEOUT
| APPROXIMATE_SOLUTION
| EXACT_SOLUTION
| CRASH.

#[global] Instance PlannerStatus_eq_dec : EqDecision PlannerStatus.
Proof. solve_decision. Defined.

(** [status == PlannerStatus::EXACT_SOLUTION] *)
Definition is_exact (s : PlannerStatus) : bool := bool_decide (s = EXACT_SOLUTION).

(** ** ompl::base::PlannerTerminationCondition

    A termination condition is a flag that is polled; once it answers true
    (deadline passed, or [terminate()] called from another thread) it keeps
    answering true.  A condition is therefore modelled by the number of
    polls it will still answer with false; [terminate] brings it to 0. *)

Definition PlannerTerminationCondition := nat.

Definition ptc_eval (ptc : PlannerTerminationCondition) : bool * PlannerTerminationCondition :=
  match ptc with
  | O => (true, O)
  | S p => (false, p)
  end.

Definition ptc_terminate (ptc : PlannerTerminationCondition) : PlannerTerminationCondition := O.

(** * The Follower *)

Module Follower.

(** [si_]: state validity, the bounds of the space and local motion
    validation. *)
Class SpaceInformation (State : Type) := {
  isValid : State -> bool;
  satisfiesBounds : State -> bool;
  checkMotion : State -> State -> bool;
  allocState : State;
}.

(** [pis_] and [rng_]: the goal states the problem definition yields, the
    index [pdf_sets.sample(rng_.uniform01())] selects and the outcome of
    [rng_.uniform01() < goalBias_], all depending on the world. *)
Class PlannerInputs (State W : Type) := {
  nextGoal : W -> option State * W;
  pdf_sample : list nat -> W -> nat * W;
  goal_bias_draw : W -> bool * W;
}.

(** ValidConstrainedSampler: [sample] and [project] write the work area and
    answer whether they succeeded. *)
Record ValidConstrainedSampler (State W : Type) := {
  sample : State -> W -> bool * State * W;
  project : State -> W -> bool * State * W;
}.
Arguments sample {State W}.
Arguments project {State W}.

(** The containers of [Follower::follow]: a path, the layers [sets], the
    forward [connections] and the [is_start] marks. *)
Abbreviation Path State := (list State).
Abbreviation Sets State := (list (list State)).
Abbreviation Connections := (list (list (list nat))).
Abbreviation IsStart := (list (list Z)).

Section Defs.
Context {State W : Type} `{SI : SpaceInformation State} `{PI : PlannerInputs State W}.

#[local] Abbreviation Path := (Path State).
#[local] Abbreviation Sets := (Sets State).

(** The local variables of [Follower::follow]. *)
Record Vars := mkVars {
  sets : Sets;
  connections : Connections;
  is_start : IsStart;
  work_area : State;
  world : W;
}.

Definition set_sets (f : Sets -> Sets) (v : Vars) : Vars :=
  mkVars (f (sets v)) (connections v) (is_start v) (work_area v) (world v).
Definition set_connections (f : Connections -> Connections) (v : Vars) : Vars :=
  mkVars (sets v) (f (connections v)) (is_start v) (work_area v) (world v).
Definition set_is_start (f : IsStart -> IsStart) (v : Vars) : Vars :=
  mkVars (sets v) (connections v) (f (is_start v)) (work_area v) (world v).
Definition set_work (wa : State) (w : W) (v : Vars) : Vars :=
  mkVars (sets v) (connections v) (is_start v) wa w.

(** [v[i][j]] *)
Definition at2 {A} (v : list (list A)) (i j : nat) : option A :=
  row ← v !! i; row !! j.

(** [v[i].push_back(x)] *)
Definition push_back_at {A} (i : nat) (x : A) (v : list (list A)) : option (list (list A)) :=
  row ← v !! i; Some (<[i := row ++ [x]]> v).

(** [v[i][j] = x] *)
Definition assign2 {A} (i j : nat) (x : A) (v : list (list A)) : option (list (list A)) :=
  row ← v !! i;
  _ ← row !! j;
  Some (<[i := <[j := x]> row]> v).

(** [connections[i][j].push_back(k)] *)
Definition add_edge (i j k : nat) (c : Connections) : option Connections :=
  layer ← c !! i;
  out ← layer !! j;
  Some (<[i := <[j := out ++ [k]]> layer]> c).

(** [for (i = 0 ; i < c.size() ; ++i) body(c[i])], threading the state. *)
Definition for_each {A} (body : nat -> A -> option A) : list nat -> A -> option A :=
  fix loop (c : list nat) (a : A) : option A :=
    match c with
    | [] => Some a
    | ci :: c' => a1 ← body ci a; loop c' a1
    end.

(** [for (i = 0 ; i < c.size() ; ++i) if (body(c[i])) { found; return true; }
    return false;] *)
Definition first_found {A} (body : nat -> A -> option (bool * A))
    (found : A -> option A) : list nat -> A -> option (bool * A) :=
  fix loop (c : list nat) (a : A) : option (bool * A) :=
    match c with
    | [] => Some (false, a)
    | ci :: c' =>
        '(b, a1) ← body ci a;
        if b : bool then a2 ← found a1; Some (true, a2) else loop c' a1
    end.

(** [propagateStartInfo], on the layers of [connections] from [set_index]
    on: [rest] is empty exactly when [connections.size() <= set_index]. *)
Fixpoint propagate_from (rest : Connections) (set_index elem_index : nat)
    (is_s : IsStart) : option IsStart :=
  match rest with
  | [] => Some is_s
  | layer :: rest' =>
      c ← layer !! elem_index;
      for_each
        (λ ci is_s,
           is_s1 ← assign2 (S set_index) ci 1 is_s;
           propagate_from rest' (S set_index) ci is_s1)
        c is_s
  end.

Definition propagateStartInfo (set_index elem_index : nat) (is_s : IsStart)
    (c : Connections) : option IsStart :=
  propagate_from (drop set_index c) set_index elem_index is_s.

(** [findSolutionPath], on the layers of [connections] from [set_index] on:
    [rest] is empty exactly when [set_index == connections.size()].  The
    result is the answer and the path after the appends. *)
Fixpoint find_from (rest : Connections) (set_index elem_index : nat)
    (s : Sets) (path : Path) : option (bool * Path) :=
  match rest with
  | [] =>
      x ← at2 s set_index elem_index;
      Some (true, path ++ [x])
  | layer :: rest' =>
      c ← layer !! elem_index;
      first_found
        (λ ci path, find_from rest' (S set_index) ci s path)
        (λ path, x ← at2 s set_index elem_index; Some (path ++ [x]))
        c path
  end.

Definition findSolutionPath (path : Path) (set_index elem_index : nat)
    (s : Sets) (c : Connections) : option (bool * Path) :=
  if decide (set_index <= length c)%nat
  then find_from (drop set_index c) set_index elem_index s path
  else None.

(** [computeSolution]: the path handed to [addSolutionPath], if any. *)
Fixpoint computeSolution_loop (k i : nat) (s : Sets) (c : Connections)
    (pg : Path) : option (bool * Path) :=
  match k with
  | O => Some (false, pg)
  | S k' =>
      '(found, pg1) ← findSolutionPath pg O i s c;
      if found : bool then Some (true, pg1)
      else computeSolution_loop k' (S i) s c pg1
  end.

Definition computeSolution (s : Sets) (c : Connections) : option (option Path) :=
  starts ← s !! O;
  '(found, pg) ← computeSolution_loop (length starts) O s c [];
  Some (if found : bool then Some (reverse pg) else None).

(** *** Phase 1: at least one sample from every sampler *)

(** The body of the [while] loop for sampler [i]; [sets[i + 1]] is empty. *)
Definition seed_once (samplers : list (ValidConstrainedSampler State W))
    (i : nat) (v : Vars) : option Vars :=
  prev ← sets v !! i;
  smp ← samplers !! i;
  let '(ok, wa, w) :=
    match last prev with
    | None => sample smp (work_area v) (world v)
    | Some back =>
        let '(okp, wa, w) := project smp back (world v) in
        if okp : bool then (true, wa, w) else sample smp wa w
    end in
  let v1 := set_work wa w v in
  if ok && isValid wa
  then s ← push_back_at (S i) wa (sets v1); Some (set_sets (λ _, s) v1)
  else Some v1.

(** [while (sets[i + 1].empty() && !ptc())] *)
Fixpoint seed_layer (ptc : PlannerTerminationCondition)
    (samplers : list (ValidConstrainedSampler State W)) (i : nat) (v : Vars)
    : option (PlannerTerminationCondition * Vars) :=
  layer ← sets v !! S i;
  match layer with
  | _ :: _ => Some (ptc, v)
  | [] =>
      match ptc with
      | O => Some (O, v)
      | S p => v1 ← seed_once samplers i v; seed_layer p samplers i v1
      end
  end.

(** [for (i = 0 ; i < samplers.size() && !ptc() ; ++i)], with [k] the
    number of samplers still to visit. *)
Fixpoint seed_layers (k i : nat) (ptc : PlannerTerminationCondition)
    (samplers : list (ValidConstrainedSampler State W)) (v : Vars)
    : option (PlannerTerminationCondition * Vars) :=
  match k with
  | O => Some (ptc, v)
  | S k' =>
      match ptc with
      | O => Some (O, v)
      | S p =>
          '(p1, v1) ← seed_layer p samplers i v;
          seed_layers k' (S i) p1 samplers v1
      end
  end.

(** *** Phase 3: connections between the first states *)

Fixpoint first_samples (k i : nat) (s : Sets) (c : Connections)
    (first_sample_worked : bool) : option (Connections * bool) :=
  match k with
  | O => Some (c, first_sample_worked)
  | S k' =>
      si ← s !! i;
      layer ← c !! i;
      let c1 := <[i := resize (length si) [] layer]> c in
      a ← at2 s i O;
      b ← at2 s (S i) O;
      if checkMotion a b
      then c2 ← add_edge i O O c1; first_samples k' (S i) s c2 first_sample_worked
      else first_samples k' (S i) s c1 false
  end.

(** *** Phase 4: incremental expansion *)

(** [for (i = 1 ; i < sets[0].size() ; ++i)]: further connections from the
    start states. *)
Fixpoint more_start_connections (k i : nat) (s : Sets) (c : Connections)
    : option Connections :=
  match k with
  | O => Some c
  | S k' =>
      a ← at2 s O i;
      b ← at2 s 1%nat O;
      c1 ← (if checkMotion a b then add_edge O i O c else Some c);
      more_start_connections k' (S i) s c1
  end.

(** [is_start[0].resize(sets[0].size(), 1)] and
    [is_start[i].resize(sets[i].size(), 0)] for the other layers. *)
Definition init_is_start (s : Sets) : option IsStart :=
  match s with
  | [] => None
  | s0 :: rest => Some (replicate (length s0) 1 :: ((λ si, replicate (length si) 0) <$> rest))
  end.

(** [for (i = 0 ; i < sets[0].size() ; ++i) propagateStartInfo(0, i, ...)] *)
Fixpoint propagate_starts (k i : nat) (is_s : IsStart) (c : Connections)
    : option IsStart :=
  match k with
  | O => Some is_s
  | S k' => is_s1 ← propagateStartInfo O i is_s c; propagate_starts k' (S i) is_s1 c
  end.

(** Connections from every state of the previous layer to the state just
    considered, [sets[index].back()]. *)
Fixpoint connect_prev (k i : nat) (index added_elem_index : nat) (v : Vars)
    : option Vars :=
  match k with
  | O => Some v
  | S k' =>
      p ← at2 (sets v) (index - 1) i;
      cur ← sets v !! index;
      back ← last cur;
      v1 ← (if checkMotion p back then
              c ← add_edge (index - 1) i added_elem_index (connections v);
              let v' := set_connections (λ _, c) v in
              flag ← at2 (is_start v') (index - 1) i;
              if bool_decide (flag = 1) then
                is1 ← assign2 index added_elem_index 1 (is_start v');
                is2 ← propagateStartInfo index added_elem_index is1 c;
                Some (set_is_start (λ _, is2) v')
              else Some v'
            else Some v);
      connect_prev k' (S i) index added_elem_index v1
  end.

(** Connections from [sets[index].back()] to every state of the next layer. *)
Fixpoint connect_next (k i : nat) (index added_elem_index : nat) (v : Vars)
    : option Vars :=
  match k with
  | O => Some v
  | S k' =>
      cur ← sets v !! index;
      back ← last cur;
      n ← at2 (sets v) (S index) i;
      v1 ← (if checkMotion back n then
              c ← add_edge index added_elem_index i (connections v);
              let v' := set_connections (λ _, c) v in
              f1 ← at2 (is_start v') index added_elem_index;
              f2 ← at2 (is_start v') (S index) i;
              if bool_decide (f1 = 1) && bool_decide (f2 = 0) then
                is1 ← assign2 (S index) i 1 (is_start v');
                is2 ← propagateStartInfo (S index) i is1 c;
                Some (set_is_start (λ _, is2) v')
              else Some v'
            else Some v);
      connect_next k' (S i) index added_elem_index v1
  end.

(** [pdf_sets] holds the layer indices [1 .. sets.size() - 1]; [sample]
    answers one of them, chosen by the random number generator. *)
Definition pdf_sets (s : Sets) : list nat := seq 1 (length s - 1).

Definition pdf_sets_sample (s : Sets) (w : W) : option nat * W :=
  let '(r, w1) := pdf_sample (length <$> s) w in
  (pdf_sets s !! (r mod length (pdf_sets s))%nat, w1).

(** The first half of the body of [while (!ptc() && !solved)]: one more
    goal state, or one more sample of [samplers[index - 1]].  The result
    holds the new values of [adding_goals] and [added]. *)
Definition draw_state (samplers : list (ValidConstrainedSampler State W))
    (goal_index index : nat) (to_goal adding_goals : bool) (w : W) (v : Vars)
    : option (Vars * bool * bool) :=
  if to_goal then
    let '(st, w) := nextGoal w in
    match st with
    | Some g =>
        s ← push_back_at goal_index g (sets v);
        is_s ← push_back_at goal_index 0 (is_start v);
        Some (mkVars s (connections v) is_s (work_area v) w, adding_goals, true)
    | None => Some (set_work (work_area v) w v, false, false)
    end
  else
    smp ← samplers !! (index - 1)%nat;
    let '(ok, wa, w) := sample smp (work_area v) w in
    if ok && isValid wa then
      s ← push_back_at index wa (sets v);
      c ← push_back_at index [] (connections v);
      is_s ← push_back_at index 0 (is_start v);
      Some (mkVars s c is_s wa w, adding_goals, true)
    else Some (set_work wa w v, adding_goals, false).

(** The second half, [if (added) { ... }]: the connections of
    [sets[index].back()] and the new value of [solved]. *)
Definition connect_added (goal_index index : nat) (v : Vars) : option (Vars * bool) :=
  prev ← sets v !! (index - 1)%nat;
  cur ← sets v !! index;
  let added_elem_index := (length cur - 1)%nat in
  v2 ← connect_prev (length prev) O index added_elem_index v;
  v3 ← (if bool_decide (index < goal_index)%nat then
          next ← sets v2 !! S index;
          connect_next (length next) O index added_elem_index v2
        else Some v2);
  flags ← is_start v3 !! goal_index;
  Some (v3, existsb (λ f, bool_decide (f = 1)) flags).

(** One pass of the body of [while (!ptc() && !solved)]; the result holds
    the new values of [adding_goals] and [solved]. *)
Definition expand_once (samplers : list (ValidConstrainedSampler State W))
    (adding_goals : bool) (v : Vars) : option (Vars * bool * bool) :=
  let goal_index := (length (sets v) - 1)%nat in
  let '(oindex, w) := pdf_sets_sample (sets v) (world v) in
  index ← oindex;
  let '(to_goal, w) :=
    if bool_decide (index = goal_index) then (true, w)
    else if adding_goals then goal_bias_draw w else (false, w) in
  '(v1, adding_goals1, added) ← draw_state samplers goal_index index to_goal adding_goals w v;
  if added : bool then
    '(v3, solved) ← connect_added goal_index index v1;
    Some (v3, adding_goals1, solved)
  else Some (v1, adding_goals1, false).

(** [while (!ptc() && !solved)] *)
Fixpoint expand (ptc : PlannerTerminationCondition)
    (samplers : list (ValidConstrainedSampler State W))
    (adding_goals solved : bool) (v : Vars) : option (Vars * bool) :=
  match ptc with
  | O => Some (v, solved)
  | S p =>
      if solved then Some (v, solved)
      else
        '(v1, adding_goals1, solved1) ← expand_once samplers adding_goals v;
        expand p samplers adding_goals1 solved1 v1
  end.

(** *** Follower::follow

    [goal_sampleable] is [pdef_->getGoal()->hasType(GOAL_SAMPLEABLE_REGION)]
    and [start_states] the valid start states [pis_.nextStart()] yields.
    This is the function from the test of the goal type on: the call of
    [pis_.checkValidity()] before it either throws or does nothing, and
    the exception is an exit of the caller ([follow_exits] of the context).
    A termination condition is the number of polls it answers false to,
    so a run ends; a condition that never fires is not covered.
    The result holds the status, the paths handed to
    [pdef_->addSolutionPath], the layers as they are when the function
    frees them, and the world. *)
Record Result := mkResult {
  status : PlannerStatus;
  solution_paths : list Path;
  layers : Sets;
  world_after : W;
}.

Definition follow (goal_sampleable : bool) (start_states : list State)
    (samplers : list (ValidConstrainedSampler State W))
    (ptc : PlannerTerminationCondition) (w : W) : option Result :=
  if negb goal_sampleable then Some (mkResult UNRECOGNIZED_GOAL_TYPE [] [] w)
  else
    let sets0 : Sets := <[O := start_states]> (replicate (length samplers + 2) []) in
    match start_states with
    | [] => Some (mkResult INVALID_START [] sets0 w)
    | _ :: _ =>
        let v0 := mkVars sets0 [] [] allocState w in
        '(ptc1, v1) ← seed_layers (length samplers) O ptc samplers v0;
        match ptc1 with
        | O => Some (mkResult TIMEOUT [] (sets v1) (world v1))
        | S ptc2 =>
            let '(st, w2) := nextGoal (world v1) in
            match st with
            | None => Some (mkResult INVALID_GOAL [] (sets v1) w2)
            | Some g =>
                s2 ← push_back_at (length (sets v1) - 1) g (sets v1);
                let c0 : Connections := replicate (length s2 - 1) [] in
                '(c1, first_sample_worked) ← first_samples (length c0) O s2 c0 true;
                if first_sample_worked : bool then
                  sol ← computeSolution s2 c1;
                  Some (mkResult EXACT_SOLUTION (option_list sol) s2 w2)
                else
                  starts ← s2 !! O;
                  c2 ← more_start_connections (length starts - 1) 1 s2 c1;
                  is0 ← init_is_start s2;
                  is1 ← propagate_starts (length starts) O is0 c2;
                  '(v3, solved) ←
                    expand ptc2 samplers true false (mkVars s2 c2 is1 (work_area v1) w2);
                  if solved : bool then
                    sol ← computeSolution (sets v3) (connections v3);
                    Some (mkResult EXACT_SOLUTION (option_list sol) (sets v3) (world v3))
                  else Some (mkResult TIMEOUT [] (sets v3) (world v3))
            end
        end
    end.

(** *** Notions the properties of the Follower are stated with *)

(** Every recorded connection joins two stored states whose local motion
    is valid. *)
Definition edges_ok (s : Sets) (c : Connections) : Prop :=
  ∀ l j out k, at2 c l j = Some out → k ∈ out →
    ∃ a b, at2 s l j = Some a ∧ at2 s (S l) k = Some b ∧ checkMotion a b = true.

(** State [j] of layer [l] is joined to a start state by recorded
    connections. *)
Inductive reach (s : Sets) (c : Connections) : nat → nat → Prop :=
| reach_start j : is_Some (at2 s O j) → reach s c O j
| reach_step l j out k :
    reach s c l j → at2 c l j = Some out → k ∈ out → reach s c (S l) k.

(** [is_start] marks only states joined to a start state. *)
Definition sound (s : Sets) (c : Connections) (is_s : IsStart) : Prop :=
  ∀ l j, at2 is_s l j = Some 1 → reach s c l j.

(** State [j] of the first layer of [rest] is joined to a state of the
    layer after the last one of [rest] by recorded connections. *)
Inductive to_goal : Connections → nat → Prop :=
| to_goal_here j : to_goal [] j
| to_goal_step layer rest j out k :
    layer !! j = Some out → k ∈ out → to_goal rest k → to_goal (layer :: rest) j.

(** [ch] lists the states of a chain of recorded connections that starts at
    state [j] of layer [l], one state per layer. *)
Inductive is_chain (s : Sets) : Connections → nat → nat → list State → Prop :=
| is_chain_goal l j x : at2 s l j = Some x → is_chain s [] l j [x]
| is_chain_step layer rest l j out k x ch :
    layer !! j = Some out → k ∈ out → at2 s l j = Some x →
    is_chain s rest (S l) k ch → is_chain s (layer :: rest) l j (x :: ch).

(** A solution path over the layers [s]: one waypoint per layer, in order,
    and a valid local motion between adjacent waypoints. *)
Definition solution_path (s : Sets) (path : Path) : Prop :=
  length path = length s ∧
  (∀ k x, path !! k = Some x → ∃ layer, s !! k = Some layer ∧ x ∈ layer) ∧
  (∀ k a b, path !! k = Some a → path !! S k = Some b → checkMotion a b = true).

(** The layers only grow: stored states keep their place. *)
Definition sets_ext (s s' : Sets) : Prop :=
  ∀ l j x, at2 s l j = Some x → at2 s' l j = Some x.

(** The connections only grow. *)
Definition conns_ext (c c' : Connections) : Prop :=
  ∀ l j out, at2 c l j = Some out →
    ∃ out', at2 c' l j = Some out' ∧ ∀ k, k ∈ out → k ∈ out'.

(** The invariant of the expansion loop. *)
Record Inv (v : Vars) : Prop := {
  inv_len : length (sets v) = S (length (connections v));
  inv_edges : edges_ok (sets v) (connections v);
  inv_sound : sound (sets v) (connections v) (is_start v);
}.

End Defs.
End Follower.

(** * The planning context *)

(** ** std::string *)

Module Str.

Local Open Scope string_scope.

(** [size_t] arithmetic wraps around modulo 2^64. *)
Definition to_size_t (z : Z) : Z := z mod 2 ^ 64.

Fixpoint mem (ch : ascii) (chars : string) : bool :=
  match chars with
  | EmptyString => false
  | String c chars' => if Ascii.eqb ch c then true else mem ch chars'
  end.

(** [s.find_first_of(chars)]: the position of the first character of [s]
    that is one of [chars]; [None] is [npos]. *)
Fixpoint find_first_of (s chars : string) : option nat :=
  match s with
  | EmptyString => None
  | String c s' => if mem c chars then Some O else S <$> find_first_of s' chars
  end.

(** [s[s.length() - 1]] *)
Definition last_char (s : string) : option ascii :=
  String.get (String.length s - 1) s.

(** [s.substr(pos, n)]; [None] when it throws [std::out_of_range]. *)
Definition substr (s : string) (pos : nat) (n : Z) : option string :=
  if decide (pos <= String.length s)%nat
  then Some (String.substring pos
               (Z.to_nat (Z.min n (Z.of_nat (String.length s - pos)))) s)
  else None.

(** [boost::replace_all(s, ",", " ")] *)
Fixpoint replace_commas (s : string) : string :=
  match s with
  | EmptyString => EmptyString
  | String c s' => String (if Ascii.eqb c "," then " "%char else c) (replace_commas s')
  end.

Definition isspace (c : ascii) : bool :=
  let n := nat_of_ascii c in
  Nat.eqb n 32 || (Nat.leb 9 n && Nat.leb n 13).

(** The maximal runs of non-space characters of [s]; [cur] is the run
    being read. *)
Fixpoint split_ws (cur : option string) (s : string) : list string :=
  match s with
  | EmptyString => match cur with Some w => [w] | None => [] end
  | String c s' =>
      if isspace c then
        match cur with
        | Some w => w :: split_ws None s'
        | None => split_ws None s'
        end
      else split_ws (Some (default "" cur ++ String c "")) s'
  end.

(** The values [v] takes in
    [while (ss.good() && !ss.eof()) { ss >> v >> std::ws; ... }]: the
    words of the stream, or one empty string when there is no word (the
    first extraction fails and leaves [v] empty). *)
Definition extracted_words (s : string) : list string :=
  match split_ws None s with
  | [] => [""]
  | ws => ws
  end.

End Str.

(** A call either returns or throws ([std::out_of_range] is the one
    exception the modelled code raises itself). *)
Inductive Outcome (A : Type) :=
| Returns (a : A)
| Throws.
Arguments Returns {A}.
Arguments Throws {A}.

(** ** Projection evaluators *)

Inductive ProjectionEvaluator :=
| ProjectionEvaluatorLinkPose (link_name : string)
| ProjectionEvaluatorJointValue (j : list (string * Z)).

(** The kinematic model: [hasLinkModel], and for the joint model group the
    variable count of a joint, [None] when [hasJointModel] is false. *)
Record RobotModel := {
  hasLinkModel : string -> bool;
}.

Record JointModelGroup := {
  group_name : string;
  getVariableCount : string -> option Z;
}.

(** The [while] loop over the joint names. *)
Definition projection_joints (jmg : JointModelGroup) (names : list string)
    : list (string * Z) :=
  foldl
    (λ j v,
       match getVariableCount jmg v with
       | Some vc => if bool_decide (0 < vc) then j ++ [(v, vc)] else j
       | None => j
       end)
    [] names.

Definition getProjectionEvaluator (rm : RobotModel) (jmg : JointModelGroup)
    (peval : string) : Outcome (option ProjectionEvaluator) :=
  let len := Z.of_nat (String.length peval) in
  if bool_decide (Str.find_first_of peval "link(" = Some O)
     && bool_decide (Str.last_char peval = Some ")"%char)
  then
    match Str.substr peval 5 (Str.to_size_t (len - 6)) with
    | None => Throws
    | Some link_name =>
        if hasLinkModel rm link_name
        then Returns (Some (ProjectionEvaluatorLinkPose link_name))
        else Returns None
    end
  else if bool_decide (Str.find_first_of peval "joints(" = Some O)
          && bool_decide (Str.last_char peval = Some ")"%char)
  then
    match Str.substr peval 7 (Str.to_size_t (len - 8)) with
    | None => Throws
    | Some joints =>
        match projection_joints jmg (Str.extracted_words (Str.replace_commas joints)) with
        | [] => Returns None
        | j => Returns (Some (ProjectionEvaluatorJointValue j))
        end
    end
  else Returns None.

(** The state space, as far as the context uses it: its identity (the
    address [spec_.state_space_.get()]) and its default projection. *)
Record StateSpace := mkStateSpace {
  address : nat;
  default_projection : option ProjectionEvaluator;
}.

Definition registerDefaultProjection (pe : ProjectionEvaluator) (ss : StateSpace)
    : StateSpace :=
  mkStateSpace (address ss) (Some pe).

(** [setProjectionEvaluator], on [spec_.state_space_]. *)
Definition setProjectionEvaluator (rm : RobotModel) (jmg : JointModelGroup)
    (peval : string) (state_space_ : option StateSpace)
    : Outcome (option StateSpace) :=
  match state_space_ with
  | None => Returns None
  | Some ss =>
      match getProjectionEvaluator rm jmg peval with
      | Throws => Throws
      | Returns None => Returns (Some ss)
      | Returns (Some pe) => Returns (Some (registerDefaultProjection pe ss))
      end
  end.

(** ** Collaborators of the context *)

(** Constraint messages, kinematic constraint sets, the planning scene and
    the samplers built from them. *)
Class MoveIt := {
  Constraints : Type;
  PlanningScene : Type;
  KinematicConstraintSet : Type;
  ConstraintSampler : Type;
  PrecomputedSampler : Type;
  (** [new KinematicConstraintSet(scene->getRobotModel(), scene->getTransforms())] *)
  newKinematicConstraintSet : PlanningScene -> KinematicConstraintSet;
  (** [kset->add(msg)] *)
  add : Constraints -> KinematicConstraintSet -> KinematicConstraintSet;
  (** [kset->empty()] *)
  empty : KinematicConstraintSet -> bool;
  getAllConstraints : KinematicConstraintSet -> Constraints;
  mergeConstraints : Constraints -> Constraints -> Constraints;
}.

(** The planning engine: the clock behind
    [timedPlannerTerminationCondition], the planner of the simple setup and
    the parallel plan, over the world [W]. *)
Inductive PlannerSource :=
| FromPlannerAllocator
| DefaultPlanner.

Class PlanningEngine (State W : Type) := {
  Double : Type;
  timedPlannerTerminationCondition : Double -> W -> PlannerTerminationCondition * W;
  simple_setup_solve : PlannerTerminationCondition -> W -> PlannerStatus * W;
  (** [ompl_parallel_plan_.solve(ptc, minSolCount, maxSolCount, hybridize)]
      with the planners of the pool *)
  parallel_plan_solve :
    list PlannerSource -> PlannerTerminationCondition -> Z -> Z -> bool -> W ->
    PlannerStatus * W;
  (** [pg.length()] and [pg.interpolate(count)] of og::PathGeometric *)
  path_length : list State -> Double;
  path_interpolate : Z -> list State -> list State;
  (** [(unsigned int)floor(0.5 + len / segment)], in double arithmetic;
      [None] when the value of [floor] is no value of [unsigned int] (the
      quotient is infinite or not a number, as with a [segment] of 0.0, or
      it is too large): the conversion is then undefined *)
  rounded_segments : Double -> Double -> option Z;
}.

(** What a call of [solve] or [follow] does to the termination pointer and
    which engine it runs, in order. *)
Inductive Event :=
| EvRegister (ptc : PlannerTerminationCondition)
| EvUnregister
| EvSimpleSolve (st : PlannerStatus)
| EvParallelSolve (planners : list PlannerSource) (minSolCount maxSolCount : Z)
    (st : PlannerStatus)
| EvFollow (st : PlannerStatus).

(** [unsigned int] to [int]. *)
Definition to_int (z : Z) : Z :=
  let r := z mod 2 ^ 32 in
  if r <? 2 ^ 31 then r else r - 2 ^ 32.

(** moveit_msgs::MoveItErrorCodes *)
Definition SUCCESS : Z := 1.
Definition INVALID_GOAL_CONSTRAINTS : Z := -16.

Section Context_.
Context {State W : Type}.
Context `{SI : Follower.SpaceInformation State} `{PI : Follower.PlannerInputs State W}.
Context `{MI : MoveIt} `{EN : PlanningEngine State W}.

(** [selectSampler(scene, group_name, constr)]; the scene is handed over as
    a pointer, null or not. *)
Record ConstraintSamplerManager := {
  selectSampler : option PlanningScene -> string -> Constraints -> option ConstraintSampler;
}.

(** A state sampler allocator of the approximation library: a function
    from the state space (its address) to a sampler, possibly null. *)
Record ConstraintApproximation := {
  getStateSamplerAllocator : Constraints -> option (nat -> option PrecomputedSampler);
}.

Record ConstraintsLibrary := {
  getConstraintApproximation : Constraints -> option ConstraintApproximation;
}.

Record ModelBasedPlanningContextSpecification := mkSpec {
  state_space_ : option StateSpace;
  robot_model_ : RobotModel;
  joint_model_group_ : JointModelGroup;
  constraint_sampler_manager_ : option ConstraintSamplerManager;
  constraints_library_ : option ConstraintsLibrary;
}.

(** The goals the context builds. *)
Inductive Goal :=
| ConstrainedGoalSampler (kset : KinematicConstraintSet) (cs : ConstraintSampler)
| GoalSampleableRegionMux (goals : list Goal).

(** [ompl_simple_setup_], as far as the context reads and writes it. *)
Record SimpleSetup := mkSimpleSetup {
  goal : option Goal;
  start_states : list State;
  planner_allocator : bool;
  solution_paths : list (list State);
}.

Record ModelBasedPlanningContext := mkContext {
  spec_ : ModelBasedPlanningContextSpecification;
  name_ : string;
  planning_scene_ : option PlanningScene;
  path_constraints_ : option KinematicConstraintSet;
  path_constraints_msg_ : Constraints;
  goal_constraints_ : list KinematicConstraintSet;
  ompl_simple_setup_ : SimpleSetup;
  ompl_parallel_plan_ : list PlannerSource;
  follow_samplers_ : list (Follower.ValidConstrainedSampler State W);
  max_planning_threads_ : Z;
  max_solution_segment_length_ : Double;
  minimum_waypoint_count_ : Z;
  ptc_ : option PlannerTerminationCondition;
}.

Definition with_path_constraints (pc : option KinematicConstraintSet) (msg : Constraints)
    (c : ModelBasedPlanningContext) : ModelBasedPlanningContext :=
  mkContext (spec_ c) (name_ c) (planning_scene_ c) pc msg (goal_constraints_ c)
    (ompl_simple_setup_ c) (ompl_parallel_plan_ c) (follow_samplers_ c)
    (max_planning_threads_ c) (max_solution_segment_length_ c)
    (minimum_waypoint_count_ c) (ptc_ c).

Definition with_goal_constraints (gc : list KinematicConstraintSet)
    (c : ModelBasedPlanningContext) : ModelBasedPlanningContext :=
  mkContext (spec_ c) (name_ c) (planning_scene_ c) (path_constraints_ c)
    (path_constraints_msg_ c) gc (ompl_simple_setup_ c) (ompl_parallel_plan_ c)
    (follow_samplers_ c) (max_planning_threads_ c) (max_solution_segment_length_ c)
    (minimum_waypoint_count_ c) (ptc_ c).

Definition with_simple_setup (ss : SimpleSetup)
    (c : ModelBasedPlanningContext) : ModelBasedPlanningContext :=
  mkContext (spec_ c) (name_ c) (planning_scene_ c) (path_constraints_ c)
    (path_constraints_msg_ c) (goal_constraints_ c) ss (ompl_parallel_plan_ c)
    (follow_samplers_ c) (max_planning_threads_ c) (max_solution_segment_length_ c)
    (minimum_waypoint_count_ c) (ptc_ c).

Definition with_parallel_plan (pp : list PlannerSource)
    (c : ModelBasedPlanningContext) : ModelBasedPlanningContext :=
  mkContext (spec_ c) (name_ c) (planning_scene_ c) (path_constraints_ c)
    (path_constraints_msg_ c) (goal_constraints_ c) (ompl_simple_setup_ c) pp
    (follow_samplers_ c) (max_planning_threads_ c) (max_solution_segment_length_ c)
    (minimum_waypoint_count_ c) (ptc_ c).

Definition with_ptc (p : option PlannerTerminationCondition)
    (c : ModelBasedPlanningContext) : ModelBasedPlanningContext :=
  mkContext (spec_ c) (name_ c) (planning_scene_ c) (path_constraints_ c)
    (path_constraints_msg_ c) (goal_constraints_ c) (ompl_simple_setup_ c)
    (ompl_parallel_plan_ c) (follow_samplers_ c) (max_planning_threads_ c)
    (max_solution_segment_length_ c) (minimum_waypoint_count_ c) p.

Definition setGoal (g : option Goal) (ss : SimpleSetup) : SimpleSetup :=
  mkSimpleSetup g (start_states ss) (planner_allocator ss) (solution_paths ss).

(** ** allocPathConstrainedSampler *)

Inductive StateSampler :=
| PrecomputedStateSampler (res : PrecomputedSampler)
| ConstrainedSampler (cs : ConstraintSampler)
| DefaultStateSampler (ss : nat).

(** The collaborators a call consults. *)
Inductive Query :=
| AskConstraintsLibrary
| AskConstraintSamplerManager.

(** The sampler of the approximation library for the path constraints:
    [ca], [c_ssa] and [res] all non-null. *)
Definition library_sampler (c : ModelBasedPlanningContext) (ss : nat)
    : option PrecomputedSampler :=
  lib ← constraints_library_ (spec_ c);
  ca ← getConstraintApproximation lib (path_constraints_msg_ c);
  c_ssa ← getStateSamplerAllocator ca (path_constraints_msg_ c);
  c_ssa ss.

(** [allocPathConstrainedSampler(ss)], with [ss] the address of the state
    space asked for: the sampler (null is [None]) and the collaborators
    consulted, in order. *)
Definition allocPathConstrainedSampler (ss : nat) (c : ModelBasedPlanningContext)
    : option StateSampler * list Query :=
  if bool_decide (address <$> state_space_ (spec_ c) ≠ Some ss) then (None, [])
  else
    match path_constraints_ c with
    | None => (Some (DefaultStateSampler ss), [])
    | Some pc =>
        let asked_lib :=
          match constraints_library_ (spec_ c) with
          | Some _ => [AskConstraintsLibrary]
          | None => []
          end in
        match library_sampler c ss with
        | Some res => (Some (PrecomputedStateSampler res), asked_lib)
        | None =>
            match constraint_sampler_manager_ (spec_ c) with
            | Some mgr =>
                match selectSampler mgr (planning_scene_ c)
                        (group_name (joint_model_group_ (spec_ c)))
                        (getAllConstraints pc) with
                | Some cs =>
                    (Some (ConstrainedSampler cs),
                     asked_lib ++ [AskConstraintSamplerManager])
                | None =>
                    (Some (DefaultStateSampler ss),
                     asked_lib ++ [AskConstraintSamplerManager])
                end
            | None => (Some (DefaultStateSampler ss), asked_lib)
            end
        end
    end.

(** ** Path and goal constraints *)

(** The error output [moveit_msgs::MoveItErrorCodes *error]: [None] is the
    null pointer, [Some val] a pointer to a message whose [val] is shown. *)
Definition ErrorOut := option Z.

(** [None] in the two functions below: the planning scene is dereferenced
    while null. *)
Definition setPathConstraints (path_constraints : Constraints) (error : ErrorOut)
    (c : ModelBasedPlanningContext)
    : option (bool * ErrorOut * ModelBasedPlanningContext) :=
  scene ← planning_scene_ c;
  let kset := add path_constraints (newKinematicConstraintSet scene) in
  Some (true, error, with_path_constraints (Some kset) path_constraints c).

(** The loop of [constructGoal] over [goal_constraints_]. *)
Fixpoint constructGoal_goals (mgr : option ConstraintSamplerManager)
    (scene : option PlanningScene) (group : string)
    (gc : list KinematicConstraintSet) : list Goal :=
  match gc with
  | [] => []
  | kset :: gc' =>
      let cs := m ← mgr; selectSampler m scene group (getAllConstraints kset) in
      match cs with
      | Some cs => ConstrainedGoalSampler kset cs :: constructGoal_goals mgr scene group gc'
      | None => constructGoal_goals mgr scene group gc'
      end
  end.

(** [constructGoal]; a null goal is [None]. *)
Definition constructGoal (c : ModelBasedPlanningContext) : option Goal :=
  match constructGoal_goals (constraint_sampler_manager_ (spec_ c)) (planning_scene_ c)
          (group_name (joint_model_group_ (spec_ c))) (goal_constraints_ c) with
  | [] => None
  | [g] => Some g
  | goals => Some (GoalSampleableRegionMux goals)
  end.

(** The loop of [setGoalConstraints] that fills [goal_constraints_]. *)
Fixpoint merged_goal_constraints (scene : PlanningScene)
    (goal_constraints : list Constraints) (path_constraints : Constraints)
    : list KinematicConstraintSet :=
  match goal_constraints with
  | [] => []
  | g :: rest =>
      let constr := mergeConstraints g path_constraints in
      let kset := add constr (newKinematicConstraintSet scene) in
      if empty kset then merged_goal_constraints scene rest path_constraints
      else kset :: merged_goal_constraints scene rest path_constraints
  end.

Definition setGoalConstraints (goal_constraints : list Constraints)
    (path_constraints : Constraints) (error : ErrorOut)
    (c : ModelBasedPlanningContext)
    : option (bool * ErrorOut * ModelBasedPlanningContext) :=
  gcs ← match goal_constraints with
        | [] => Some []
        | _ :: _ =>
            scene ← planning_scene_ c;
            Some (merged_goal_constraints scene goal_constraints path_constraints)
        end;
  let c1 := with_goal_constraints gcs c in
  match gcs with
  | [] =>
      let error1 := match error with
                    | Some _ => Some INVALID_GOAL_CONSTRAINTS
                    | None => None
                    end in
      Some (false, error1, c1)
  | _ :: _ =>
      let g := constructGoal c1 in
      let c2 := with_simple_setup (setGoal g (ompl_simple_setup_ c1)) c1 in
      Some (match g with Some _ => true | None => false end, error, c2)
  end.

(** ** interpolateSolution

    The solution path of the simple setup is the first of the stored
    ones; the others are not touched.  [None]: the conversion of the
    rounded quotient to [unsigned int] is undefined. *)
Definition interpolateSolution (c : ModelBasedPlanningContext)
    : option ModelBasedPlanningContext :=
  let ss := ompl_simple_setup_ c in
  match solution_paths ss with
  | [] => Some c
  | pg :: others =>
      n ← rounded_segments (path_length pg) (max_solution_segment_length_ c);
      let count := Z.max n (minimum_waypoint_count_ c) in
      Some (with_simple_setup
              (mkSimpleSetup (goal ss) (start_states ss) (planner_allocator ss)
                 (path_interpolate count pg :: others)) c)
  end.

(** [og::PathGeometric::interpolate(count)] as OMPL documents it: states are
    inserted so that the path is made up of exactly [count] states, and
    changes are performed only if the path has less than [count] states.
    States are inserted on the segments of the path, so nothing is asked
    here for a path of fewer than two states, which has no segment. *)
Definition interpolate_as_documented : Prop :=
  ∀ (count : Z) (pg : list State),
    (count ≤ Z.of_nat (length pg) → path_interpolate count pg = pg) ∧
    (2 ≤ Z.of_nat (length pg) < count →
     Z.of_nat (length (path_interpolate count pg)) = count).

(** ** The termination pointer *)

Definition registerTerminationCondition (ptc : PlannerTerminationCondition)
    (c : ModelBasedPlanningContext) : ModelBasedPlanningContext :=
  with_ptc (Some ptc) c.

Definition unregisterTerminationCondition (c : ModelBasedPlanningContext)
    : ModelBasedPlanningContext :=
  with_ptc None c.

Definition terminateSolve (c : ModelBasedPlanningContext) : ModelBasedPlanningContext :=
  match ptc_ c with
  | Some ptc => with_ptc (Some (ptc_terminate ptc)) c
  | None => c
  end.

(** ** preSolve, postSolve

    Both dereference the goal of the simple setup ([None] when it is null);
    what they do to the planner, the lazy goal sampling and the motion
    counters stays inside the engine. *)

Definition preSolve (c : ModelBasedPlanningContext) : option ModelBasedPlanningContext :=
  let ss := ompl_simple_setup_ c in
  let c1 := with_simple_setup
              (mkSimpleSetup (goal ss) (start_states ss) (planner_allocator ss) []) c in
  _ ← goal ss;
  Some c1.

Definition postSolve (c : ModelBasedPlanningContext) : option ModelBasedPlanningContext :=
  _ ← goal (ompl_simple_setup_ c);
  Some c.

(** ** solve *)

(** [for (i = 0 ; i < n ; ++i) ompl_parallel_plan_.addPlannerAllocator(...)]
    or [addPlanner(getDefaultPlanner(...))], as the simple setup has a
    planner allocator or not. *)
Definition add_planners (n : nat) (c : ModelBasedPlanningContext)
    : ModelBasedPlanningContext :=
  let src := if planner_allocator (ompl_simple_setup_ c)
             then FromPlannerAllocator else DefaultPlanner in
  with_parallel_plan (ompl_parallel_plan_ c ++ replicate n src) c.

(** One batch: [clearPlanners], [n] planners, one parallel solve. *)
Definition run_batch (n : nat) (maxSolCount : Z) (ptc : PlannerTerminationCondition)
    (c : ModelBasedPlanningContext) (w : W)
    : bool * ModelBasedPlanningContext * W * Event :=
  let c1 := add_planners n (with_parallel_plan [] c) in
  let '(st, w1) := parallel_plan_solve (ompl_parallel_plan_ c1) ptc 1 maxSolCount true w in
  (is_exact st, c1, w1, EvParallelSolve (ompl_parallel_plan_ c1) 1 maxSolCount st).

(** [for (int i = 0 ; i < n && ptc() == false ; ++i)], with [k] the
    number of batches still to run. *)
Fixpoint full_batches (k : nat) (ptc : PlannerTerminationCondition)
    (c : ModelBasedPlanningContext) (w : W) (result : bool)
    : PlannerTerminationCondition * ModelBasedPlanningContext * W * bool * list Event :=
  match k with
  | O => (ptc, c, w, result, [])
  | S k' =>
      let '(fired, ptc1) := ptc_eval ptc in
      if fired : bool then (ptc1, c, w, result, [])
      else
        let m := max_planning_threads_ c in
        let '(r, c1, w1, ev) := run_batch (Z.to_nat m) m ptc1 c w in
        let '(ptc2, c2, w2, result2, evs) := full_batches k' ptc1 c1 w1 (result && r) in
        (ptc2, c2, w2, result2, ev :: evs)
  end.

(** [solve(timeout, count)] as it returns: the answer, the context and the
    world after the call, and what the call did.  [None] is undefined
    behaviour: a null goal dereferenced, or a division by a zero
    [max_planning_threads_].  The exit by an exception of a planner is
    added by [solve_exits]. *)
Definition solve (timeout : Double) (count : Z) (c : ModelBasedPlanningContext) (w : W)
    : option (bool * ModelBasedPlanningContext * W * list Event) :=
  c0 ← preSolve c;
  '(result, c3, w3, evs) ←
    (if bool_decide (count ≤ 1) then
       let '(ptc, w1) := timedPlannerTerminationCondition timeout w in
       let c1 := registerTerminationCondition ptc c0 in
       let '(st, w2) := simple_setup_solve ptc w1 in
       let c2 := unregisterTerminationCondition c1 in
       Some (is_exact st, c2, w2, [EvRegister ptc; EvSimpleSolve st; EvUnregister])
     else if bool_decide (count ≤ max_planning_threads_ c0) then
       let c1 := add_planners (Z.to_nat count) (with_parallel_plan [] c0) in
       let '(ptc, w1) := timedPlannerTerminationCondition timeout w in
       let c2 := registerTerminationCondition ptc c1 in
       let '(st, w2) :=
         parallel_plan_solve (ompl_parallel_plan_ c2) ptc 1 count true w1 in
       let c3 := unregisterTerminationCondition c2 in
       Some (is_exact st, c3, w2,
             [EvRegister ptc; EvParallelSolve (ompl_parallel_plan_ c2) 1 count st;
              EvUnregister])
     else
       let '(ptc, w1) := timedPlannerTerminationCondition timeout w in
       let c1 := registerTerminationCondition ptc c0 in
       let m := max_planning_threads_ c1 in
       if bool_decide (m = 0) then None
       else
         let n := to_int (count / m) in
         let '(ptc1, c2, w2, result, evs) := full_batches (Z.to_nat n) ptc c1 w1 true in
         let n := to_int (count mod m) in
         let '(result1, c3, w3, evs1) :=
           if bool_decide (n = 0) then (result, c2, w2, [])
           else
             let '(fired, ptc2) := ptc_eval ptc1 in
             if fired : bool then (result, c2, w2, [])
             else
               let '(r, c3, w3, ev) :=
                 run_batch (Z.to_nat n) (Str.to_size_t n) ptc2 c2 w2 in
               (result && r, c3, w3, [ev]) in
         let c4 := unregisterTerminationCondition c3 in
         Some (result1, c4, w3, [EvRegister ptc] ++ evs ++ evs1 ++ [EvUnregister]));
  c4 ← postSolve c3;
  Some (result, c4, w3, evs).

(** ** follow *)

(** [goal->hasType(ob::GOAL_SAMPLEABLE_REGION)]: both kinds of goal the
    context builds are sampleable regions. *)
Definition is_sampleable_region (g : Goal) : bool :=
  match g with
  | ConstrainedGoalSampler _ _ => true
  | GoalSampleableRegionMux _ => true
  end.

Definition addSolutionPaths (paths : list (list State)) (ss : SimpleSetup) : SimpleSetup :=
  mkSimpleSetup (goal ss) (start_states ss) (planner_allocator ss)
    (solution_paths ss ++ paths).

(** The start states [pis_.nextStart()] hands over, one after the other:
    those of the problem definition that are within the bounds of the
    space and valid. *)
Definition nextStart (ss : SimpleSetup) : list State :=
  List.filter (λ st, Follower.satisfiesBounds st && Follower.isValid st)
    (start_states ss).

(** [follow(timeout, count)] as it returns; [follow_exits] adds the exit by
    the exception of [pis_.checkValidity()]. *)
Definition follow (timeout : Double) (count : Z) (c : ModelBasedPlanningContext) (w : W)
    : option (bool * ModelBasedPlanningContext * W * list Event) :=
  c0 ← preSolve c;
  let '(ptc, w1) := timedPlannerTerminationCondition timeout w in
  let c1 := registerTerminationCondition ptc c0 in
  g ← goal (ompl_simple_setup_ c1);
  r ← Follower.follow (is_sampleable_region g) (nextStart (ompl_simple_setup_ c1))
        (follow_samplers_ c1) ptc w1;
  let c2 := with_simple_setup
              (addSolutionPaths (Follower.solution_paths r) (ompl_simple_setup_ c1)) c1 in
  let c3 := unregisterTerminationCondition c2 in
  c4 ← postSolve c3;
  Some (is_exact (Follower.status r), c4, Follower.world_after r,
        [EvRegister ptc; EvFollow (Follower.status r); EvUnregister]).

(** *** Notions the properties of [solve] and [follow] are stated with *)

(** The sizes of the batches a call ran, and their answers. *)
Fixpoint batch_sizes (evs : list Event) : list Z :=
  match evs with
  | [] => []
  | EvParallelSolve planners _ _ _ :: evs' =>
      Z.of_nat (length planners) :: batch_sizes evs'
  | _ :: evs' => batch_sizes evs'
  end.

Fixpoint batch_results (evs : list Event) : list bool :=
  match evs with
  | [] => []
  | EvParallelSolve _ _ _ st :: evs' => is_exact st :: batch_results evs'
  | _ :: evs' => batch_results evs'
  end.

(** The logical AND of a list of answers. *)
Definition all_true (bs : list bool) : bool := forallb id bs.

(** [floor(count / m)] batches of size [m], then one of size [count mod m]
    when that is not zero. *)
Definition full_and_partial (count m : Z) : list Z :=
  replicate (Z.to_nat (count / m)) m
  ++ (if bool_decide (count mod m = 0) then [] else [count mod m]).

(** The registrations and unregistrations of a call, in order. *)
Fixpoint registrations (evs : list Event) : list Event :=
  match evs with
  | [] => []
  | EvRegister ptc :: evs' => EvRegister ptc :: registrations evs'
  | EvUnregister :: evs' => EvUnregister :: registrations evs'
  | _ :: evs' => registrations evs'
  end.

End Context_.

(** * A concrete scene

    A point on a line: states are positions, a local motion is valid when
    it advances by at most 12, and the world is the list of numbers the
    samplers, the random number generator and the planners draw from. *)

Module Demo.


Definition draw (w : list nat) : nat * list nat :=
  match w with
  | [] => (O, [])
  | x :: w' => (x, w')
  end.

#[export] Instance line_si : Follower.SpaceInformation nat := {|
  Follower.isValid := λ s, negb (Nat.eqb (s mod 10) 9);
  Follower.satisfiesBounds := λ s, bool_decide (s <= 100)%nat;
  Follower.checkMotion := λ a b, bool_decide (b <= a + 12)%nat;
  Follower.allocState := O;
|}.

#[export] Instance line_pi : Follower.PlannerInputs nat (list nat) := {|
  Follower.nextGoal := λ w,
    let '(x, w') := draw w in
    (if Nat.eqb x 0 then None else Some (30 + x)%nat, w');
  Follower.pdf_sample := λ _ w, draw w;
  Follower.goal_bias_draw := λ w, let '(x, w') := draw w in (Nat.eqb x 1, w');
|}.

(** The sampler of the gate around position [10 * i]; it cannot project. *)
Definition gate (i : nat) : Follower.ValidConstrainedSampler nat (list nat) := {|
  Follower.sample := λ _ w, let '(x, w') := draw w in (true, (10 * i + x)%nat, w');
  Follower.project := λ wa w, (false, wa, w);
|}.

(** Constraints are lists of numbers; a set is empty when it holds none. *)
#[export] Instance line_moveit : MoveIt := {|
  Constraints := list nat;
  PlanningScene := unit;
  KinematicConstraintSet := list nat;
  ConstraintSampler := nat;
  PrecomputedSampler := nat;
  newKinematicConstraintSet := λ _, [];
  add := λ msg kset, kset ++ msg;
  empty := λ kset, bool_decide (kset = []);
  getAllConstraints := λ kset, kset;
  mergeConstraints := λ a b, a ++ b;
|}.

Definition status_of (x : nat) : PlannerStatus :=
  match x with
  | O => TIMEOUT
  | 1%nat => EXACT_SOLUTION
  | _ => APPROXIMATE_SOLUTION
  end.

(** The length of a path on the line. *)
Fixpoint line_length (pg : list nat) : Z :=
  match pg with
  | a :: (b :: _) as pg' => Z.abs (Z.of_nat b - Z.of_nat a) + line_length pg'
  | _ => 0
  end.

(** [interpolate] on the line: it returns at once when the path has
    [count] states or more, or fewer than two; the states it inserts are
    put halfway on the first segment. *)
Definition line_interpolate (count : Z) (pg : list nat) : list nat :=
  match pg with
  | a :: b :: rest =>
      if bool_decide (count < Z.of_nat (length pg)) then pg
      else a :: replicate (Z.to_nat count - length pg) ((a + b) / 2)%nat ++ b :: rest
  | _ => pg
  end.

(** [(unsigned int)floor(0.5 + len / seg)] for whole numbers: the floor
    is [(2 * len + seg) / (2 * seg)]; a segment length of 0 gives no
    number, and the conversion needs a value below 2^32. *)
Definition line_rounded_segments (len seg : Z) : option Z :=
  let q := Z.of_nat ((2 * Z.to_nat len + Z.to_nat seg) / (2 * Z.to_nat seg))%nat in
  if (0 <? seg) && (0 <=? len) && negb (2 ^ 32 <=? q) then Some q else None.

(** A timeout of [t] lets the condition answer false to [t] polls; a
    planner run draws its status from the world. *)
#[export] Instance line_engine : PlanningEngine nat (list nat) := {|
  Double := Z;
  timedPlannerTerminationCondition := λ t w, (Z.to_nat t, w);
  simple_setup_solve := λ _ w, let '(x, w') := draw w in (status_of x, w');
  parallel_plan_solve := λ _ _ _ _ _ w, let '(x, w') := draw w in (status_of x, w');
  path_length := line_length;
  path_interpolate := line_interpolate;
  rounded_segments := line_rounded_segments;
|}.

Definition robot : RobotModel := {|
  hasLinkModel := λ s, bool_decide (s = "base"%string);
|}.

Definition arm : JointModelGroup := {|
  group_name := "arm"%string;
  getVariableCount := λ s,
    if bool_decide (s = "x"%string) then Some 1
    else if bool_decide (s = "y"%string) then Some 1
    else if bool_decide (s = "z"%string) then Some 0
    else None;
|}.

(** A manager that has a sampler for the constraint sets that hold 7. *)
Definition manager : ConstraintSamplerManager := {|
  selectSampler := λ _ _ constr, if bool_decide (7%nat ∈ constr) then Some 7%nat else None;
|}.

Definition spec : ModelBasedPlanningContextSpecification := {|
  state_space_ := Some (mkStateSpace 1 None);
  robot_model_ := robot;
  joint_model_group_ := arm;
  constraint_sampler_manager_ := Some manager;
  constraints_library_ := None;
|}.

(** A context with a goal, four planning threads and two gates to follow. *)
Definition context : ModelBasedPlanningContext (State := nat) (W := list nat) := {|
  spec_ := spec;
  name_ := "arm"%string;
  planning_scene_ := Some ();
  path_constraints_ := None;
  path_constraints_msg_ := [];
  goal_constraints_ := [[7%nat]];
  ompl_simple_setup_ :=
    mkSimpleSetup (Some (ConstrainedGoalSampler [7%nat] 7%nat)) [O] false [];
  ompl_parallel_plan_ := [];
  follow_samplers_ := [gate 1; gate 2];
  max_planning_threads_ := 4;
  max_solution_segment_length_ := 1;
  minimum_waypoint_count_ := 2;
  ptc_ := None;
|}.

(** The numbers of a run of the Follower in which the first samples do not
    connect and two more samples do. *)
Definition follow_world : list nat := [5; 8; 1; 0; 0; 2; 1; 0; 3]%nat.

End Demo.

(** * More of the planning context *)

(** [boost::trim_copy]: the string without its leading and trailing
    white space. *)
Module Trim.

Fixpoint trim_left (s : string) : string :=
  match s with
  | EmptyString => EmptyString
  | String c s' => if Str.isspace c then trim_left s' else s
  end.

Fixpoint trim_right (s : string) : string :=
  match s with
  | EmptyString => EmptyString
  | String c s' =>
      match trim_right s' with
      | EmptyString => if Str.isspace c then EmptyString else String c EmptyString
      | t => String c t
      end
  end.

Definition trim_copy (s : string) : string := trim_right (trim_left s).

End Trim.

(** The robot states a path is exported to: [copyToRobotState(ks, state)]
    of the state space writes the planning state into the robot state
    [ks], and [double_zero] is the literal [0.0]. *)
Class RobotStates (State W : Type) `{EN : PlanningEngine State W} := {
  RobotState : Type;
  copyToRobotState : RobotState -> State -> RobotState;
  double_zero : Double;
}.

(** What [useConfig] asks of the simple setup and of its space
    information, in order. *)
Inductive ConfigAction :=
| SetPlannerAllocator (type planner_name : string)
| SpaceInformationSetup
| SetParams (cfg : gmap string string).

Section ContextMore.
Context {State W : Type}.
Context `{SI : Follower.SpaceInformation State} `{PI : Follower.PlannerInputs State W}.
Context `{MI : MoveIt} `{EN : PlanningEngine State W} `{RS : !RobotStates State W}.

#[local] Abbreviation Ctx := (ModelBasedPlanningContext (State := State) (W := W)).

(** ** clear

    [ompl_simple_setup_.clear()] drops the solution paths; the start
    states, the goal and the state validity checker are reset, the path
    constraint set and the goal constraint sets are dropped.  The stored
    path constraints message stays. *)
Definition clear (c : Ctx) : Ctx :=
  let ss := ompl_simple_setup_ c in
  with_goal_constraints []
    (with_path_constraints None (path_constraints_msg_ c)
       (with_simple_setup (mkSimpleSetup None [] (planner_allocator ss) []) c)).

(** ** convertPath, getSolutionPath

    A trajectory is the list of its way points, each a robot state and the
    duration from the previous one. *)
Abbreviation RobotTrajectory := (list (RobotState * Double)).

(** [convertPath(pg, traj)], with [ks] the running robot state. *)
Fixpoint convertPath_from (ks : RobotState) (pg : list State) (traj : RobotTrajectory)
    : RobotTrajectory :=
  match pg with
  | [] => traj
  | st :: pg' =>
      let ks1 := copyToRobotState ks st in
      convertPath_from ks1 pg' (traj ++ [(ks1, double_zero)])
  end.

(** [complete_initial_robot_state_] is the member of the context the
    running robot state starts from. *)
Definition convertPath (complete_initial_robot_state_ : RobotState)
    (pg : list State) (traj : RobotTrajectory) : RobotTrajectory :=
  convertPath_from complete_initial_robot_state_ pg traj.

(** [getSolutionPath(traj)]: the answer and the trajectory after the call.
    The solution path of the simple setup is the first of the stored
    ones. *)
Definition getSolutionPath (complete_initial_robot_state_ : RobotState)
    (traj : RobotTrajectory) (c : Ctx) : bool * RobotTrajectory :=
  match solution_paths (ompl_simple_setup_ c) with
  | [] => (false, [])
  | pg :: _ => (true, convertPath complete_initial_robot_state_ pg [])
  end.

(** ** useConfig *)

Definition with_state_space (ss : option StateSpace) (c : Ctx) : Ctx :=
  let sp := spec_ c in
  mkContext
    (mkSpec ss (robot_model_ sp) (joint_model_group_ sp)
       (constraint_sampler_manager_ sp) (constraints_library_ sp))
    (name_ c) (planning_scene_ c) (path_constraints_ c)
    (path_constraints_msg_ c) (goal_constraints_ c) (ompl_simple_setup_ c)
    (ompl_parallel_plan_ c) (follow_samplers_ c) (max_planning_threads_ c)
    (max_solution_segment_length_ c) (minimum_waypoint_count_ c) (ptc_ c).

Definition setPlannerAllocator (ss : SimpleSetup (State := State))
    : SimpleSetup (State := State) :=
  mkSimpleSetup (goal ss) (start_states ss) true (solution_paths ss).

(** [useConfig], with [config] the map [spec_.config_]: the context after
    the call and what was asked of the engine.  It throws when
    [setProjectionEvaluator] does; what the planner selector and the space
    information may throw stays inside the engine. *)
Definition useConfig (config : gmap string string) (c : Ctx)
    : Outcome (Ctx * list ConfigAction) :=
  if bool_decide (config = ∅) then Returns (c, [])
  else
    let after_projection :=
      match config !! "projection_evaluator"%string with
      | Some peval =>
          match setProjectionEvaluator (robot_model_ (spec_ c))
                  (joint_model_group_ (spec_ c)) (Trim.trim_copy peval)
                  (state_space_ (spec_ c)) with
          | Throws => Throws
          | Returns ss =>
              Returns (with_state_space ss c,
                       delete "projection_evaluator"%string config)
          end
      | None => Returns (c, config)
      end in
    match after_projection with
    | Throws => Throws
    | Returns (c1, cfg) =>
        if bool_decide (cfg = ∅) then Returns (c1, [])
        else
          let group := group_name (joint_model_group_ (spec_ c1)) in
          let '(c2, cfg2, acts) :=
            match cfg !! "type"%string with
            | None => (c1, cfg, [])
            | Some type =>
                (with_simple_setup (setPlannerAllocator (ompl_simple_setup_ c1)) c1,
                 delete "type"%string cfg,
                 [SetPlannerAllocator type
                    (if bool_decide (name_ c1 ≠ group) then name_ c1 else ""%string)])
            end in
          Returns (c2, acts ++ [SpaceInformationSetup; SetParams cfg2;
                                SpaceInformationSetup])
    end.

(** The parameters a call of [useConfig] hands to [setParams], if any. *)
Fixpoint forwarded_params (acts : list ConfigAction) : option (gmap string string) :=
  match acts with
  | [] => None
  | SetParams cfg :: _ => Some cfg
  | _ :: acts' => forwarded_params acts'
  end.

(** The planner type a call of [useConfig] binds an allocator for, if
    any. *)
Fixpoint bound_planner (acts : list ConfigAction) : option string :=
  match acts with
  | [] => None
  | SetPlannerAllocator type _ :: _ => Some type
  | _ :: acts' => bound_planner acts'
  end.

(** The number of planners a call of [solve] ran: one for a run of the
    simple setup, the planners of the pool for a parallel run. *)
Fixpoint planners_launched (evs : list Event) : Z :=
  match evs with
  | [] => 0
  | EvSimpleSolve _ :: evs' => 1 + planners_launched evs'
  | EvParallelSolve planners _ _ _ :: evs' =>
      Z.of_nat (length planners) + planners_launched evs'
  | _ :: evs' => planners_launched evs'
  end.

End ContextMore.

(** ** The exits of solve and follow

    Between [registerTerminationCondition] and
    [unregisterTerminationCondition] the two functions call the engine:
    [ompl_simple_setup_.solve], [ompl_parallel_plan_.solve] and
    [f.follow], which starts with [pis_.checkValidity()].  These calls may
    throw an [ompl::Exception].  Neither function has a handler or a guard
    object for the registration, so an exception leaves the function at
    the call: what was done up to there stays, what comes after is not
    run. *)

(** The calls of the planners that throw. *)
Class EngineFaults (W : Type) := {
  simple_setup_solve_throws : PlannerTerminationCondition -> W -> bool;
  parallel_plan_solve_throws :
    list PlannerSource -> PlannerTerminationCondition -> Z -> Z -> bool -> W -> bool;
}.

(** How a call ends: it returns [a], or an exception leaves it with the
    context [c], the world [w] and the events [evs] of the call so far. *)
Inductive Exit (A C W : Type) :=
| Returned (a : A)
| Unwound (c : C) (w : W) (evs : list Event).
Arguments Returned {A C W}.
Arguments Unwound {A C W}.

Section ContextExits.
Context {State W : Type}.
Context `{SI : Follower.SpaceInformation State} `{PI : Follower.PlannerInputs State W}.
Context `{MI : MoveIt} `{EN : PlanningEngine State W} `{EF : EngineFaults W}.

#[local] Abbreviation Ctx := (ModelBasedPlanningContext (State := State) (W := W)).

(** [pis_.checkValidity()]: it throws when the problem definition has no
    start state or no goal. *)
Definition checkValidity (ss : SimpleSetup (State := State)) : Outcome unit :=
  match start_states ss, goal ss with
  | _ :: _, Some _ => Returns ()
  | _, _ => Throws
  end.

(** One batch, as [run_batch]; the parallel solve may throw. *)
Definition run_batch_exits (n : nat) (maxSolCount : Z) (ptc : PlannerTerminationCondition)
    (c : Ctx) (w : W) : Exit (bool * Ctx * W * Event) Ctx W :=
  let c1 := add_planners n (with_parallel_plan [] c) in
  if parallel_plan_solve_throws (ompl_parallel_plan_ c1) ptc 1 maxSolCount true w
  then Unwound c1 w []
  else Returned (run_batch n maxSolCount ptc c w).

(** The loop over the full batches, as [full_batches]. *)
Fixpoint full_batches_exits (k : nat) (ptc : PlannerTerminationCondition)
    (c : Ctx) (w : W) (result : bool)
    : Exit (PlannerTerminationCondition * Ctx * W * bool * list Event) Ctx W :=
  match k with
  | O => Returned (ptc, c, w, result, [])
  | S k' =>
      let '(fired, ptc1) := ptc_eval ptc in
      if fired : bool then Returned (ptc1, c, w, result, [])
      else
        let m := max_planning_threads_ c in
        match run_batch_exits (Z.to_nat m) m ptc1 c w with
        | Unwound c1 w1 evs => Unwound c1 w1 evs
        | Returned (r, c1, w1, ev) =>
            match full_batches_exits k' ptc1 c1 w1 (result && r) with
            | Unwound c2 w2 evs => Unwound c2 w2 (ev :: evs)
            | Returned (ptc2, c2, w2, result2, evs) =>
                Returned (ptc2, c2, w2, result2, ev :: evs)
            end
        end
  end.

(** [solve(timeout, count)] with its two kinds of exit.  [None] is
    undefined behaviour, as for [solve]. *)
Definition solve_exits (timeout : Double) (count : Z) (c : Ctx) (w : W)
    : option (Exit (bool * Ctx * W * list Event) Ctx W) :=
  c0 ← preSolve c;
  let finish '(result, c3, w3, evs) :=
    c4 ← postSolve c3; Some (Returned (result, c4, w3, evs)) in
  if bool_decide (count ≤ 1) then
    let '(ptc, w1) := timedPlannerTerminationCondition timeout w in
    let c1 := registerTerminationCondition ptc c0 in
    if simple_setup_solve_throws ptc w1 then Some (Unwound c1 w1 [EvRegister ptc])
    else
      let '(st, w2) := simple_setup_solve ptc w1 in
      let c2 := unregisterTerminationCondition c1 in
      finish (is_exact st, c2, w2, [EvRegister ptc; EvSimpleSolve st; EvUnregister])
  else if bool_decide (count ≤ max_planning_threads_ c0) then
    let c1 := add_planners (Z.to_nat count) (with_parallel_plan [] c0) in
    let '(ptc, w1) := timedPlannerTerminationCondition timeout w in
    let c2 := registerTerminationCondition ptc c1 in
    if parallel_plan_solve_throws (ompl_parallel_plan_ c2) ptc 1 count true w1
    then Some (Unwound c2 w1 [EvRegister ptc])
    else
      let '(st, w2) :=
        parallel_plan_solve (ompl_parallel_plan_ c2) ptc 1 count true w1 in
      let c3 := unregisterTerminationCondition c2 in
      finish (is_exact st, c3, w2,
              [EvRegister ptc; EvParallelSolve (ompl_parallel_plan_ c2) 1 count st;
               EvUnregister])
  else
    let '(ptc, w1) := timedPlannerTerminationCondition timeout w in
    let c1 := registerTerminationCondition ptc c0 in
    let m := max_planning_threads_ c1 in
    if bool_decide (m = 0) then None
    else
      let n := to_int (count / m) in
      match full_batches_exits (Z.to_nat n) ptc c1 w1 true with
      | Unwound c2 w2 evs => Some (Unwound c2 w2 ([EvRegister ptc] ++ evs))
      | Returned (ptc1, c2, w2, result, evs) =>
          let n := to_int (count mod m) in
          let last :=
            if bool_decide (n = 0) then Returned (result, c2, w2, [])
            else
              let '(fired, ptc2) := ptc_eval ptc1 in
              if fired : bool then Returned (result, c2, w2, [])
              else
                match run_batch_exits (Z.to_nat n) (Str.to_size_t n) ptc2 c2 w2 with
                | Unwound c3 w3 evs1 => Unwound c3 w3 evs1
                | Returned (r, c3, w3, ev) => Returned (result && r, c3, w3, [ev])
                end in
          match last with
          | Unwound c3 w3 evs1 => Some (Unwound c3 w3 ([EvRegister ptc] ++ evs ++ evs1))
          | Returned (result1, c3, w3, evs1) =>
              let c4 := unregisterTerminationCondition c3 in
              finish (result1, c4, w3, [EvRegister ptc] ++ evs ++ evs1 ++ [EvUnregister])
          end
      end.

(** [follow(timeout, count)] with its two kinds of exit: [f.follow] starts
    with [pis_.checkValidity()], before it looks at the goal, the start
    states or the samplers. *)
Definition follow_exits (timeout : Double) (count : Z) (c : Ctx) (w : W)
    : option (Exit (bool * Ctx * W * list Event) Ctx W) :=
  c0 ← preSolve c;
  let '(ptc, w1) := timedPlannerTerminationCondition timeout w in
  let c1 := registerTerminationCondition ptc c0 in
  match checkValidity (ompl_simple_setup_ c1) with
  | Throws => Some (Unwound c1 w1 [EvRegister ptc])
  | Returns _ =>
      g ← goal (ompl_simple_setup_ c1);
      r ← Follower.follow (is_sampleable_region g) (nextStart (ompl_simple_setup_ c1))
            (follow_samplers_ c1) ptc w1;
      let c2 := with_simple_setup
                  (addSolutionPaths (Follower.solution_paths r) (ompl_simple_setup_ c1))
                  c1 in
      let c3 := unregisterTerminationCondition c2 in
      c4 ← postSolve c3;
      Some (Returned (is_exact (Follower.status r), c4, Follower.world_after r,
                      [EvRegister ptc; EvFollow (Follower.status r); EvUnregister]))
  end.

(** No call of a planner throws. *)
Definition planners_never_throw : Prop :=
  (∀ ptc w, simple_setup_solve_throws ptc w = false) ∧
  (∀ planners ptc minSolCount maxSolCount hybridize w,
     parallel_plan_solve_throws planners ptc minSolCount maxSolCount hybridize w = false).

End ContextExits.

(** ** Notions for the projection expressions *)

(** What the loop over the joint names keeps of one name: the name and its
    variable count, when the group has the joint and the count is positive. *)
Definition keeps (jmg : JointModelGroup) (v : string) : option (string * Z) :=
  vc ← getVariableCount jmg v;
  if bool_decide (0 < vc) then Some (v, vc) else None.

(** A joint name: not empty, without comma or white space. *)
Fixpoint plain (w : string) : bool :=
  match w with
  | EmptyString => true
  | String c w' => negb (Ascii.eqb c ",") && negb (Str.isspace c) && plain w'
  end.

Definition joint_name (w : string) : Prop := w ≠ EmptyString ∧ plain w = true.

(** * The index discipline of the Follower *)

Module FollowerShape.
Import Follower.

(** Row [l] of [t], where [t] has one, is as long as layer [l] of [s]. *)
Definition rows_match {A B} (s : list (list A)) (t : list (list B)) : Prop :=
  ∀ l layer, t !! l = Some layer → ∃ row, s !! l = Some row ∧ length layer = length row.

(** The rows of [t'] are as long as those of [t]. *)
Definition same_rows {A} (t t' : list (list A)) : Prop :=
  ∀ l, length <$> t' !! l = length <$> t !! l.

Section Defs.
Context {State W : Type} `{SI : SpaceInformation State} `{PI : PlannerInputs State W}.

(** State [k'] of layer [l'] is reached from state [j] of layer [l] by one
    or more recorded connections. *)
Inductive descends (c : Connections) : nat → nat → nat → nat → Prop :=
| descends_one l j out k :
    at2 c l j = Some out → k ∈ out → descends c l j (S l) k
| descends_step l j out k l' k' :
    at2 c l j = Some out → k ∈ out → descends c (S l) k l' k' →
    descends c l j l' k'.

(** A mark that is 1 stays 1. *)
Definition marks_kept (is_s is_s' : IsStart) : Prop :=
  ∀ l k, at2 is_s l k = Some 1 → at2 is_s' l k = Some 1.

(** Every layer holds a state. *)
Definition populated (s : Sets State) : Prop :=
  ∀ l, (l < length s)%nat → is_Some (at2 s l O).

(** Layer 0 holds the start states, and the layers 1 .. n of the samplers
    hold valid states only. *)
Definition vetted (starts : list State) (n : nat) (s : Sets State) : Prop :=
  s !! O = Some starts ∧
  ∀ l row x, (1 ≤ l ≤ n)%nat → s !! l = Some row → x ∈ row → isValid x = true.

(** What the expansion loop keeps besides [Inv]: with [n] samplers there
    are [n + 2] layers, none empty, and [connections] and [is_start] have
    one entry per stored state. *)
Record Safe (starts : list State) (n : nat) (v : @Vars State W) : Prop := {
  safe_len : length (sets v) = (n + 2)%nat;
  safe_populated : populated (sets v);
  safe_rows : rows_match (sets v) (connections v);
  safe_marks_len : length (is_start v) = length (sets v);
  safe_marks : rows_match (sets v) (is_start v);
  safe_vetted : vetted starts n (sets v);
}.

End Defs.
End FollowerShape.

(** * More of the concrete scene *)

Module DemoMore.
Import Demo.

(** A robot state is the position last written into it. *)
#[export] Instance line_robot_states : RobotStates nat (list nat) := {|
  RobotState := nat;
  copyToRobotState := λ _ st, st;
  double_zero := 0;
|}.

(** Planners that throw when the number they would draw is 9. *)
#[export] Instance line_faults : EngineFaults (list nat) := {|
  simple_setup_solve_throws := λ _ w,
    match w with x :: _ => Nat.eqb x 9 | [] => false end;
  parallel_plan_solve_throws := λ _ _ _ _ _ w,
    match w with x :: _ => Nat.eqb x 9 | [] => false end;
|}.

(** The context of the scene with its goal and no start state. *)
Definition context_without_start : ModelBasedPlanningContext (State := nat) (W := list nat) :=
  with_simple_setup
    (mkSimpleSetup (Some (ConstrainedGoalSampler [7%nat] 7%nat)) [] false []) context.

(** The context of the scene with stored solution paths, a segment length
    and a least number of way points. *)
Definition solved_context (segment minimum : Z) (paths : list (list nat))
    : ModelBasedPlanningContext (State := nat) (W := list nat) := {|
  spec_ := spec;
  name_ := "arm"%string;
  planning_scene_ := Some ();
  path_constraints_ := None;
  path_constraints_msg_ := [];
  goal_constraints_ := [[7%nat]];
  ompl_simple_setup_ :=
    mkSimpleSetup (Some (ConstrainedGoalSampler [7%nat] 7%nat)) [O] false paths;
  ompl_parallel_plan_ := [];
  follow_samplers_ := [gate 1; gate 2];
  max_planning_threads_ := 4;
  max_solution_segment_length_ := segment;
  minimum_waypoint_count_ := minimum;
  ptc_ := None;
|}.

(** A planner configuration with a projection, a planner type and one
    parameter of the planner. *)
Definition planner_config : gmap string string :=
  {[ "projection_evaluator"%string := " link(base) "%string;
     "type"%string := "geometric::RRTConnect"%string;
     "range"%string := "0.5"%string ]}.

End DemoMore.

(** * Properties of the Follower *)

Module FollowerFacts.
Import Follower.

(** ** Indexed containers *)

Section Basics.
Context {A : Type}.
Implicit Types v : list (list A).

Lemma at2_Some v l j y :
  at2 v l j = Some y ↔ ∃ row, v !! l = Some row ∧ row !! j = Some y.
Proof.
  unfold at2. split.
  - intros H. destruct (v !! l) as [row|] eqn:E; simpl in H; [eauto | discriminate].
  - intros (row & -> & H). exact H.
Qed.

Lemma at2_insert v i row l j :
  (i < length v)%nat →
  at2 (<[i := row]> v) l j = if decide (l = i) then row !! j else at2 v l j.
Proof.
  intros Hi. unfold at2. destruct (decide (l = i)) as [->|Hne].
  - by rewrite list_lookup_insert_eq.
  - by rewrite list_lookup_insert_ne.
Qed.

Lemma push_back_at_length i x v v' :
  push_back_at i x v = Some v' → length v' = length v.
Proof.
  unfold push_back_at. intros H.
  destruct (v !! i) as [row|]; simplify_eq/=. apply length_insert.
Qed.

Lemma push_back_at_lookup i x v v' :
  push_back_at i x v = Some v' →
  ∃ row, v !! i = Some row ∧ v' !! i = Some (row ++ [x]) ∧
         ∀ l, l ≠ i → v' !! l = v !! l.
Proof.
  unfold push_back_at. intros H.
  destruct (v !! i) as [row|] eqn:E; simplify_eq/=.
  exists row. split; [done|]. split.
  - apply list_lookup_insert_eq. by eapply lookup_lt_Some.
  - intros l Hl. by apply list_lookup_insert_ne.
Qed.

Lemma push_back_at_ext i x v v' l j y :
  push_back_at i x v = Some v' → at2 v l j = Some y → at2 v' l j = Some y.
Proof.
  intros H Hy. destruct (push_back_at_lookup _ _ _ _ H) as (row & Hr & Hr' & Ho).
  apply at2_Some in Hy as (r & Hl & Hj). apply at2_Some.
  destruct (decide (l = i)) as [->|Hne].
  - simplify_eq. exists (r ++ [x]). split; [done|]. by apply lookup_app_l_Some.
  - exists r. by rewrite Ho.
Qed.

Lemma push_back_at_inv i x v v' l j y :
  push_back_at i x v = Some v' → at2 v' l j = Some y →
  at2 v l j = Some y ∨ (l = i ∧ y = x ∧ ∃ row, v !! i = Some row ∧ j = length row).
Proof.
  intros H Hy. destruct (push_back_at_lookup _ _ _ _ H) as (row & Hr & Hr' & Ho).
  apply at2_Some in Hy as (r & Hl & Hj).
  destruct (decide (l = i)) as [->|Hne].
  - simplify_eq. apply lookup_snoc_Some in Hj as [[_ Hj]|[-> ->]].
    + left. apply at2_Some. eauto.
    + right. eauto.
  - left. apply at2_Some. exists r. by rewrite <- Ho.
Qed.

Lemma push_back_at_last i x v v' :
  push_back_at i x v = Some v' →
  ∃ row', v' !! i = Some row' ∧ last row' = Some x.
Proof.
  intros H. destruct (push_back_at_lookup _ _ _ _ H) as (row & Hr & Hr' & Ho).
  exists (row ++ [x]). split; [done|]. apply last_snoc.
Qed.

Lemma assign2_length i j x v v' :
  assign2 i j x v = Some v' → length v' = length v.
Proof.
  unfold assign2. intros H.
  destruct (v !! i) as [row|]; simplify_eq/=.
  destruct (row !! j); simplify_eq/=. apply length_insert.
Qed.

Lemma assign2_inv i j x v v' l m y :
  assign2 i j x v = Some v' → at2 v' l m = Some y →
  at2 v l m = Some y ∨ (l = i ∧ m = j ∧ y = x).
Proof.
  unfold assign2. intros H Hy.
  destruct (v !! i) as [row|] eqn:E; simplify_eq/=.
  destruct (row !! j) as [z|] eqn:Ej; simplify_eq/=.
  rewrite at2_insert in Hy by (by eapply lookup_lt_Some).
  destruct (decide (l = i)) as [->|]; [|by left].
  destruct (decide (m = j)) as [->|].
  - rewrite list_lookup_insert_eq in Hy by (by eapply lookup_lt_Some).
    right. by simplify_eq.
  - rewrite list_lookup_insert_ne in Hy by done.
    left. apply at2_Some. eauto.
Qed.

End Basics.

Lemma add_edge_length i j k c c' :
  add_edge i j k c = Some c' → length c' = length c.
Proof.
  unfold add_edge. intros H.
  destruct (c !! i) as [layer|]; simplify_eq/=.
  destruct (layer !! j); simplify_eq/=. apply length_insert.
Qed.

Lemma add_edge_inv i j k c c' l m out' :
  add_edge i j k c = Some c' → at2 c' l m = Some out' →
  at2 c l m = Some out' ∨
  (l = i ∧ m = j ∧ ∃ out, at2 c i j = Some out ∧ out' = out ++ [k]).
Proof.
  unfold add_edge. intros H Hy.
  destruct (c !! i) as [layer|] eqn:E; simplify_eq/=.
  destruct (layer !! j) as [out|] eqn:Ej; simplify_eq/=.
  rewrite at2_insert in Hy by (by eapply lookup_lt_Some).
  destruct (decide (l = i)) as [->|]; [|by left].
  destruct (decide (m = j)) as [->|].
  - rewrite list_lookup_insert_eq in Hy by (by eapply lookup_lt_Some).
    right. simplify_eq. split; [done|]. split; [done|].
    exists out. split; [|done]. apply at2_Some. eauto.
  - rewrite list_lookup_insert_ne in Hy by done.
    left. apply at2_Some. eauto.
Qed.

Lemma add_edge_ext i j k c c' l m out :
  add_edge i j k c = Some c' → at2 c l m = Some out →
  ∃ out', at2 c' l m = Some out' ∧ ∀ x, x ∈ out → x ∈ out'.
Proof.
  unfold add_edge. intros H Hy.
  destruct (c !! i) as [layer|] eqn:E; simplify_eq/=.
  destruct (layer !! j) as [o|] eqn:Ej; simplify_eq/=.
  rewrite at2_insert by (by eapply lookup_lt_Some).
  destruct (decide (l = i)) as [->|]; [|eauto].
  apply at2_Some in Hy as (r & Hr & Hm). simplify_eq.
  destruct (decide (m = j)) as [->|].
  - rewrite list_lookup_insert_eq by (by eapply lookup_lt_Some).
    assert (out = o) as -> by congruence.
    exists (o ++ [k]). split; [done|].
    intros x Hx. apply elem_of_app. by left.
  - rewrite list_lookup_insert_ne by done. eauto.
Qed.

Lemma add_edge_new i j k c c' :
  add_edge i j k c = Some c' → ∃ out', at2 c' i j = Some out' ∧ k ∈ out'.
Proof.
  unfold add_edge. intros H.
  destruct (c !! i) as [layer|] eqn:E; simplify_eq/=.
  destruct (layer !! j) as [o|] eqn:Ej; simplify_eq/=.
  exists (o ++ [k]). split.
  - rewrite at2_insert by (by eapply lookup_lt_Some).
    rewrite decide_True by done.
    apply list_lookup_insert_eq. by eapply lookup_lt_Some.
  - apply elem_of_app. right. by apply list_elem_of_singleton.
Qed.

(** ** Growth of the layers and of the connections *)

Section Facts.
Context {State W : Type} `{SI : SpaceInformation State} `{PI : PlannerInputs State W}.
Implicit Types (s : Sets State) (c : Connections) (is_s : IsStart).
Implicit Types (v : @Vars State W).

Lemma sets_ext_refl s : sets_ext s s.
Proof. by intros l j x. Qed.

Lemma conns_ext_refl c : conns_ext c c.
Proof. intros l j out ?. eauto. Qed.

Lemma reach_mono s s' c c' l j :
  sets_ext s s' → conns_ext c c' → reach s c l j → reach s' c' l j.
Proof.
  intros Hs Hc. induction 1 as [j [x Hx]|l j out k _ IH Hout Hk].
  - apply reach_start. exists x. by apply Hs.
  - destruct (Hc _ _ _ Hout) as (out' & Hout' & Hsub).
    eapply reach_step; eauto.
Qed.

Lemma sound_mono s s' c c' is_s :
  sets_ext s s' → conns_ext c c' → sound s c is_s → sound s' c' is_s.
Proof. intros Hs Hc Hsound l j Hf. eapply reach_mono; eauto. Qed.

Lemma edges_ok_sets_mono s s' c :
  sets_ext s s' → edges_ok s c → edges_ok s' c.
Proof.
  intros Hs Hok l j out k Hout Hk.
  destruct (Hok _ _ _ _ Hout Hk) as (a & b & Ha & Hb & Hm).
  exists a, b. eauto.
Qed.

Lemma edges_ok_add_edge s c c' i j k a b :
  edges_ok s c → add_edge i j k c = Some c' →
  at2 s i j = Some a → at2 s (S i) k = Some b → checkMotion a b = true →
  edges_ok s c'.
Proof.
  intros Hok Hadd Ha Hb Hm l m out' x Hout' Hx.
  destruct (add_edge_inv _ _ _ _ _ _ _ _ Hadd Hout')
    as [Hold|(-> & -> & out & Hout & ->)].
  - eauto.
  - apply elem_of_app in Hx as [Hx|Hx].
    + eauto.
    + apply list_elem_of_singleton in Hx as ->. eauto.
Qed.

Lemma edges_ok_push_empty s c c' i :
  edges_ok s c → push_back_at i [] c = Some c' → edges_ok s c'.
Proof.
  intros Hok Hp l m out x Hout Hx.
  destruct (push_back_at_inv _ _ _ _ _ _ _ Hp Hout) as [Hold|(_ & -> & _)].
  - eauto.
  - by apply elem_of_nil in Hx.
Qed.

Lemma conns_ext_push c c' i x :
  push_back_at i x c = Some c' → conns_ext c c'.
Proof.
  intros Hp l j out Hout. exists out. split; [|done].
  eapply push_back_at_ext; eauto.
Qed.

Lemma sets_ext_push s s' i x :
  push_back_at i x s = Some s' → sets_ext s s'.
Proof. intros Hp l j y Hy. eapply push_back_at_ext; eauto. Qed.

Lemma conns_ext_add_edge c c' i j k :
  add_edge i j k c = Some c' → conns_ext c c'.
Proof. intros Hadd l m out Hout. eapply add_edge_ext; eauto. Qed.

Lemma sound_assign s c is_s is_s' l j :
  sound s c is_s → reach s c l j → assign2 l j 1 is_s = Some is_s' →
  sound s c is_s'.
Proof.
  intros Hsound Hr Ha l' j' Hf.
  destruct (assign2_inv _ _ _ _ _ _ _ _ Ha Hf) as [Hold|(-> & -> & _)]; eauto.
Qed.

Lemma sound_push s c is_s is_s' l :
  sound s c is_s → push_back_at l 0 is_s = Some is_s' → sound s c is_s'.
Proof.
  intros Hsound Hp l' j' Hf.
  destruct (push_back_at_inv _ _ _ _ _ _ _ Hp Hf) as [Hold|(_ & ? & _)];
    [eauto | discriminate].
Qed.

Lemma drop_cons_inv {A} (l : list A) n x r :
  drop n l = x :: r → l !! n = Some x ∧ r = drop (S n) l.
Proof.
  intros Hd. split.
  - replace n with (n + 0)%nat by lia. rewrite <- lookup_drop, Hd. done.
  - replace (S n) with (n + 1)%nat by lia. rewrite <- drop_drop, Hd. done.
Qed.

Lemma for_each_inv {A} (P : A → Prop) body (xs : list nat) a a' :
  (∀ ci a a', ci ∈ xs → P a → body ci a = Some a' → P a') →
  P a → for_each body xs a = Some a' → P a'.
Proof.
  revert a. induction xs as [|ci xs IH]; intros a Hbody Ha Hrun; simpl in Hrun.
  - by simplify_eq.
  - destruct (body ci a) as [a1|] eqn:E; simplify_eq/=.
    eapply (IH a1); eauto.
    + intros cj b b' Hin. apply Hbody. by right.
    + eapply Hbody; eauto. by left.
Qed.

Lemma propagate_from_sound s c rest :
  ∀ l j is_s is_s',
    rest = drop l c → reach s c l j → sound s c is_s →
    propagate_from rest l j is_s = Some is_s' → sound s c is_s'.
Proof.
  induction rest as [|layer rest IH]; intros l j is_s is_s' Hd Hr Hs Hp; simpl in Hp.
  - by simplify_eq.
  - symmetry in Hd. apply drop_cons_inv in Hd as [Hl Hd].
    destruct (layer !! j) as [out|] eqn:Ej; simplify_eq/=.
    revert Hp. apply for_each_inv; [|done].
    intros ci a a' Hci Ha Hbody.
    destruct (assign2 (S l) ci 1 a) as [a1|] eqn:E1; simplify_eq/=.
    assert (reach s c (S l) ci) as Hr'.
    { eapply reach_step; eauto. apply at2_Some. eauto. }
    eapply (IH (S l) ci a1); eauto.
    eapply sound_assign; eauto.
Qed.

Lemma propagateStartInfo_sound s c l j is_s is_s' :
  reach s c l j → sound s c is_s →
  propagateStartInfo l j is_s c = Some is_s' → sound s c is_s'.
Proof. intros. eapply propagate_from_sound; eauto. Qed.

(** ** The expansion loop keeps the invariant *)

Lemma at2_last s l cur back :
  s !! l = Some cur → last cur = Some back →
  at2 s l (pred (length cur)) = Some back.
Proof. intros Hl Hb. apply at2_Some. exists cur. by rewrite <- last_lookup. Qed.

Lemma connect_prev_inv k :
  ∀ i index aei v v',
    (1 ≤ index)%nat → Inv v →
    (∀ cur, sets v !! index = Some cur → aei = pred (length cur)) →
    connect_prev k i index aei v = Some v' →
    Inv v' ∧ sets v' = sets v.
Proof.
  induction k as [|k IH]; intros i index aei v v' Hidx HI Haei Hrun; simpl in Hrun.
  - by simplify_eq.
  - bind_inv Hrun p Hp. bind_inv Hrun cur Hcur. bind_inv Hrun back Hback.
    bind_inv Hrun v1 Hv1.
    assert (Inv v1 ∧ sets v1 = sets v) as [HI1 Hs1].
    { destruct (checkMotion p back) eqn:Hm; [|by simplify_eq].
      bind_inv Hv1 c' Hc'. simpl in Hv1. bind_inv Hv1 flag Hflag.
      pose proof (at2_last _ _ _ _ Hcur Hback) as Hb.
      rewrite <- (Haei _ Hcur) in Hb.
      assert (S (index - 1) = index) as HS by lia.
      assert (edges_ok (sets v) c') as He.
      { eapply edges_ok_add_edge; eauto using inv_edges. by rewrite HS. }
      assert (sound (sets v) c' (is_start v)) as Hso.
      { eapply sound_mono; eauto using inv_sound, sets_ext_refl, conns_ext_add_edge. }
      assert (length (sets v) = S (length c')) as Hl.
      { rewrite (add_edge_length _ _ _ _ _ Hc'). by apply inv_len. }
      case_bool_decide as Hf.
      - bind_inv Hv1 is1 His1. bind_inv Hv1 is2 His2. simplify_eq/=.
        split; [|done]. split; simpl; [done..|].
        destruct (add_edge_new _ _ _ _ _ Hc') as (out' & Hout' & Hin).
        assert (reach (sets v) c' index aei) as Hr.
        { rewrite <- HS. eapply reach_step; eauto. }
        refine (propagateStartInfo_sound _ _ _ _ _ _ Hr _ His2).
        eapply sound_assign; eauto.
      - simplify_eq/=. split; [|done]. by split. }
    eapply IH in Hrun as [HI' Hs']; eauto.
    + split; [done|]. by rewrite Hs'.
    + intros cur'. rewrite Hs1. apply Haei.
Qed.

Lemma connect_next_inv k :
  ∀ i index aei v v',
    Inv v →
    (∀ cur, sets v !! index = Some cur → aei = pred (length cur)) →
    connect_next k i index aei v = Some v' →
    Inv v' ∧ sets v' = sets v.
Proof.
  induction k as [|k IH]; intros i index aei v v' HI Haei Hrun; simpl in Hrun.
  - by simplify_eq.
  - bind_inv Hrun cur Hcur. bind_inv Hrun back Hback. bind_inv Hrun n Hn.
    bind_inv Hrun v1 Hv1.
    assert (Inv v1 ∧ sets v1 = sets v) as [HI1 Hs1].
    { destruct (checkMotion back n) eqn:Hm; [|by simplify_eq].
      bind_inv Hv1 c' Hc'. simpl in Hv1.
      bind_inv Hv1 f1 Hf1. bind_inv Hv1 f2 Hf2.
      pose proof (at2_last _ _ _ _ Hcur Hback) as Hb.
      rewrite <- (Haei _ Hcur) in Hb.
      assert (edges_ok (sets v) c') as He.
      { eapply edges_ok_add_edge; eauto using inv_edges. }
      assert (sound (sets v) c' (is_start v)) as Hso.
      { eapply sound_mono; eauto using inv_sound, sets_ext_refl, conns_ext_add_edge. }
      assert (length (sets v) = S (length c')) as Hl.
      { rewrite (add_edge_length _ _ _ _ _ Hc'). by apply inv_len. }
      destruct (bool_decide (f1 = 1)) eqn:Ef1; simpl in Hv1.
      - apply bool_decide_eq_true in Ef1 as ->.
        destruct (bool_decide (f2 = 0)); simpl in Hv1.
        + bind_inv Hv1 is1 His1. bind_inv Hv1 is2 His2. simplify_eq/=.
          split; [|done]. split; simpl; [done..|].
          destruct (add_edge_new _ _ _ _ _ Hc') as (out' & Hout' & Hin).
          assert (reach (sets v) c' (S index) i) as Hr.
          { eapply reach_step; eauto. }
          refine (propagateStartInfo_sound _ _ _ _ _ _ Hr _ His2).
          eapply sound_assign; eauto.
        + simplify_eq/=. split; [|done]. by split.
      - simplify_eq/=. split; [|done]. by split. }
    eapply IH in Hrun as [HI' Hs']; eauto.
    + split; [done|]. by rewrite Hs'.
    + intros cur'. rewrite Hs1. apply Haei.
Qed.

Lemma draw_state_inv samplers goal_index index to_goal ag w v v1 ag1 added :
  Inv v →
  draw_state samplers goal_index index to_goal ag w v = Some (v1, ag1, added) →
  Inv v1 ∧ length (sets v1) = length (sets v).
Proof.
  intros [Hl He Hs] Hrun. unfold draw_state in Hrun.
  destruct to_goal.
  - destruct (nextGoal w) as [[g|] w1].
    + bind_inv Hrun s' Hs'. bind_inv Hrun is' His'. simplify_eq/=.
      pose proof (push_back_at_length _ _ _ _ Hs') as Hlen.
      split; [|done]. split; simpl.
      * congruence.
      * eapply edges_ok_sets_mono; eauto using sets_ext_push.
      * eapply sound_push; eauto.
        eapply sound_mono; eauto using sets_ext_push, conns_ext_refl.
    + simplify_eq/=. split; [|done]. by split.
  - bind_inv Hrun smp Hsmp.
    destruct (sample smp (work_area v) w) as [[ok wa] w1].
    destruct (ok && isValid wa).
    + bind_inv Hrun s' Hs'. bind_inv Hrun c' Hc'. bind_inv Hrun is' His'.
      simplify_eq/=.
      pose proof (push_back_at_length _ _ _ _ Hs') as Hlen.
      pose proof (push_back_at_length _ _ _ _ Hc') as Hlenc.
      split; [|done]. split; simpl.
      * congruence.
      * eapply edges_ok_push_empty; eauto.
        eapply edges_ok_sets_mono; eauto using sets_ext_push.
      * eapply sound_push; eauto.
        eapply sound_mono; eauto using sets_ext_push, conns_ext_push.
    + simplify_eq/=. split; [|done]. by split.
Qed.

Lemma connect_added_inv goal_index index v v' solved :
  (1 ≤ index)%nat → Inv v →
  connect_added goal_index index v = Some (v', solved) →
  Inv v' ∧ sets v' = sets v ∧
  (solved = true → ∃ g, reach (sets v') (connections v') goal_index g).
Proof.
  intros Hidx HI Hrun. unfold connect_added in Hrun.
  bind_inv Hrun prev Hprev. bind_inv Hrun cur Hcur.
  bind_inv Hrun v2 Hv2. bind_inv Hrun v3 Hv3. bind_inv Hrun flags Hflags.
  injection Hrun as <- <-.
  assert (∀ cur', sets v !! index = Some cur' → (length cur - 1)%nat = pred (length cur'))
    as Haei.
  { intros cur' ?. simplify_eq. lia. }
  apply connect_prev_inv in Hv2 as [HI2 Hs2]; [|done..].
  assert (Inv v3 ∧ sets v3 = sets v2) as [HI3 Hs3].
  { case_bool_decide; [|by simplify_eq].
    bind_inv Hv3 next Hnext.
    eapply connect_next_inv in Hv3; eauto. by rewrite Hs2. }
  split; [done|]. split; [congruence|].
  intros Hex. apply existsb_exists in Hex as (f & Hin & Hf).
  apply bool_decide_eq_true in Hf as ->.
  apply list_elem_of_In, list_elem_of_lookup in Hin as [g Hg].
  exists g. apply (inv_sound _ HI3). apply at2_Some. eauto.
Qed.

Lemma pdf_sets_sample_range s w index w' :
  pdf_sets_sample s w = (Some index, w') →
  (1 ≤ index ≤ length s - 1)%nat.
Proof.
  unfold pdf_sets_sample, pdf_sets. destruct (pdf_sample _ _) as [r w1].
  intros [= Hl _]. apply lookup_seq in Hl. lia.
Qed.

Lemma expand_once_inv samplers ag v v' ag' solved :
  Inv v → expand_once samplers ag v = Some (v', ag', solved) →
  Inv v' ∧ length (sets v') = length (sets v) ∧
  (solved = true →
   ∃ g, reach (sets v') (connections v') (length (sets v') - 1) g).
Proof.
  intros HI Hrun. unfold expand_once in Hrun.
  destruct (pdf_sets_sample (sets v) (world v)) as [oindex w] eqn:Epdf.
  bind_inv Hrun index Hindex. subst oindex.
  apply pdf_sets_sample_range in Epdf.
  destruct (if bool_decide (index = (length (sets v) - 1)%nat) then (true, w)
            else if ag then goal_bias_draw w else (false, w)) as [to_goal w1].
  bind_inv Hrun r Hr. destruct r as [[v1 ag1] added].
  apply draw_state_inv in Hr as [HI1 Hl1]; [|done].
  destruct added.
  - bind_inv Hrun r2 Hr2. destruct r2 as [v3 solved3].
    injection Hrun as <- <- <-.
    apply connect_added_inv in Hr2 as (HI3 & Hs3 & Hsolved).
    2: lia. 2: done.
    split; [done|]. split; [congruence|].
    replace (length (sets v3)) with (length (sets v)) by congruence. done.
  - simplify_eq/=. split; [done|]. split; [done|]. discriminate.
Qed.

Lemma expand_inv ptc :
  ∀ samplers ag solved v v' solved',
    Inv v →
    (solved = true →
     ∃ g, reach (sets v) (connections v) (length (sets v) - 1) g) →
    expand ptc samplers ag solved v = Some (v', solved') →
    Inv v' ∧ length (sets v') = length (sets v) ∧
    (solved' = true →
     ∃ g, reach (sets v') (connections v') (length (sets v') - 1) g).
Proof.
  induction ptc as [|p IH]; intros samplers ag solved v v' solved' HI Hsol Hrun;
    simpl in Hrun.
  - by simplify_eq.
  - destruct solved; [by simplify_eq|].
    bind_inv Hrun r Hr. destruct r as [[v1 ag1] solved1].
    apply expand_once_inv in Hr as (HI1 & Hl1 & Hs1); [|done].
    apply IH in Hrun as (HI' & Hl' & Hs'); [|done..].
    split; [done|]. split; [congruence|done].
Qed.


(** ** Path extraction *)

Lemma find_from_spec s rest :
  ∀ l j path b path',
    find_from rest l j s path = Some (b, path') →
    if b then ∃ ch, path' = path ++ reverse ch ∧ is_chain s rest l j ch
    else path' = path ∧ ¬ to_goal rest j.
Proof.
  induction rest as [|layer rest IH]; intros l j path b path' Hrun; simpl in Hrun.
  - bind_inv Hrun x Hx. injection Hrun as <- <-.
    exists [x]. split; [done|]. by constructor.
  - bind_inv Hrun out Hout.
    assert (if b
            then ∃ k ch x, k ∈ out ∧ at2 s l j = Some x ∧
                 is_chain s rest (S l) k ch ∧ path' = path ++ reverse ch ++ [x]
            else path' = path ∧ ∀ k, k ∈ out → ¬ to_goal rest k) as Hloop.
    { clear Hout. revert path Hrun.
      induction out as [|k out IHout]; intros path Hrun; simpl in Hrun.
      - injection Hrun as <- <-. split; [done|]. intros k Hk.
        by apply elem_of_nil in Hk.
      - bind_inv Hrun r Hr. destruct r as [b1 path1].
        apply IH in Hr. destruct b1.
        + destruct Hr as (ch & -> & Hch).
          bind_inv Hrun p2 Hp2. bind_inv Hp2 x Hx.
          injection Hp2 as <-. injection Hrun as <- <-.
          exists k, ch, x. split; [by left|]. split; [done|]. split; [done|].
          by rewrite <- (assoc_L (++)).
        + destruct Hr as [-> Hno]. apply IHout in Hrun.
          destruct b.
          * destruct Hrun as (k' & ch & x & Hk' & ?). exists k', ch, x.
            split; [by right|done].
          * destruct Hrun as [-> Hnone]. split; [done|].
            intros k' Hk'. apply elem_of_cons in Hk' as [->|Hk']; eauto. }
    destruct b.
    + destruct Hloop as (k & ch & x & Hk & Hx & Hch & ->).
      exists (x :: ch). split; [by rewrite reverse_cons|].
      econstructor; eauto.
    + destruct Hloop as [-> Hnone]. split; [done|].
      intros Hg. inversion Hg; simplify_eq. eapply Hnone; eauto.
Qed.

Lemma is_chain_solution s c rest :
  ∀ l j ch,
    edges_ok s c → rest = drop l c → is_chain s rest l j ch →
    length ch = S (length rest) ∧
    head ch = at2 s l j ∧
    (∀ k x, ch !! k = Some x → ∃ layer, s !! (l + k)%nat = Some layer ∧ x ∈ layer) ∧
    (∀ k a b, ch !! k = Some a → ch !! S k = Some b → checkMotion a b = true).
Proof.
  intros l j ch Hok Hd Hch. revert Hd.
  induction Hch as [l j x Hx|layer rest l j out k x ch Hout Hk Hx Hch IH]; intros Hd.
  - split; [done|]. split; [done|]. split.
    + intros [|k] y Hy; simplify_eq/=.
      apply at2_Some in Hx as (row & Hrow & Hj).
      exists row. rewrite Nat.add_0_r. split; [done|].
      by eapply list_elem_of_lookup_2.
    + intros [|k] a b Ha Hb; simplify_eq/=.
  - symmetry in Hd. apply drop_cons_inv in Hd as [Hl Hd].
    destruct (IH Hd) as (Hlen & Hhead & Hin & Hmot).
    split; [simpl; by rewrite Hlen|]. split; [done|]. split.
    + intros [|m] y Hy; simplify_eq/=.
      * apply at2_Some in Hx as (row & Hrow & Hj).
        exists row. rewrite Nat.add_0_r. split; [done|].
        by eapply list_elem_of_lookup_2.
      * destruct (Hin _ _ Hy) as (row & Hrow & Hy').
        exists row. split; [|done]. rewrite <- Hrow. f_equal. lia.
    + intros [|m] a b Ha Hb; simplify_eq/=.
      * assert (at2 c l j = Some out) as Hedge by (apply at2_Some; eauto).
        destruct (Hok _ _ _ _ Hedge Hk) as (a' & b' & Ha' & Hb' & Hm).
        rewrite Hx in Ha'. injection Ha' as <-.
        destruct ch as [|y ch]; simplify_eq/=.
        rewrite Hb' in Hhead. by injection Hhead as ->.
      * eauto.
Qed.

Lemma computeSolution_loop_spec s c k :
  ∀ i pg b pg',
    computeSolution_loop k i s c pg = Some (b, pg') →
    if b then ∃ i' ch, pg' = pg ++ reverse ch ∧ is_chain s c O i' ch
    else pg' = pg ∧ ∀ i', (i ≤ i' < i + k)%nat → ¬ to_goal c i'.
Proof.
  induction k as [|k IH]; intros i pg b pg' Hrun; simpl in Hrun.
  - injection Hrun as <- <-. split; [done|]. intros; lia.
  - bind_inv Hrun r Hr. destruct r as [b1 pg1].
    unfold findSolutionPath in Hr. case_decide; [|done].
    rewrite drop_0 in Hr. apply find_from_spec in Hr.
    destruct b1.
    + injection Hrun as <- <-. destruct Hr as (ch & -> & Hch). eauto.
    + destruct Hr as [-> Hno]. apply IH in Hrun. destruct b; [done|].
      destruct Hrun as [-> Hnone]. split; [done|].
      intros i' Hi'. destruct (decide (i' = i)) as [->|]; [done|].
      apply Hnone. lia.
Qed.

Lemma computeSolution_found s c sol j0 :
  edges_ok s c → length s = S (length c) →
  is_Some (at2 s O j0) → to_goal c j0 →
  computeSolution s c = Some sol →
  ∃ path, sol = Some path ∧ solution_path s path.
Proof.
  intros Hok Hlen [x0 Hx0] Hg Hrun. unfold computeSolution in Hrun.
  bind_inv Hrun starts Hstarts. bind_inv Hrun r Hr. destruct r as [b pg].
  injection Hrun as <-.
  apply computeSolution_loop_spec in Hr. destruct b.
  - destruct Hr as (i' & ch & -> & Hch).
    exists ch. split; [by rewrite app_nil_l, reverse_involutive|].
    destruct (is_chain_solution s c c O i' ch) as (Hl & _ & Hin & Hm); [done..|].
    split; [congruence|]. split; [|done]. intros k x Hk. by apply Hin.
  - destruct Hr as [_ Hnone]. exfalso. apply (Hnone j0); [|done].
    apply at2_Some in Hx0 as (row & Hrow & Hj0). simplify_eq.
    apply lookup_lt_Some in Hj0. lia.
Qed.

Lemma reach_to_goal s c l j :
  reach s c l j → to_goal (drop l c) j →
  ∃ j0, is_Some (at2 s O j0) ∧ to_goal c j0.
Proof.
  induction 1 as [j Hj|l j out k Hr IH Hout Hk]; intros Hg.
  - exists j. by rewrite drop_0 in Hg.
  - apply IH. apply at2_Some in Hout as (layer & Hl & Hj).
    rewrite (drop_S _ _ _ Hl). econstructor; eauto.
Qed.

Lemma reach_goal_layer s c g :
  reach s c (length c) g → ∃ j0, is_Some (at2 s O j0) ∧ to_goal c j0.
Proof.
  intros Hr. eapply reach_to_goal; eauto.
  rewrite drop_all. constructor.
Qed.


(** ** The phases before the expansion loop

    Phase 1 keeps the number of layers. *)

Lemma seed_once_length samplers i v v' :
  seed_once samplers i v = Some v' → length (sets v') = length (sets v).
Proof.
  unfold seed_once. intros Hrun.
  bind_inv Hrun prev Hprev. bind_inv Hrun smp Hsmp.
  destruct (match last prev with
            | Some back =>
                let '(okp, wa, w) := project smp back (world v) in
                if okp then (true, wa, w) else sample smp wa w
            | None => sample smp (work_area v) (world v)
            end) as [[ok wa] w].
  destruct (ok && isValid wa).
  - bind_inv Hrun s' Hs'. injection Hrun as <-. simpl.
    by apply push_back_at_length in Hs'.
  - by injection Hrun as <-.
Qed.

Lemma seed_layer_length ptc :
  ∀ samplers i v ptc' v',
    seed_layer ptc samplers i v = Some (ptc', v') →
    length (sets v') = length (sets v).
Proof.
  induction ptc as [|p IH]; intros samplers i v ptc' v' Hrun; simpl in Hrun.
  - bind_inv Hrun layer Hlayer. destruct layer; by simplify_eq.
  - bind_inv Hrun layer Hlayer. destruct layer; [|by simplify_eq].
    bind_inv Hrun v1 Hv1. apply IH in Hrun.
    apply seed_once_length in Hv1. congruence.
Qed.

Lemma seed_layers_length k :
  ∀ i ptc samplers v ptc' v',
    seed_layers k i ptc samplers v = Some (ptc', v') →
    length (sets v') = length (sets v).
Proof.
  induction k as [|k IH]; intros i ptc samplers v ptc' v' Hrun; simpl in Hrun.
  - by simplify_eq.
  - destruct ptc as [|p]; [by simplify_eq|].
    bind_inv Hrun r Hr. destruct r as [p1 v1].
    apply seed_layer_length in Hr. apply IH in Hrun. congruence.
Qed.

(** Phase 3: the connections recorded for the first states are valid, and
    when all of them are recorded they form a chain. *)

Lemma add_edge_other i j k c c' l :
  add_edge i j k c = Some c' → l ≠ i → c' !! l = c !! l.
Proof.
  unfold add_edge. intros Hrun Hl.
  bind_inv Hrun layer Hlayer. bind_inv Hrun out Hout. injection Hrun as <-.
  by apply list_lookup_insert_ne.
Qed.

Lemma lookup_resize_inv {A} (d : A) n (row : list A) j x :
  resize n d row !! j = Some x → row !! j = Some x ∨ x = d.
Proof.
  intros Hx. destruct (decide (j < length row)%nat) as [Hlt|Hge].
  - left. rewrite <- Hx. symmetry. apply lookup_resize; [|done].
    apply lookup_lt_Some in Hx. by rewrite length_resize in Hx.
  - right. rewrite lookup_resize_new in Hx.
    + by injection Hx.
    + lia.
    + apply lookup_lt_Some in Hx. by rewrite length_resize in Hx.
Qed.

Lemma first_samples_spec s k :
  ∀ i c worked c' worked',
    edges_ok s c → first_samples k i s c worked = Some (c', worked') →
    length c' = length c ∧ edges_ok s c' ∧
    (∀ l, (l < i)%nat → c' !! l = c !! l) ∧
    ((0 < k)%nat → is_Some (at2 s i O)) ∧
    (worked' = true →
     ∀ l, (i ≤ l < i + k)%nat → ∃ out, at2 c' l O = Some out ∧ O ∈ out).
Proof.
  induction k as [|k IH]; intros i c worked c' worked' Hok Hrun; simpl in Hrun.
  - injection Hrun as <- <-. split; [done|]. split; [done|]. split; [done|].
    split; intros; lia.
  - bind_inv Hrun si Hsi. bind_inv Hrun layer Hlayer.
    bind_inv Hrun a Ha. bind_inv Hrun b Hb.
    set (c1 := <[i := resize (length si) [] layer]> c) in *.
    assert (length c1 = length c) as Hl1 by apply length_insert.
    assert (edges_ok s c1) as Hok1.
    { intros l j out x Hout Hx. unfold c1 in Hout.
      rewrite at2_insert in Hout by (by eapply lookup_lt_Some).
      case_decide as Hli; [|eauto]. subst l.
      apply lookup_resize_inv in Hout as [Hout| ->].
      - eapply Hok; [|done]. apply at2_Some. eauto.
      - by apply elem_of_nil in Hx. }
    assert (∀ l, l ≠ i → c1 !! l = c !! l) as Ho1.
    { intros l Hl. by apply list_lookup_insert_ne. }
    destruct (checkMotion a b) eqn:Hm.
    + bind_inv Hrun c2 Hc2.
      assert (edges_ok s c2) as Hok2 by (eapply edges_ok_add_edge; eauto).
      destruct (IH _ _ _ _ _ Hok2 Hrun) as (Hlen & Hok' & Hbefore & _ & Hall).
      split. { rewrite Hlen, (add_edge_length _ _ _ _ _ Hc2). done. }
      split; [done|]. split.
      { intros l Hl. rewrite Hbefore by lia.
        rewrite (add_edge_other _ _ _ _ _ _ Hc2) by lia. apply Ho1. lia. }
      split; [eauto|].
      intros Hw l Hl. destruct (decide (l = i)) as [->|Hne].
      * destruct (add_edge_new _ _ _ _ _ Hc2) as (out & Hout & Hin).
        exists out. split; [|done]. unfold at2. rewrite Hbefore by lia. done.
      * apply Hall; [done|lia].
    + destruct (IH _ _ _ _ _ Hok1 Hrun) as (Hlen & Hok' & Hbefore & _ & Hall).
      split; [congruence|]. split; [done|]. split.
      { intros l Hl. rewrite Hbefore by lia. apply Ho1. lia. }
      split; [eauto|].
      intros Hw l Hl. destruct (decide (l = i)) as [->|Hne].
      * exfalso. clear -Hrun Hw.
        assert (∀ k i c c' w', first_samples k i s c false = Some (c', w') → w' = false)
          as Hfalse.
        { clear. induction k as [|k IH]; intros i c c' w' Hrun; simpl in Hrun.
          - by simplify_eq.
          - bind_inv Hrun si Hsi. bind_inv Hrun layer Hlayer.
            bind_inv Hrun a Ha. bind_inv Hrun b Hb.
            destruct (checkMotion a b); [bind_inv Hrun c2 Hc2|]; eauto. }
        apply Hfalse in Hrun. congruence.
      * apply Hall; [done|lia].
Qed.

Lemma all_first_to_goal c :
  (∀ l, (l < length c)%nat → ∃ out, at2 c l O = Some out ∧ O ∈ out) →
  to_goal c O.
Proof.
  induction c as [|layer c IH]; intros Hall; [constructor|].
  destruct (Hall O) as (out & Hout & Hin); [simpl; lia|].
  econstructor; eauto.
  apply IH. intros l Hl. apply (Hall (S l)). simpl. lia.
Qed.

(** Phase 4, before the loop: the invariant is established. *)

Lemma more_start_connections_spec s k :
  ∀ i c c',
    edges_ok s c → more_start_connections k i s c = Some c' →
    length c' = length c ∧ edges_ok s c'.
Proof.
  induction k as [|k IH]; intros i c c' Hok Hrun; simpl in Hrun.
  - by simplify_eq.
  - bind_inv Hrun a Ha. bind_inv Hrun b Hb. bind_inv Hrun c1 Hc1.
    destruct (checkMotion a b) eqn:Hm.
    + assert (edges_ok s c1) as Hok1 by (eapply edges_ok_add_edge; eauto).
      destruct (IH _ _ _ Hok1 Hrun) as [Hl Hok'].
      split; [|done]. rewrite Hl. by eapply add_edge_length.
    + injection Hc1 as <-. eauto.
Qed.

Lemma init_is_start_sound s c is_s :
  init_is_start s = Some is_s → sound s c is_s.
Proof.
  destruct s as [|s0 rest]; intros Hrun; simplify_eq/=.
  intros [|l] j Hf; apply at2_Some in Hf as (row & Hrow & Hj); simplify_eq/=.
  - apply reach_start. apply lookup_replicate in Hj as [_ Hj].
    apply lookup_lt_is_Some_2 in Hj as [x Hx]. exists x. by apply at2_Some; eauto.
  - apply list_lookup_fmap_Some in Hrow as (si & -> & Hsi).
    by apply lookup_replicate in Hj as [? _].
Qed.

Lemma propagate_starts_sound s c k :
  ∀ i is_s is_s',
    (∀ i', (i ≤ i' < i + k)%nat → is_Some (at2 s O i')) →
    sound s c is_s → propagate_starts k i is_s c = Some is_s' →
    sound s c is_s'.
Proof.
  induction k as [|k IH]; intros i is_s is_s' Hstarts Hs Hrun; simpl in Hrun.
  - by simplify_eq.
  - bind_inv Hrun is1 His1.
    eapply (IH (S i) is1); eauto.
    + intros i' Hi'. apply Hstarts. lia.
    + refine (propagateStartInfo_sound _ _ _ _ _ _ _ Hs His1).
      apply reach_start, Hstarts. lia.
Qed.

(** C1.  Whenever [Follower::follow] over the samplers S_1 .. S_n answers
    [EXACT_SOLUTION], there are n + 2 layers and exactly one path was handed
    to [addSolutionPath]; it has one waypoint per layer, the k-th waypoint
    being a state of [sets[k]], from the start layer to the goal layer, and
    the local motion between any two adjacent waypoints is valid
    ([checkMotion] answered true for it, which is the only way an edge is
    recorded). *)
Theorem follow_exact_solution_path gs starts samplers ptc w r :
  follow gs starts samplers ptc w = Some r →
  status r = EXACT_SOLUTION →
  length (layers r) = (length samplers + 2)%nat ∧
  ∃ path, solution_paths r = [path] ∧ solution_path (layers r) path.
Proof.
  unfold follow. intros Hrun Hst.
  destruct gs; simpl in Hrun; [|by simplify_eq].
  destruct starts as [|x0 starts]; [by simplify_eq|].
  set (sets0 := <[O := x0 :: starts]> (replicate (length samplers + 2) [])) in *.
  assert (length sets0 = (length samplers + 2)%nat) as Hl0.
  { unfold sets0. by rewrite length_insert, length_replicate. }
  bind_inv Hrun r1 Hr1. destruct r1 as [ptc1 v1].
  apply seed_layers_length in Hr1. simpl in Hr1.
  destruct ptc1 as [|ptc2]; [by simplify_eq|].
  destruct (nextGoal (world v1)) as [[g|] w2]; [|by simplify_eq].
  bind_inv Hrun s2 Hs2.
  pose proof (push_back_at_length _ _ _ _ Hs2) as Hl2.
  bind_inv Hrun r3 Hr3. destruct r3 as [c1 worked].
  set (c0 := replicate (length s2 - 1) []) in *.
  assert (length c0 = (length s2 - 1)%nat) as Hlc0 by apply length_replicate.
  assert (edges_ok s2 c0) as Hok0.
  { intros l j out k Hout Hk. apply at2_Some in Hout as (row & Hrow & Hj).
    apply lookup_replicate in Hrow as [-> _]. done. }
  destruct (first_samples_spec _ _ _ _ _ _ _ Hok0 Hr3)
    as (Hlc1 & Hok1 & _ & Hfirst & Hall).
  assert (length s2 = S (length c1)) as Hlen1 by lia.
  destruct worked.
  - bind_inv Hrun sol Hsol. injection Hrun as <-. simpl.
    split; [lia|].
    eapply computeSolution_found in Hsol as (path & -> & Hpath); eauto.
    + apply Hfirst. lia.
    + apply all_first_to_goal. intros l Hl. apply Hall; [done|lia].
  - bind_inv Hrun starts2 Hstarts2. bind_inv Hrun c2 Hc2.
    bind_inv Hrun is0 His0. bind_inv Hrun is1 His1.
    bind_inv Hrun r4 Hr4. destruct r4 as [v3 solved].
    destruct (more_start_connections_spec _ _ _ _ _ Hok1 Hc2) as [Hlc2 Hok2].
    assert (Inv (mkVars s2 c2 is1 (work_area v1) w2)) as HI.
    { split; simpl; [lia|done|].
      eapply propagate_starts_sound; [|by eapply init_is_start_sound|done].
      intros i' Hi'. unfold at2. rewrite Hstarts2. simpl.
      apply lookup_lt_is_Some_2. lia. }
    apply expand_inv in Hr4 as (HI3 & Hl3 & Hsolved); [|done..].
    simpl in Hl3.
    destruct solved; [|by simplify_eq].
    bind_inv Hrun sol Hsol. injection Hrun as <-. simpl.
    split; [lia|].
    destruct Hsolved as [gi Hgi]; [done|].
    pose proof (inv_len _ HI3) as Hlen3.
    replace (length (sets v3) - 1)%nat with (length (connections v3)) in Hgi by lia.
    apply reach_goal_layer in Hgi as (j0 & Hj0 & Hgoal).
    eapply computeSolution_found in Hsol as (path & -> & Hpath);
      eauto using inv_edges.
Qed.

(** A condition that has fired before the call leaves no exact solution. *)
Lemma follow_fired_not_exact gs starts samplers w r :
  follow gs starts samplers O w = Some r → status r ≠ EXACT_SOLUTION.
Proof.
  unfold follow. intros Hrun.
  destruct gs; simpl in Hrun; [|by simplify_eq].
  destruct starts as [|x0 starts]; [by simplify_eq|].
  bind_inv Hrun r1 Hr1. destruct r1 as [ptc1 v1].
  assert (ptc1 = O) as ->.
  { destruct (length samplers); simpl in Hr1; by simplify_eq. }
  by simplify_eq.
Qed.

End Facts.

End FollowerFacts.

(** * Properties of the planning context *)

Section ContextFacts.
Context {State W : Type}.
Context `{SI : Follower.SpaceInformation State} `{PI : Follower.PlannerInputs State W}.
Context `{MI : MoveIt} `{EN : PlanningEngine State W}.
Implicit Types (c : ModelBasedPlanningContext (State := State) (W := W)).


Lemma run_batch_spec n maxSol ptc c w r c' w' ev :
  run_batch n maxSol ptc c w = (r, c', w', ev) →
  max_planning_threads_ c' = max_planning_threads_ c ∧
  ptc_ c' = ptc_ c ∧
  ompl_simple_setup_ c' = ompl_simple_setup_ c ∧
  ∃ planners st,
    ev = EvParallelSolve planners 1 maxSol st ∧ length planners = n ∧
    r = is_exact st.
Proof.
  unfold run_batch. intros Hrun.
  destruct (parallel_plan_solve _ _ _ _ _ _) as [st w1].
  injection Hrun as <- <- <- <-. simpl.
  repeat split; try done.
  eexists _, st. repeat split. by rewrite length_replicate.
Qed.

Lemma batch_sizes_app evs1 evs2 :
  batch_sizes (evs1 ++ evs2) = batch_sizes evs1 ++ batch_sizes evs2.
Proof.
  induction evs1 as [|[] evs1 IH]; simpl; by rewrite ?IH.
Qed.

Lemma batch_results_app evs1 evs2 :
  batch_results (evs1 ++ evs2) = batch_results evs1 ++ batch_results evs2.
Proof.
  induction evs1 as [|[] evs1 IH]; simpl; by rewrite ?IH.
Qed.

Lemma registrations_app evs1 evs2 :
  registrations (evs1 ++ evs2) = registrations evs1 ++ registrations evs2.
Proof.
  induction evs1 as [|[] evs1 IH]; simpl; by rewrite ?IH.
Qed.

Ltac evs_simpl :=
  simpl;
  rewrite ?batch_sizes_app, ?batch_results_app, ?registrations_app; simpl;
  rewrite ?app_nil_r.

Lemma full_batches_spec k :
  ∀ ptc c w result ptc' c' w' result' evs,
    full_batches k ptc c w result = (ptc', c', w', result', evs) →
    max_planning_threads_ c' = max_planning_threads_ c ∧
    ptc_ c' = ptc_ c ∧
    ompl_simple_setup_ c' = ompl_simple_setup_ c ∧
    result' = result && all_true (batch_results evs) ∧
    registrations evs = [] ∧
    ((k ≤ ptc)%nat → 0 ≤ max_planning_threads_ c →
     ptc' = (ptc - k)%nat ∧
     batch_sizes evs = replicate k (max_planning_threads_ c)).
Proof.
  induction k as [|k IH]; intros ptc c w result ptc' c' w' result' evs Hrun;
    simpl in Hrun.
  - injection Hrun as <- <- <- <- <-. simpl.
    rewrite andb_true_r. repeat split; try done. lia.
  - destruct ptc as [|p]; simpl in Hrun.
    + injection Hrun as <- <- <- <- <-. simpl.
      rewrite andb_true_r. repeat split; try done; lia.
    + destruct (run_batch _ _ _ _ _) as [[[r c1] w1] ev] eqn:Eb.
      destruct (full_batches k p c1 w1 (result && r))
        as [[[[ptc2 c2] w2] result2] evs2] eqn:Ef.
      injection Hrun as <- <- <- <- <-.
      apply run_batch_spec in Eb as (Hm & Hp & Hs & pool & st & -> & Hlen & ->).
      apply IH in Ef as (Hm2 & Hp2 & Hs2 & Hres2 & Hreg2 & Hfull).
      split; [congruence|]. split; [congruence|]. split; [congruence|].
      split. { rewrite Hres2. evs_simpl. by rewrite andb_assoc. }
      split; [done|].
      intros Hk Hpos. destruct Hfull as [-> Hsz]; [lia|congruence|].
      split; [lia|]. evs_simpl. rewrite Hsz, Hlen, Hm, Z2Nat.id by done. done.
Qed.

Lemma to_int_small z : 0 ≤ z < 2 ^ 31 → to_int z = z.
Proof.
  intros Hz. unfold to_int.
  rewrite Z.mod_small by lia.
  destruct (Z.ltb_spec z (2 ^ 31)); lia.
Qed.

Lemma preSolve_spec c c0 :
  preSolve c = Some c0 →
  ptc_ c0 = ptc_ c ∧ max_planning_threads_ c0 = max_planning_threads_ c ∧
  goal (ompl_simple_setup_ c0) = goal (ompl_simple_setup_ c) ∧
  is_Some (goal (ompl_simple_setup_ c)).
Proof.
  unfold preSolve. intros Hrun. bind_inv Hrun g Hg. injection Hrun as <-.
  simpl. rewrite Hg. eauto.
Qed.

Lemma preSolve_defined c :
  is_Some (goal (ompl_simple_setup_ c)) → is_Some (preSolve c).
Proof. unfold preSolve. intros [g ->]. simpl. eauto. Qed.

Lemma postSolve_spec c c' : postSolve c = Some c' → c' = c.
Proof. unfold postSolve. intros Hrun. bind_inv Hrun g Hg. by injection Hrun. Qed.

Lemma postSolve_defined c :
  is_Some (goal (ompl_simple_setup_ c)) → postSolve c = Some c.
Proof. unfold postSolve. by intros [g ->]. Qed.

(** What the batched branch of [solve] does between registering and
    unregistering the condition. *)
Lemma solve_batched_spec timeout count c w r c' w' evs :
  ¬ count ≤ 1 → ¬ count ≤ max_planning_threads_ c →
  solve timeout count c w = Some (r, c', w', evs) →
  let m := max_planning_threads_ c in
  let ptc := (timedPlannerTerminationCondition timeout w).1 in
  m ≠ 0 ∧
  r = all_true (batch_results evs) ∧
  (0 ≤ m → 0 ≤ count / m < 2 ^ 31 → 0 ≤ count mod m < 2 ^ 31 →
   (Z.to_nat (count / m)%Z + (if bool_decide (count mod m = 0)%Z then 0 else 1) ≤ ptc)%nat →
   batch_sizes evs = full_and_partial count m).
Proof.
  intros H1 Hm Hrun. unfold solve in Hrun.
  bind_inv Hrun c0 Hc0. bind_inv Hrun res Hres.
  destruct res as [[[result c3] w3] evs0].
  bind_inv Hrun c4 Hc4. injection Hrun as <- <- <- <-.
  apply preSolve_spec in Hc0 as (Hp0 & Hm0 & Hg0 & Hgoal).
  rewrite bool_decide_false in Hres by done.
  rewrite bool_decide_false in Hres by (by rewrite Hm0).
  destruct (timedPlannerTerminationCondition timeout w) as [ptc w1]. simpl.
  simpl in Hres. rewrite Hm0 in Hres.
  case_bool_decide as Hz; [done|].
  destruct (full_batches _ _ _ _ _) as [[[[ptc1 c2] w2] res1] evs1] eqn:Ef.
  apply full_batches_spec in Ef as (Hm2 & Hp2 & Hs2 & Hres1 & Hreg1 & Hfull).
  simpl in Hm2, Hfull. rewrite Hm0 in Hm2, Hfull.
  split; [done|].
  destruct (bool_decide (to_int (count `mod` max_planning_threads_ c) = 0)) eqn:En.
  - injection Hres as <- <- <- <-.
    split. { rewrite Hres1. by evs_simpl. }
    intros Hpos Hq Hr Hpolls.
    apply bool_decide_eq_true in En. rewrite to_int_small in En by lia.
    rewrite to_int_small in Hfull by lia.
    unfold full_and_partial. rewrite bool_decide_true by done.
    destruct Hfull as [_ Hsz]; [lia|done|].
    evs_simpl. by rewrite Hsz.
  - destruct (ptc_eval ptc1) as [fired ptc2] eqn:Ee.
    destruct fired.
    + injection Hres as <- <- <- <-.
      split. { rewrite Hres1. by evs_simpl. }
      intros Hpos Hq Hr Hpolls.
      apply bool_decide_eq_false in En. rewrite to_int_small in En by lia.
      rewrite to_int_small in Hfull by lia.
      rewrite bool_decide_false in Hpolls by done.
      destruct Hfull as [-> _]; [lia|done|].
      destruct (ptc - Z.to_nat (count / max_planning_threads_ c)%Z)%nat eqn:E;
        [lia|]. simpl in Ee. by injection Ee.
    + destruct (run_batch _ _ _ _ _) as [[[rb c3'] w3'] ev] eqn:Eb.
      injection Hres as <- <- <- <-.
      apply run_batch_spec in Eb as (_ & _ & _ & pool & st & -> & Hlen & ->).
      split.
      { rewrite Hres1. evs_simpl. unfold all_true.
        rewrite forallb_app. simpl. by rewrite andb_true_r. }
      intros Hpos Hq Hr Hpolls.
      apply bool_decide_eq_false in En. rewrite to_int_small in En by lia.
      rewrite to_int_small in Hfull by lia.
      rewrite bool_decide_false in Hpolls by done.
      destruct Hfull as [_ Hsz]; [lia|done|].
      unfold full_and_partial. rewrite bool_decide_false by done.
      evs_simpl. rewrite Hsz, Hlen, !to_int_small by lia.
      rewrite Z2Nat.id by lia. done.
Qed.

Lemma solve_batched_defined timeout count c w :
  ¬ count ≤ 1 → ¬ count ≤ max_planning_threads_ c →
  max_planning_threads_ c ≠ 0 →
  is_Some (goal (ompl_simple_setup_ c)) →
  is_Some (solve timeout count c w).
Proof.
  intros H1 Hm Hz Hgoal. unfold solve.
  destruct (preSolve_defined _ Hgoal) as [c0 Hc0]. rewrite Hc0. simpl.
  apply preSolve_spec in Hc0 as (Hp0 & Hm0 & Hg0 & _).
  rewrite bool_decide_false by done.
  rewrite bool_decide_false by (by rewrite Hm0).
  destruct (timedPlannerTerminationCondition timeout w) as [ptc w1].
  simpl. rewrite Hm0. rewrite bool_decide_false by done.
  destruct (full_batches _ _ _ _ _) as [[[[ptc1 c2] w2] res1] evs1] eqn:Ef.
  apply full_batches_spec in Ef as (_ & _ & Hs2 & _). simpl in Hs2.
  assert (∀ x : bool * ModelBasedPlanningContext * W * list Event,
            ompl_simple_setup_ (x.1.1.2) = ompl_simple_setup_ c2 →
            is_Some
              (let '(result1, c3, w3, evs2) := x in
               Some (result1, unregisterTerminationCondition c3, w3,
                     [EvRegister ptc] ++ evs1 ++ evs2 ++ [EvUnregister])
               ≫= λ '(result, c3, w3, evs),
                    postSolve c3 ≫= λ c4, Some (result, c4, w3, evs))) as Hfin.
  { intros [[[rr cc] ww] ee] Hcc. simpl in *.
    rewrite postSolve_defined; [simpl; eauto|].
    simpl. rewrite Hcc, Hs2, Hg0. done. }
  destruct (bool_decide (to_int (count `mod` max_planning_threads_ c) = 0)).
  { by apply (Hfin (_, _, _, _)). }
  destruct (ptc_eval ptc1) as [[] ptc2].
  { by apply (Hfin (_, _, _, _)). }
  destruct (run_batch _ _ _ _ _) as [[[rb c3'] w3'] ev] eqn:Eb.
  apply run_batch_spec in Eb as (_ & _ & Hs3 & _).
  by apply (Hfin (_, _, _, _)).
Qed.



(** The batched branch answers true when the condition has fired before
    the first batch: no batch runs and [result] keeps its initial value. *)
Lemma solve_fired_before_first_batch timeout count c w r c' w' evs :
  ¬ count ≤ 1 → ¬ count ≤ max_planning_threads_ c →
  (timedPlannerTerminationCondition timeout w).1 = O →
  solve timeout count c w = Some (r, c', w', evs) →
  r = true ∧ batch_sizes evs = [].
Proof.
  intros H1 Hm Hfired Hrun. unfold solve in Hrun.
  bind_inv Hrun c0 Hc0. bind_inv Hrun res Hres.
  destruct res as [[[result c3] w3] evs0].
  bind_inv Hrun c4 Hc4. injection Hrun as <- <- <- <-.
  apply preSolve_spec in Hc0 as (Hp0 & Hm0 & Hg0 & Hgoal).
  rewrite bool_decide_false in Hres by done.
  rewrite bool_decide_false in Hres by (by rewrite Hm0).
  destruct (timedPlannerTerminationCondition timeout w) as [ptc w1].
  simpl in Hfired. subst ptc. simpl in Hres.
  case_bool_decide; [done|].
  assert (∀ k c w b, full_batches k O c w b = (O, c, w, b, [])) as Hnone.
  { by intros [|k]. }
  rewrite Hnone in Hres.
  destruct (bool_decide _); simpl in Hres; by injection Hres as <- <- <- <-.
Qed.

Lemma solve_registration timeout count c w r c' w' evs :
  solve timeout count c w = Some (r, c', w', evs) →
  ptc_ c' = None ∧ ∃ ptc, registrations evs = [EvRegister ptc; EvUnregister].
Proof.
  intros Hrun. unfold solve in Hrun.
  bind_inv Hrun c0 Hc0. bind_inv Hrun res Hres.
  destruct res as [[[result c3] w3] evs0].
  bind_inv Hrun c4 Hc4. injection Hrun as <- <- <- <-.
  apply postSolve_spec in Hc4 as ->.
  destruct (timedPlannerTerminationCondition timeout w) as [ptc w1].
  destruct (bool_decide (count ≤ 1));
    [|destruct (bool_decide (count ≤ max_planning_threads_ c0))].
  - destruct (simple_setup_solve ptc w1) as [st w2].
    injection Hres as <- <- <- <-. split; [done|]. by exists ptc.
  - destruct (parallel_plan_solve _ _ _ _ _ _) as [st w2].
    injection Hres as <- <- <- <-. split; [done|]. by exists ptc.
  - simpl in Hres. case_bool_decide; [done|].
    destruct (full_batches _ _ _ _ _) as [[[[ptc1 c2] w2] res1] evs1] eqn:Ef.
    apply full_batches_spec in Ef as (_ & _ & _ & _ & Hreg & _).
    destruct (bool_decide _).
    { injection Hres as <- <- <- <-. split; [done|].
      exists ptc. evs_simpl. by rewrite Hreg. }
    destruct (ptc_eval ptc1) as [[] ptc2].
    { injection Hres as <- <- <- <-. split; [done|].
      exists ptc. evs_simpl. by rewrite Hreg. }
    destruct (run_batch _ _ _ _ _) as [[[rb c3'] w3'] ev] eqn:Eb.
    apply run_batch_spec in Eb as (_ & _ & _ & pool & st & -> & _).
    injection Hres as <- <- <- <-. split; [done|].
    exists ptc. evs_simpl. by rewrite Hreg.
Qed.

Lemma follow_registration timeout count c w r c' w' evs :
  follow timeout count c w = Some (r, c', w', evs) →
  ptc_ c' = None ∧ ∃ ptc, registrations evs = [EvRegister ptc; EvUnregister].
Proof.
  intros Hrun. unfold follow in Hrun.
  bind_inv Hrun c0 Hc0.
  destruct (timedPlannerTerminationCondition timeout w) as [ptc w1].
  bind_inv Hrun g Hg. bind_inv Hrun fr Hfr. bind_inv Hrun c4 Hc4.
  injection Hrun as <- <- <- <-.
  apply postSolve_spec in Hc4 as ->.
  split; [done|]. by exists ptc.
Qed.

(** A call of [solve] or [follow] that returns has registered one
    termination condition and unregistered it afterwards, and nothing else:
    after the call [ptc_] is null and [terminateSolve] changes nothing.
    The calls an exception leaves are those of [solve_exits] and
    [follow_exits]. *)
Lemma registration_is_paired timeout count c w r c' w' evs :
  solve timeout count c w = Some (r, c', w', evs) ∨
  follow timeout count c w = Some (r, c', w', evs) →
  ptc_ c' = None ∧ terminateSolve c' = c' ∧
  ∃ ptc, registrations evs = [EvRegister ptc; EvUnregister].
Proof.
  intros Hrun.
  assert (ptc_ c' = None ∧
          ∃ ptc, registrations evs = [EvRegister ptc; EvUnregister]) as [Hp Hr].
  { destruct Hrun; eauto using solve_registration, follow_registration. }
  split; [done|]. split; [|done].
  unfold terminateSolve. by rewrite Hp.
Qed.

(** C9.  [follow(timeout, count)] never reads [count]: for one context,
    one timeout and one world (which holds all the randomness), any two
    values of [count] give the same run and the same result. *)
Theorem follow_ignores_count timeout count1 count2 c w :
  follow timeout count1 c w = follow timeout count2 c w.
Proof. reflexivity. Qed.

(** C10.  For every constraints message, [setPathConstraints] (called with
    a planning scene set) returns true and leaves the error output as it
    was; the stored path constraint set becomes a fresh set holding the
    message and the stored message becomes the message, whatever was
    stored before. *)
Theorem setPathConstraints_returns_true path_constraints error c scene :
  planning_scene_ c = Some scene →
  ∃ c',
    setPathConstraints path_constraints error c = Some (true, error, c') ∧
    path_constraints_ c' = Some (add path_constraints (newKinematicConstraintSet scene)) ∧
    path_constraints_msg_ c' = path_constraints.
Proof.
  intros Hscene. unfold setPathConstraints. rewrite Hscene. simpl.
  eexists. split; [done|]. done.
Qed.

(** When no sampler can be constructed, [setGoalConstraints] answers false
    and leaves a null goal or no goal constraint. *)
Lemma setGoalConstraints_no_sampler goal_constraints path_constraints error c r error' c' :
  (∀ mgr scene group constr,
     constraint_sampler_manager_ (spec_ c) = Some mgr →
     selectSampler mgr scene group constr = None) →
  setGoalConstraints goal_constraints path_constraints error c = Some (r, error', c') →
  r = false.
Proof.
  intros Hnone Hrun. unfold setGoalConstraints in Hrun.
  bind_inv Hrun gcs Hgcs. destruct gcs as [|kset gcs].
  - by injection Hrun as <- <- <-.
  - injection Hrun as <- <- <-.
    assert (∀ scene group l,
              constructGoal_goals (constraint_sampler_manager_ (spec_ c)) scene group l
              = []) as Hall.
    { intros scene group l. induction l as [|k l IH]; [done|]. simpl.
      destruct (constraint_sampler_manager_ (spec_ c)) as [mgr|] eqn:E; simpl.
      - by rewrite (Hnone mgr).
      - done. }
    unfold constructGoal. simpl (spec_ _). by rewrite Hall.
Qed.

(** The error output is written only when no goal constraint set is left. *)
Lemma setGoalConstraints_error goal_constraints path_constraints error c r error' c' :
  setGoalConstraints goal_constraints path_constraints error c = Some (r, error', c') →
  goal_constraints_ c' ≠ [] → error' = error.
Proof.
  intros Hrun. unfold setGoalConstraints in Hrun.
  bind_inv Hrun gcs Hgcs. destruct gcs as [|kset gcs].
  - injection Hrun as <- <- <-. done.
  - by injection Hrun as <- <- <-.
Qed.

(** C5, amended.  Asked for a sampler of a state space that is not the
    context's own, [allocPathConstrainedSampler] returns a null sampler and
    consults nobody.  For the context's own state space: without path
    constraints it returns the default sampler of the space; with path
    constraints, when the approximation library yields a non-null sampler
    that sampler is returned and the constraint sampler manager is not
    consulted; when the library yields nothing, the manager, if there is
    one, is consulted and a non-null result is wrapped in a
    [ConstrainedSampler]; with no manager or a null result the default
    sampler of the space is returned. *)
Theorem allocPathConstrainedSampler_priority ss c :
  let r := allocPathConstrainedSampler ss c in
  if bool_decide (address <$> state_space_ (spec_ c) = Some ss) then
    match path_constraints_ c with
    | None => r = (Some (DefaultStateSampler ss), [])
    | Some pc =>
        match library_sampler c ss with
        | Some res =>
            r.1 = Some (PrecomputedStateSampler res) ∧
            AskConstraintSamplerManager ∉ r.2
        | None =>
            match constraint_sampler_manager_ (spec_ c) with
            | Some mgr =>
                AskConstraintSamplerManager ∈ r.2 ∧
                r.1 = Some
                  match selectSampler mgr (planning_scene_ c)
                          (group_name (joint_model_group_ (spec_ c)))
                          (getAllConstraints pc) with
                  | Some cs => ConstrainedSampler cs
                  | None => DefaultStateSampler ss
                  end
            | None =>
                r.1 = Some (DefaultStateSampler ss) ∧
                AskConstraintSamplerManager ∉ r.2
            end
        end
    end
  else r = (None, []).
Proof.
  intros r. subst r. unfold allocPathConstrainedSampler.
  assert (AskConstraintSamplerManager ∉
            match constraints_library_ (spec_ c) with
            | Some _ => [AskConstraintsLibrary]
            | None => []
            end) as Hlib.
  { destruct (constraints_library_ (spec_ c)).
    - intros Hin. apply list_elem_of_singleton in Hin. discriminate.
    - apply not_elem_of_nil. }
  case_bool_decide as Hss.
  - rewrite bool_decide_false by (by intros ?).
    destruct (path_constraints_ c) as [pc|]; [|done].
    destruct (library_sampler c ss) as [res|]; [done|].
    destruct (constraint_sampler_manager_ (spec_ c)) as [mgr|]; [|done].
    destruct (selectSampler mgr _ _ _) as [cs|]; simpl.
    + split; [|done]. apply elem_of_app. right. by apply list_elem_of_singleton.
    + split; [|done]. apply elem_of_app. right. by apply list_elem_of_singleton.
  - by rewrite bool_decide_true.
Qed.

(** Without a solution path [interpolateSolution] changes nothing. *)
Lemma interpolateSolution_no_path c :
  solution_paths (ompl_simple_setup_ c) = [] → interpolateSolution c = Some c.
Proof. unfold interpolateSolution. by intros ->. Qed.

End ContextFacts.

(** ** Projection expressions *)

(** An expression is rejected when its first character is none of
    [l i n k ( j o t s], whatever follows. *)
Lemma getProjectionEvaluator_rejects rm jmg ch rest :
  Str.mem ch "link(joints(" = false →
  getProjectionEvaluator rm jmg (String ch rest) = Returns None.
Proof.
  intros Hmem. unfold getProjectionEvaluator.
  assert (Str.find_first_of (String ch rest) "link(" = Some O → False) as H1.
  { simpl. simpl in Hmem.
    repeat (destruct (Ascii.eqb ch _); [discriminate|]).
    destruct (Str.find_first_of rest "link("); discriminate. }
  assert (Str.find_first_of (String ch rest) "joints(" = Some O → False) as H2.
  { simpl. simpl in Hmem.
    repeat (destruct (Ascii.eqb ch _); [discriminate|]).
    destruct (Str.find_first_of rest "joints("); discriminate. }
  rewrite (bool_decide_false _ H1), (bool_decide_false _ H2). done.
Qed.

(** * The properties on the concrete scene *)

Section Runs.
Import Demo.

(** The run of the Follower over the two gates: the first samples 15 and 28
    do not connect, the samples 12 and 23 drawn afterwards do. *)
Lemma follow_exact_solution_path_witness :
  ∃ r,
    Follower.follow true [O] [gate 1; gate 2] 10%nat follow_world = Some r ∧
    Follower.status r = EXACT_SOLUTION ∧
    length (Follower.layers r) = 4%nat ∧
    ∃ path,
      Follower.solution_paths r = [path] ∧
      Follower.solution_path (Follower.layers r) path.
Proof.
  eexists. split; [vm_compute; reflexivity|]. split; [reflexivity|].
  apply (FollowerFacts.follow_exact_solution_path (SI := line_si) (PI := line_pi)
           true [O] [gate 1; gate 2] 10%nat follow_world); reflexivity.
Defined.



(** Without path constraints and asked for a state space that is not its
    own, the context returns a null sampler, not the default one. *)
Lemma allocPathConstrainedSampler_counterexample :
  path_constraints_ context = None ∧
  (allocPathConstrainedSampler 2 context).1 = None ∧
  (allocPathConstrainedSampler 2 context).1 ≠ Some (DefaultStateSampler 2).
Proof. split; [done|]. split; [done|]. discriminate. Qed.

(** Path constraints set on the context of the scene. *)
Lemma setPathConstraints_returns_true_witness :
  planning_scene_ context = Some () ∧
  ∃ c',
    setPathConstraints [3%nat] (Some SUCCESS) context = Some (true, Some SUCCESS, c') ∧
    path_constraints_ c' = Some [3%nat] ∧
    path_constraints_msg_ c' = [3%nat].
Proof.
  split; [reflexivity|].
  apply (setPathConstraints_returns_true (MI := line_moveit) (EN := line_engine)
           [3%nat] (Some SUCCESS) context ()).
  reflexivity.
Defined.

(** C3.  The expression [name(base)] has neither the prefix [link(] nor the
    prefix [joints(], yet [getProjectionEvaluator] returns a projection on
    the pose of the link [base] and [setProjectionEvaluator] installs it:
    [find_first_of] compares the first character with the characters of
    [link(], not the first five characters with the string. *)
Theorem projection_prefix_is_not_checked :
  String.prefix "link(" "name(base)" = false ∧
  String.prefix "joints(" "name(base)" = false ∧
  getProjectionEvaluator robot arm "name(base)"
  = Returns (Some (ProjectionEvaluatorLinkPose "base")) ∧
  setProjectionEvaluator robot arm "name(base)" (Some (mkStateSpace 1 None))
  = Returns (Some (mkStateSpace 1 (Some (ProjectionEvaluatorLinkPose "base")))).
Proof. repeat split; vm_compute; reflexivity. Qed.

(** C4.  One goal constraint set for which the manager has no sampler:
    [setGoalConstraints] answers false and sets a null goal, but the error
    output still holds [SUCCESS], not [INVALID_GOAL_CONSTRAINTS]. *)
Theorem setGoalConstraints_leaves_error_unset :
  (∀ scene group, selectSampler manager scene group [3%nat] = None) ∧
  (λ '(r, error, c'), (r, error, goal_constraints_ c', goal (ompl_simple_setup_ c')))
    <$> setGoalConstraints [[3%nat]] [] (Some SUCCESS) context
  = Some (false, Some SUCCESS, [[3%nat]], None) ∧
  SUCCESS ≠ INVALID_GOAL_CONSTRAINTS.
Proof. split; [done|]. split; [vm_compute; reflexivity|discriminate]. Qed.

(** C6.  Ten runs on four threads with a condition that has fired at the
    first poll: no batch runs, no solution path is stored, and [solve]
    answers true. *)
Theorem solve_answers_true_when_terminated_first :
  ptc_eval (timedPlannerTerminationCondition 0 [1; 1; 1]%nat).1 = (true, O) ∧
  (λ '(r, c', w', evs), (r, batch_sizes evs, solution_paths (ompl_simple_setup_ c')))
    <$> solve 0 10 context [1; 1; 1]%nat
  = Some (true, [], []).
Proof. split; vm_compute; reflexivity. Qed.

End Runs.

(** * The Follower stays within its containers *)

Module FollowerSafety.
Import Follower FollowerFacts FollowerShape.

Lemma at2_is_Some {A} (v : list (list A)) l j :
  is_Some (at2 v l j) ↔ ∃ row, v !! l = Some row ∧ (j < length row)%nat.
Proof.
  split.
  - intros [y Hy]. apply at2_Some in Hy as (row & Hrow & Hj).
    exists row. split; [done|]. by eapply lookup_lt_Some.
  - intros (row & Hrow & Hj). apply lookup_lt_is_Some_2 in Hj as [y Hy].
    exists y. apply at2_Some. eauto.
Qed.

Section Rows.
Context {A B : Type}.
Implicit Types (v t : list (list A)) (s : list (list B)).

Lemma push_back_at_defined i x v :
  (i < length v)%nat → is_Some (push_back_at i x v).
Proof.
  intros Hi. apply lookup_lt_is_Some_2 in Hi as [row Hrow].
  unfold push_back_at. rewrite Hrow. by eexists.
Qed.

Lemma assign2_defined i j x v :
  is_Some (at2 v i j) → is_Some (assign2 i j x v).
Proof.
  intros [y Hy]. apply at2_Some in Hy as (row & Hrow & Hj).
  unfold assign2. rewrite Hrow. simpl. rewrite Hj. by eexists.
Qed.

Lemma assign2_same_rows i j x v v' :
  assign2 i j x v = Some v' → same_rows v v'.
Proof.
  unfold assign2. intros H l.
  destruct (v !! i) as [row|] eqn:E; simplify_eq/=.
  destruct (row !! j) as [z|] eqn:Ej; simplify_eq/=.
  destruct (decide (l = i)) as [->|Hne].
  - rewrite list_lookup_insert_eq by (by eapply lookup_lt_Some).
    rewrite E. simpl. by rewrite length_insert.
  - by rewrite list_lookup_insert_ne.
Qed.

Lemma same_rows_refl v : same_rows v v.
Proof. by intros l. Qed.

Lemma same_rows_trans v1 v2 v3 :
  same_rows v1 v2 → same_rows v2 v3 → same_rows v1 v3.
Proof. intros H1 H2 l. by rewrite H2, H1. Qed.

Lemma same_rows_length v v' : same_rows v v' → length v' = length v.
Proof.
  intros H.
  destruct (decide (length v' = length v)) as [|Hne]; [done|]. exfalso.
  destruct (decide (length v < length v')%nat) as [Hlt|Hge].
  - specialize (H (length v)).
    apply lookup_lt_is_Some_2 in Hlt as [r Hr]. rewrite Hr in H.
    rewrite lookup_ge_None_2 in H by lia. done.
  - specialize (H (length v')).
    assert (length v' < length v)%nat as Hlt by lia.
    apply lookup_lt_is_Some_2 in Hlt as [r Hr]. rewrite Hr in H.
    rewrite lookup_ge_None_2 in H by lia. done.
Qed.

Lemma same_rows_at2 v v' l j :
  same_rows v v' → is_Some (at2 v l j) → is_Some (at2 v' l j).
Proof.
  intros H. rewrite !at2_is_Some. intros (row & Hrow & Hj).
  specialize (H l). rewrite Hrow in H.
  destruct (v' !! l) as [row'|]; simplify_eq/=.
  exists row'. split; [done|]. lia.
Qed.

Lemma rows_match_same s v v' :
  rows_match s v → same_rows v v' → rows_match s v'.
Proof.
  intros Hm Hs l layer Hl. specialize (Hs l). rewrite Hl in Hs.
  destruct (v !! l) as [layer0|] eqn:E; simplify_eq/=.
  destruct (Hm _ _ E) as (row & Hrow & Hlen).
  exists row. split; [done|]. lia.
Qed.

Lemma rows_match_at2 s v l j :
  rows_match s v → (l < length v)%nat → is_Some (at2 s l j) → is_Some (at2 v l j).
Proof.
  intros Hm Hl. rewrite !at2_is_Some. intros (row & Hrow & Hj).
  apply lookup_lt_is_Some_2 in Hl as [layer Hlayer].
  destruct (Hm _ _ Hlayer) as (row' & Hrow' & Hlen). simplify_eq.
  exists layer. split; [done|]. lia.
Qed.

(** A state and its entry are pushed together. *)
Lemma rows_match_push i (x : B) (y : A) s s' v v' :
  rows_match s v → push_back_at i x s = Some s' → push_back_at i y v = Some v' →
  rows_match s' v'.
Proof.
  intros Hm Hs Hv l layer Hl.
  destruct (push_back_at_lookup _ _ _ _ Hs) as (row & Hr & Hr' & Ho).
  destruct (push_back_at_lookup _ _ _ _ Hv) as (lay & Hy & Hy' & Hyo).
  destruct (decide (l = i)) as [->|Hne].
  - rewrite Hy' in Hl. injection Hl as <-.
    destruct (Hm _ _ Hy) as (row0 & Hrow0 & Hlen).
    rewrite Hr in Hrow0. injection Hrow0 as <-.
    exists (row ++ [x]). split; [done|]. rewrite !length_app. simpl. lia.
  - rewrite Hyo in Hl by done. rewrite Ho by done. eauto.
Qed.

(** A state pushed on a layer that has no row in [v]. *)
Lemma rows_match_push_beyond i (x : B) s s' v :
  rows_match s v → push_back_at i x s = Some s' → (length v ≤ i)%nat →
  rows_match s' v.
Proof.
  intros Hm Hs Hi l layer Hl.
  destruct (push_back_at_lookup _ _ _ _ Hs) as (row & Hr & Hr' & Ho).
  assert (l ≠ i) as Hne. { apply lookup_lt_Some in Hl. lia. }
  rewrite Ho by done. eauto.
Qed.

End Rows.

Lemma add_edge_defined i j k c :
  is_Some (at2 c i j) → is_Some (add_edge i j k c).
Proof.
  intros [y Hy]. apply at2_Some in Hy as (row & Hrow & Hj).
  unfold add_edge. rewrite Hrow. simpl. rewrite Hj. by eexists.
Qed.

Lemma add_edge_same_rows i j k c c' :
  add_edge i j k c = Some c' → same_rows c c'.
Proof.
  unfold add_edge. intros H l.
  destruct (c !! i) as [row|] eqn:E; simplify_eq/=.
  destruct (row !! j) as [z|] eqn:Ej; simplify_eq/=.
  destruct (decide (l = i)) as [->|Hne].
  - rewrite list_lookup_insert_eq by (by eapply lookup_lt_Some).
    rewrite E. simpl. by rewrite length_insert.
  - by rewrite list_lookup_insert_ne.
Qed.

Lemma for_each_defined {A} (P : A → Prop) body (xs : list nat) a :
  (∀ ci a, ci ∈ xs → P a → ∃ a', body ci a = Some a' ∧ P a') →
  P a → ∃ a', for_each body xs a = Some a' ∧ P a'.
Proof.
  revert a. induction xs as [|ci xs IH]; intros a Hbody Ha; simpl.
  - eauto.
  - destruct (Hbody ci a) as (a1 & E & Ha1); [by left|done|].
    rewrite E. simpl. apply IH; [|done].
    intros cj b Hin. apply Hbody. by right.
Qed.

Section Safety.
Context {State W : Type} `{SI : SpaceInformation State} `{PI : PlannerInputs State W}.
Implicit Types (s : Sets State) (c : Connections) (is_s : IsStart).
Implicit Types (v : @Vars State W).

(** ** Phase 1 *)

Lemma vetted_push starts n s s' i x :
  vetted starts n s → push_back_at i x s = Some s' →
  (1 ≤ i)%nat → ((i ≤ n)%nat → isValid x = true) →
  vetted starts n s'.
Proof.
  intros [H0 Hv] Hp Hi Hx.
  destruct (push_back_at_lookup _ _ _ _ Hp) as (row & Hr & Hr' & Ho).
  split.
  - rewrite Ho by lia. done.
  - intros l row' y Hl Hrow' Hy.
    destruct (decide (l = i)) as [->|Hne].
    + simplify_eq. apply elem_of_app in Hy as [Hy|Hy]; [by eapply Hv|].
      apply list_elem_of_singleton in Hy as ->. apply Hx. lia.
    + rewrite Ho in Hrow' by done. by eapply Hv.
Qed.

Lemma seed_once_safe starts samplers i v :
  length (sets v) = (length samplers + 2)%nat → (i < length samplers)%nat →
  vetted starts (length samplers) (sets v) →
  ∃ v', seed_once samplers i v = Some v' ∧
        length (sets v') = length (sets v) ∧
        vetted starts (length samplers) (sets v') ∧
        sets_ext (sets v) (sets v').
Proof.
  intros Hlen Hi Hvet. unfold seed_once.
  destruct (lookup_lt_is_Some_2 (sets v) i) as [prev Hprev]; [lia|].
  destruct (lookup_lt_is_Some_2 samplers i) as [smp Hsmp]; [lia|].
  rewrite Hprev, Hsmp. simpl.
  destruct (match last prev with
            | Some back =>
                let '(okp, wa, w) := project smp back (world v) in
                if okp then (true, wa, w) else sample smp wa w
            | None => sample smp (work_area v) (world v)
            end) as [[ok wa] w].
  destruct (ok && isValid wa) eqn:Eok.
  - destruct (push_back_at_defined (S i) wa (sets v)) as [s' Hs']; [lia|].
    simpl. rewrite Hs'. simpl. eexists. split; [done|]. simpl.
    split; [by eapply push_back_at_length|]. split.
    + eapply vetted_push; eauto; [lia|].
      intros _. by apply andb_true_iff in Eok as [_ ?].
    + by eapply sets_ext_push.
  - eexists. split; [done|]. simpl. split; [done|]. split; [done|].
    apply sets_ext_refl.
Qed.

Lemma seed_layer_safe starts samplers i ptc :
  ∀ v,
    length (sets v) = (length samplers + 2)%nat → (i < length samplers)%nat →
    vetted starts (length samplers) (sets v) →
    ∃ ptc' v', seed_layer ptc samplers i v = Some (ptc', v') ∧
               length (sets v') = length (sets v) ∧
               vetted starts (length samplers) (sets v') ∧
               sets_ext (sets v) (sets v') ∧
               (ptc' ≠ O → is_Some (at2 (sets v') (S i) O)).
Proof.
  induction ptc as [|p IH]; intros v Hlen Hi Hvet; simpl.
  - destruct (lookup_lt_is_Some_2 (sets v) (S i)) as [layer Hlayer]; [lia|].
    rewrite Hlayer. simpl.
    exists O, v. split; [by destruct layer|].
    split; [done|]. split; [done|]. split; [apply sets_ext_refl|done].
  - destruct (lookup_lt_is_Some_2 (sets v) (S i)) as [layer Hlayer]; [lia|].
    rewrite Hlayer. simpl. destruct layer as [|x layer].
    + destruct (seed_once_safe starts samplers i v) as (v1 & Hv1 & Hl1 & Hvet1 & Hext1);
        [done..|].
      rewrite Hv1. simpl.
      destruct (IH v1) as (ptc' & v' & Hrun & Hl' & Hvet' & Hext' & Hne);
        [congruence|done..|].
      exists ptc', v'. split; [done|]. split; [congruence|]. split; [done|].
      split; [|done]. intros l j y Hy. eauto.
    + exists (S p), v. split; [done|]. split; [done|]. split; [done|].
      split; [apply sets_ext_refl|]. intros _. exists x.
      apply at2_Some. eauto.
Qed.

Lemma seed_layers_safe starts samplers k :
  ∀ i ptc v,
    (i + k = length samplers)%nat →
    length (sets v) = (length samplers + 2)%nat →
    vetted starts (length samplers) (sets v) →
    (ptc ≠ O → ∀ l, (l ≤ i)%nat → is_Some (at2 (sets v) l O)) →
    ∃ ptc' v', seed_layers k i ptc samplers v = Some (ptc', v') ∧
               length (sets v') = length (sets v) ∧
               vetted starts (length samplers) (sets v') ∧
               (ptc' ≠ O → ∀ l, (l ≤ length samplers)%nat → is_Some (at2 (sets v') l O)).
Proof.
  induction k as [|k IH]; intros i ptc v Hik Hlen Hvet Hpop; simpl.
  - exists ptc, v. split; [done|]. split; [done|]. split; [done|].
    intros Hne l Hl. apply Hpop; [done|lia].
  - destruct ptc as [|p].
    { exists O, v. split; [done|]. split; [done|]. split; done. }
    destruct (seed_layer_safe starts samplers i p v)
      as (p1 & v1 & Hrun1 & Hl1 & Hvet1 & Hext1 & Hne1); [done|lia|done|].
    rewrite Hrun1. simpl.
    destruct (IH (S i) p1 v1) as (ptc' & v' & Hrun & Hl' & Hvet' & Hne');
      [lia|congruence|done| |].
    { intros Hp1 l Hl. destruct (decide (l = S i)) as [->|Hn].
      - by apply Hne1.
      - destruct (Hpop ltac:(done) l) as [y Hy]; [lia|]. exists y. by apply Hext1. }
    exists ptc', v'. split; [done|]. split; [congruence|]. done.
Qed.

(** ** Phase 3 *)

Lemma first_samples_safe s k :
  ∀ i c worked,
    (i + k = length c)%nat →
    (∀ l, (l ≤ i + k)%nat → is_Some (at2 s l O)) →
    (∀ l layer, (l < i)%nat → c !! l = Some layer →
       ∃ row, s !! l = Some row ∧ length layer = length row) →
    ∃ c' worked', first_samples k i s c worked = Some (c', worked') ∧
                  rows_match s c'.
Proof.
  induction k as [|k IH]; intros i c worked Hik Hpop Hrows; simpl.
  - exists c, worked. split; [done|]. intros l layer Hl.
    apply Hrows; [|done]. apply lookup_lt_Some in Hl. lia.
  - destruct (Hpop i) as [a Ha]; [lia|].
    destruct (Hpop (S i)) as [b Hb]; [lia|].
    pose proof Ha as Ha'. apply at2_Some in Ha' as (si & Hsi & Hsi0).
    destruct (lookup_lt_is_Some_2 c i) as [layer Hlayer]; [lia|].
    rewrite Hsi, Hlayer. simpl. rewrite Ha, Hb. simpl.
    set (c1 := <[i := resize (length si) [] layer]> c).
    assert (c1 !! i = Some (resize (length si) [] layer)) as Hc1i.
    { apply list_lookup_insert_eq. by eapply lookup_lt_Some. }
    assert (∀ l layer', (l < S i)%nat → c1 !! l = Some layer' →
              ∃ row, s !! l = Some row ∧ length layer' = length row) as Hrows1.
    { intros l layer' Hl Hl'. destruct (decide (l = i)) as [->|Hne].
      - rewrite Hc1i in Hl'. injection Hl' as <-.
        exists si. split; [done|]. by rewrite length_resize.
      - unfold c1 in Hl'. rewrite list_lookup_insert_ne in Hl' by done.
        apply (Hrows l); [lia|done]. }
    assert (length c1 = length c) as Hlc1 by apply length_insert.
    destruct (checkMotion a b).
    + destruct (add_edge_defined i O O c1) as [c2 Hc2].
      { apply at2_is_Some. eexists. split; [done|].
        rewrite length_resize. by eapply lookup_lt_Some. }
      rewrite Hc2. simpl.
      apply IH.
      * rewrite (add_edge_length _ _ _ _ _ Hc2). lia.
      * intros l Hl. apply Hpop. lia.
      * intros l layer' Hl Hl'.
        pose proof (add_edge_same_rows _ _ _ _ _ Hc2 l) as Hsame.
        rewrite Hl' in Hsame.
        destruct (c1 !! l) as [layer1|] eqn:E1; simplify_eq/=.
        destruct (Hrows1 _ _ Hl E1) as (row & Hrow & Hlen).
        exists row. split; [done|]. lia.
    + apply IH; [lia| |done].
      intros l Hl. apply Hpop. lia.
Qed.

(** ** The search for the path *)

Lemma first_found_defined {A} body found (xs : list nat) (a : A) :
  (∀ ci a, ci ∈ xs → is_Some (body ci a)) →
  (∀ a, is_Some (found a)) →
  is_Some (first_found body found xs a).
Proof.
  revert a. induction xs as [|ci xs IH]; intros a Hbody Hfound; simpl.
  - by eexists.
  - destruct (Hbody ci a) as [[b a1] E]; [by left|].
    rewrite E. simpl. destruct b.
    + destruct (Hfound a1) as [a2 E2]. rewrite E2. by eexists.
    + apply IH; [|done]. intros cj a' Hin. apply Hbody. by right.
Qed.

Lemma shape_lookup s c l layer j :
  rows_match s c → c !! l = Some layer → is_Some (at2 s l j) →
  is_Some (layer !! j).
Proof.
  intros Hm Hl Hj. apply at2_is_Some in Hj as (row & Hrow & Hlt).
  destruct (Hm _ _ Hl) as (row' & Hrow' & Hlen). simplify_eq.
  apply lookup_lt_is_Some_2. lia.
Qed.

Lemma find_from_defined s c rest :
  ∀ l j path,
    rest = drop l c → edges_ok s c → rows_match s c →
    is_Some (at2 s l j) → is_Some (find_from rest l j s path).
Proof.
  induction rest as [|layer rest IH]; intros l j path Hd Hok Hm [x Hx]; simpl.
  - rewrite Hx. by eexists.
  - symmetry in Hd. apply drop_cons_inv in Hd as [Hl Hd].
    destruct (shape_lookup s c l layer j) as [out Hout]; [done..|by eexists|].
    rewrite Hout. simpl.
    apply first_found_defined.
    + intros ci path' Hci. apply IH; [done..|].
      assert (at2 c l j = Some out) as Hedge by (apply at2_Some; eauto).
      destruct (Hok _ _ _ _ Hedge Hci) as (a & b & _ & Hb & _). by eexists.
    + intros path'. rewrite Hx. by eexists.
Qed.

Lemma computeSolution_loop_defined s c k :
  ∀ i pg,
    edges_ok s c → rows_match s c →
    (∀ i', (i ≤ i' < i + k)%nat → is_Some (at2 s O i')) →
    is_Some (computeSolution_loop k i s c pg).
Proof.
  induction k as [|k IH]; intros i pg Hok Hm Hstarts; simpl.
  - by eexists.
  - unfold findSolutionPath. rewrite decide_True by lia. rewrite drop_0.
    destruct (find_from_defined s c c O i pg) as [[found pg1] E];
      [by rewrite drop_0|done..|apply Hstarts; lia|].
    rewrite E. simpl. destruct found; [by eexists|].
    apply IH; [done..|]. intros i' Hi'. apply Hstarts. lia.
Qed.

Lemma computeSolution_defined s c :
  edges_ok s c → rows_match s c → (0 < length s)%nat →
  is_Some (computeSolution s c).
Proof.
  intros Hok Hm Hs. unfold computeSolution.
  apply lookup_lt_is_Some_2 in Hs as [starts Hstarts]. rewrite Hstarts. simpl.
  destruct (computeSolution_loop_defined s c (length starts) O []) as [[found pg] E];
    [done..| |].
  { intros i' Hi'. apply at2_is_Some. exists starts. split; [done|lia]. }
  rewrite E. by eexists.
Qed.

(** ** Phase 4, before the loop *)

Lemma more_start_connections_safe s k :
  ∀ i c,
    rows_match s c →
    (∀ i', (i ≤ i' < i + k)%nat → is_Some (at2 s O i')) →
    is_Some (at2 s 1%nat O) → (0 < length c)%nat →
    ∃ c', more_start_connections k i s c = Some c' ∧ rows_match s c'.
Proof.
  induction k as [|k IH]; intros i c Hm Hstarts Hfirst Hc; simpl.
  - eauto.
  - destruct (Hstarts i) as [a Ha]; [lia|].
    destruct Hfirst as [b Hb]. rewrite Ha, Hb. simpl.
    destruct (checkMotion a b).
    + destruct (add_edge_defined O i O c) as [c1 Hc1].
      { apply rows_match_at2 with (s := s); [done..|by eexists]. }
      rewrite Hc1. simpl. apply IH.
      * eapply rows_match_same; eauto using add_edge_same_rows.
      * intros i' Hi'. apply Hstarts. lia.
      * by eexists.
      * by rewrite (add_edge_length _ _ _ _ _ Hc1).
    + simpl. apply IH; [done| |by eexists|done].
      intros i' Hi'. apply Hstarts. lia.
Qed.

Lemma init_is_start_safe s :
  (0 < length s)%nat →
  ∃ is_s, init_is_start s = Some is_s ∧ length is_s = length s ∧ rows_match s is_s.
Proof.
  destruct s as [|s0 rest]; simpl; [lia|]. intros _.
  eexists. split; [done|]. split.
  - simpl. by rewrite length_fmap.
  - intros [|l] layer Hl; simpl in *.
    + injection Hl as <-. exists s0. by rewrite length_replicate.
    + apply list_lookup_fmap_Some in Hl as (si & -> & Hsi).
      exists si. by rewrite length_replicate.
Qed.

(** The marks [propagateStartInfo] writes are within [is_start]. *)
Lemma propagate_from_safe s c rest :
  ∀ l j is_s,
    rest = drop l c → edges_ok s c → rows_match s c →
    length s = S (length c) →
    rows_match s is_s → length is_s = length s →
    is_Some (at2 s l j) →
    ∃ is_s', propagate_from rest l j is_s = Some is_s' ∧ same_rows is_s is_s'.
Proof.
  induction rest as [|layer rest IH]; intros l j is_s Hd Hok Hm Hlen Hms Hlis Hj; simpl.
  - eauto using same_rows_refl.
  - symmetry in Hd. apply drop_cons_inv in Hd as [Hl Hd].
    destruct (shape_lookup s c l layer j) as [out Hout]; [done..|].
    rewrite Hout. simpl.
    assert (at2 c l j = Some out) as Hedge by (apply at2_Some; eauto).
    destruct (for_each_defined (λ a, same_rows is_s a)
                (λ ci is_s0,
                   is_s1 ← assign2 (S l) ci 1 is_s0;
                   propagate_from rest (S l) ci is_s1) out is_s)
      as (is_s' & Hrun & Hsame); [|apply same_rows_refl|by eauto].
    intros ci a Hci Ha.
    destruct (Hok _ _ _ _ Hedge Hci) as (x & y & _ & Hy & _).
    assert (rows_match s a) as Hma by (eapply rows_match_same; eauto).
    assert (length a = length s) as Hla.
    { rewrite (same_rows_length _ _ Ha). done. }
    destruct (assign2_defined (S l) ci 1 a) as [a1 Ha1].
    { apply rows_match_at2 with (s := s); [done| |by eexists].
      apply lookup_lt_Some in Hl. lia. }
    rewrite Ha1. simpl.
    pose proof (assign2_same_rows _ _ _ _ _ Ha1) as Hs1.
    destruct (IH (S l) ci a1) as (a2 & Ha2 & Hs2); [done..| | |by eexists|].
    { eapply rows_match_same; eauto. }
    { rewrite (same_rows_length _ _ Hs1). done. }
    exists a2. split; [done|].
    eauto using same_rows_trans.
Qed.

Lemma propagateStartInfo_safe s c l j is_s :
  edges_ok s c → rows_match s c → length s = S (length c) →
  rows_match s is_s → length is_s = length s →
  is_Some (at2 s l j) →
  ∃ is_s', propagateStartInfo l j is_s c = Some is_s' ∧ same_rows is_s is_s'.
Proof. intros. by eapply propagate_from_safe. Qed.

Lemma propagate_starts_safe s c k :
  ∀ i is_s,
    edges_ok s c → rows_match s c → length s = S (length c) →
    rows_match s is_s → length is_s = length s →
    (∀ i', (i ≤ i' < i + k)%nat → is_Some (at2 s O i')) →
    ∃ is_s', propagate_starts k i is_s c = Some is_s' ∧ same_rows is_s is_s'.
Proof.
  induction k as [|k IH]; intros i is_s Hok Hm Hlen Hms Hlis Hstarts; simpl.
  - eauto using same_rows_refl.
  - destruct (propagateStartInfo_safe s c O i is_s) as (is1 & His1 & Hs1);
      [done..|apply Hstarts; lia|].
    rewrite His1. simpl.
    destruct (IH (S i) is1) as (is2 & His2 & Hs2); [done..| | | |].
    { eapply rows_match_same; eauto. }
    { rewrite (same_rows_length _ _ Hs1). done. }
    { intros i' Hi'. apply Hstarts. lia. }
    exists is2. split; [done|]. eauto using same_rows_trans.
Qed.

(** ** Phase 4, the loop *)

Lemma Safe_same starts n v v' :
  Safe starts n v → sets v' = sets v →
  same_rows (connections v) (connections v') →
  same_rows (is_start v) (is_start v') →
  Safe starts n v'.
Proof.
  intros [Hl Hp Hr Hml Hm Hv] Hs Hc His. split; rewrite ?Hs; try done.
  - eapply rows_match_same; eauto.
  - rewrite (same_rows_length _ _ His). done.
  - eapply rows_match_same; eauto.
Qed.

Lemma Safe_last starts n v index :
  Safe starts n v → (index < n + 2)%nat →
  ∃ cur back, sets v !! index = Some cur ∧ last cur = Some back ∧
              at2 (sets v) index (pred (length cur)) = Some back.
Proof.
  intros HS Hi. destruct (safe_populated _ _ _ HS index) as [x Hx].
  { rewrite (safe_len _ _ _ HS). lia. }
  apply at2_Some in Hx as (cur & Hcur & Hx).
  destruct (last cur) as [back|] eqn:Hback.
  - exists cur, back. split; [done|]. split; [done|]. by apply at2_last.
  - apply last_None in Hback. by subst cur.
Qed.

Lemma connect_prev_unfold k i index aei v :
  connect_prev (S k) i index aei v
  = v1 ← connect_prev 1 i index aei v; connect_prev k (S i) index aei v1.
Proof.
  simpl. destruct (at2 (sets v) (index - 1) i) as [p|]; [|done]. simpl.
  destruct (sets v !! index) as [cur|]; [|done]. simpl.
  destruct (last cur) as [back|]; [|done]. simpl.
  by destruct (if checkMotion p back then _ else _).
Qed.

Lemma connect_next_unfold k i index aei v :
  connect_next (S k) i index aei v
  = v1 ← connect_next 1 i index aei v; connect_next k (S i) index aei v1.
Proof.
  simpl. destruct (sets v !! index) as [cur|]; [|done]. simpl.
  destruct (last cur) as [back|]; [|done]. simpl.
  destruct (at2 (sets v) (S index) i) as [p|]; [|done]. simpl.
  by destruct (if checkMotion back p then _ else _).
Qed.

Lemma connect_prev_step starts n i index v :
  (1 ≤ index ≤ n + 1)%nat → Inv v → Safe starts n v →
  is_Some (at2 (sets v) (index - 1) i) →
  ∀ cur, sets v !! index = Some cur →
  ∃ v1, connect_prev 1 i index (pred (length cur)) v = Some v1 ∧ Safe starts n v1.
Proof.
  intros Hidx HI HS [p Hp] cur Hcur. simpl.
  destruct (Safe_last starts n v index HS) as (cur' & back & Hcur' & Hback & Hb); [lia|].
  simplify_eq. rewrite Hp. simpl. rewrite Hcur. simpl. rewrite Hback. simpl.
  pose proof (inv_len _ HI) as Hlen. pose proof (safe_len _ _ _ HS) as Hn.
  destruct (checkMotion p back) eqn:Hm; [|simpl; eauto].
  destruct (add_edge_defined (index - 1) i (pred (length cur)) (connections v))
    as [c' Hc'].
  { apply rows_match_at2 with (s := sets v); [by apply (safe_rows _ _ _ HS)|lia|by eexists]. }
  rewrite Hc'. simpl.
  pose proof (add_edge_same_rows _ _ _ _ _ Hc') as Hsame.
  destruct (rows_match_at2 (sets v) (is_start v) (index - 1) i) as [flag Hflag];
    [by apply (safe_marks _ _ _ HS)|rewrite (safe_marks_len _ _ _ HS); lia|by eexists|].
  rewrite Hflag. simpl.
  case_bool_decide.
  - destruct (assign2_defined index (pred (length cur)) 1 (is_start v)) as [is1 His1].
    { apply rows_match_at2 with (s := sets v);
        [by apply (safe_marks _ _ _ HS)|rewrite (safe_marks_len _ _ _ HS); lia|by eexists]. }
    rewrite His1. simpl.
    pose proof (assign2_same_rows _ _ _ _ _ His1) as Hs1.
    destruct (propagateStartInfo_safe (sets v) c' index (pred (length cur)) is1)
      as (is2 & His2 & Hs2).
    + eapply edges_ok_add_edge; eauto using inv_edges.
      by replace (S (index - 1)) with index by lia.
    + eapply rows_match_same; eauto. by apply (safe_rows _ _ _ HS).
    + by rewrite (add_edge_length _ _ _ _ _ Hc').
    + eapply rows_match_same; eauto. by apply (safe_marks _ _ _ HS).
    + rewrite (same_rows_length _ _ Hs1). by apply (safe_marks_len _ _ _ HS).
    + by eexists.
    + rewrite His2. simpl. eexists. split; [done|].
      eapply Safe_same; eauto using same_rows_trans.
  - eexists. split; [done|].
    eapply Safe_same; eauto using same_rows_refl.
Qed.

Lemma connect_prev_safe starts n k :
  ∀ i index v cur,
    (1 ≤ index ≤ n + 1)%nat → Inv v → Safe starts n v →
    sets v !! index = Some cur →
    (∀ i', (i ≤ i' < i + k)%nat → is_Some (at2 (sets v) (index - 1) i')) →
    ∃ v', connect_prev k i index (pred (length cur)) v = Some v' ∧ Safe starts n v'.
Proof.
  induction k as [|k IH]; intros i index v cur Hidx HI HS Hcur Hprev.
  - simpl. eauto.
  - rewrite connect_prev_unfold.
    destruct (connect_prev_step starts n i index v Hidx HI HS) with (cur := cur)
      as (v1 & Hv1 & HS1); [apply Hprev; lia|done|].
    rewrite Hv1. simpl.
    apply connect_prev_inv in Hv1 as [HI1 Hs1]; [|lia|done|].
    2:{ intros cur' ?. by simplify_eq. }
    apply IH; [done..|by rewrite Hs1|].
    intros i' Hi'. rewrite Hs1. apply Hprev. lia.
Qed.

Lemma connect_next_step starts n i index v :
  (index ≤ n)%nat → Inv v → Safe starts n v →
  is_Some (at2 (sets v) (S index) i) →
  ∀ cur, sets v !! index = Some cur →
  ∃ v1, connect_next 1 i index (pred (length cur)) v = Some v1 ∧ Safe starts n v1.
Proof.
  intros Hidx HI HS [nx Hnx] cur Hcur. simpl.
  destruct (Safe_last starts n v index HS) as (cur' & back & Hcur' & Hback & Hb); [lia|].
  simplify_eq. rewrite Hcur. simpl. rewrite Hback. simpl. rewrite Hnx. simpl.
  pose proof (inv_len _ HI) as Hlen. pose proof (safe_len _ _ _ HS) as Hn.
  destruct (checkMotion back nx) eqn:Hm; [|simpl; eauto].
  destruct (add_edge_defined index (pred (length cur)) i (connections v))
    as [c' Hc'].
  { apply rows_match_at2 with (s := sets v); [by apply (safe_rows _ _ _ HS)|lia|by eexists]. }
  rewrite Hc'. simpl.
  pose proof (add_edge_same_rows _ _ _ _ _ Hc') as Hsame.
  destruct (rows_match_at2 (sets v) (is_start v) index (pred (length cur))) as [f1 Hf1];
    [by apply (safe_marks _ _ _ HS)|rewrite (safe_marks_len _ _ _ HS); lia|by eexists|].
  destruct (rows_match_at2 (sets v) (is_start v) (S index) i) as [f2 Hf2];
    [by apply (safe_marks _ _ _ HS)|rewrite (safe_marks_len _ _ _ HS); lia|by eexists|].
  rewrite Hf1. simpl. rewrite Hf2. simpl.
  destruct (bool_decide (f1 = 1) && bool_decide (f2 = 0)).
  - destruct (assign2_defined (S index) i 1 (is_start v)) as [is1 His1]; [by eexists|].
    rewrite His1. simpl.
    pose proof (assign2_same_rows _ _ _ _ _ His1) as Hs1.
    destruct (propagateStartInfo_safe (sets v) c' (S index) i is1)
      as (is2 & His2 & Hs2).
    + eapply edges_ok_add_edge; eauto using inv_edges.
    + eapply rows_match_same; eauto. by apply (safe_rows _ _ _ HS).
    + by rewrite (add_edge_length _ _ _ _ _ Hc').
    + eapply rows_match_same; eauto. by apply (safe_marks _ _ _ HS).
    + rewrite (same_rows_length _ _ Hs1). by apply (safe_marks_len _ _ _ HS).
    + by eexists.
    + rewrite His2. simpl. eexists. split; [done|].
      eapply Safe_same; eauto using same_rows_trans.
  - eexists. split; [done|].
    eapply Safe_same; eauto using same_rows_refl.
Qed.

Lemma connect_next_safe starts n k :
  ∀ i index v cur,
    (index ≤ n)%nat → Inv v → Safe starts n v →
    sets v !! index = Some cur →
    (∀ i', (i ≤ i' < i + k)%nat → is_Some (at2 (sets v) (S index) i')) →
    ∃ v', connect_next k i index (pred (length cur)) v = Some v' ∧ Safe starts n v'.
Proof.
  induction k as [|k IH]; intros i index v cur Hidx HI HS Hcur Hnext.
  - simpl. eauto.
  - rewrite connect_next_unfold.
    destruct (connect_next_step starts n i index v Hidx HI HS) with (cur := cur)
      as (v1 & Hv1 & HS1); [apply Hnext; lia|done|].
    rewrite Hv1. simpl.
    apply connect_next_inv in Hv1 as [HI1 Hs1]; [|done|].
    2:{ intros cur' ?. by simplify_eq. }
    apply IH; [done..|by rewrite Hs1|].
    intros i' Hi'. rewrite Hs1. apply Hnext. lia.
Qed.

Lemma populated_ext s s' :
  populated s → sets_ext s s' → length s' = length s → populated s'.
Proof.
  intros Hp Hext Hlen l Hl. destruct (Hp l) as [x Hx]; [lia|].
  exists x. by apply Hext.
Qed.

Lemma draw_state_safe starts samplers index to_goal ag w v :
  Safe starts (length samplers) v → Inv v →
  (1 ≤ index ≤ length samplers + 1)%nat →
  (to_goal = false → (index ≤ length samplers)%nat) →
  ∃ v1 ag1 added,
    draw_state samplers (length (sets v) - 1) index to_goal ag w v
    = Some (v1, ag1, added) ∧
    Safe starts (length samplers) v1.
Proof.
  intros HS HI Hidx Hto. unfold draw_state.
  pose proof (inv_len _ HI) as Hlen. pose proof (safe_len _ _ _ HS) as Hn.
  pose proof (safe_marks_len _ _ _ HS) as Hml.
  destruct HS as [_ Hpop Hrows _ Hmarks Hvet].
  destruct to_goal.
  - destruct (nextGoal w) as [[g|] w1].
    + destruct (push_back_at_defined (length (sets v) - 1) g (sets v)) as [s' Hs']; [lia|].
      destruct (push_back_at_defined (length (sets v) - 1) 0 (is_start v)) as [is' His'];
        [lia|].
      rewrite Hs'. simpl. rewrite His'. simpl.
      do 3 eexists. split; [done|].
      pose proof (push_back_at_length _ _ _ _ Hs') as Hls.
      pose proof (push_back_at_length _ _ _ _ His') as Hli.
      split; simpl.
      * congruence.
      * eapply populated_ext; eauto using sets_ext_push.
      * eapply rows_match_push_beyond; eauto. lia.
      * congruence.
      * eapply rows_match_push; eauto.
      * eapply vetted_push; eauto; lia.
    + do 3 eexists. split; [done|]. by split.
  - specialize (Hto eq_refl).
    destruct (lookup_lt_is_Some_2 samplers (index - 1)) as [smp Hsmp]; [lia|].
    rewrite Hsmp. simpl.
    destruct (sample smp (work_area v) w) as [[ok wa] w1].
    destruct (ok && isValid wa) eqn:Eok.
    + destruct (push_back_at_defined index wa (sets v)) as [s' Hs']; [lia|].
      destruct (push_back_at_defined index [] (connections v)) as [c' Hc']; [lia|].
      destruct (push_back_at_defined index 0 (is_start v)) as [is' His']; [lia|].
      rewrite Hs'. simpl. rewrite Hc'. simpl. rewrite His'. simpl.
      do 3 eexists. split; [done|].
      pose proof (push_back_at_length _ _ _ _ Hs') as Hls.
      pose proof (push_back_at_length _ _ _ _ His') as Hli.
      split; simpl.
      * congruence.
      * eapply populated_ext; eauto using sets_ext_push.
      * eapply rows_match_push; eauto.
      * congruence.
      * eapply rows_match_push; eauto.
      * eapply vetted_push; eauto; [lia|].
        intros _. by apply andb_true_iff in Eok as [_ ?].
    + do 3 eexists. split; [done|]. by split.
Qed.

Lemma connect_added_safe starts n index v :
  Safe starts n v → Inv v → (1 ≤ index ≤ n + 1)%nat →
  ∃ v' solved, connect_added (n + 1) index v = Some (v', solved) ∧ Safe starts n v'.
Proof.
  intros HS HI Hidx. unfold connect_added.
  pose proof (safe_len _ _ _ HS) as Hn.
  destruct (lookup_lt_is_Some_2 (sets v) (index - 1)) as [prev Hprev]; [lia|].
  destruct (lookup_lt_is_Some_2 (sets v) index) as [cur Hcur]; [lia|].
  rewrite Hprev, Hcur. simpl.
  replace (length cur - 1)%nat with (pred (length cur)) by lia.
  destruct (connect_prev_safe starts n (length prev) O index v cur) as (v2 & Hv2 & HS2);
    [done..| |].
  { intros i' Hi'. apply at2_is_Some. exists prev. split; [done|lia]. }
  rewrite Hv2. simpl.
  apply connect_prev_inv in Hv2 as [HI2 Hs2]; [|lia|done|].
  2:{ intros cur' ?. by simplify_eq. }
  assert (∃ v3, (if bool_decide (index < n + 1)%nat
                 then next ← sets v2 !! S index;
                      connect_next (length next) O index (pred (length cur)) v2
                 else Some v2) = Some v3 ∧ Safe starts n v3) as (v3 & Hv3 & HS3).
  { case_bool_decide; [|eauto].
    destruct (lookup_lt_is_Some_2 (sets v2) (S index)) as [next Hnext].
    { rewrite Hs2. lia. }
    rewrite Hnext. simpl.
    apply connect_next_safe; [lia|done..|by rewrite Hs2|].
    intros i' Hi'. apply at2_is_Some. exists next. split; [done|lia]. }
  rewrite Hv3. simpl.
  destruct (lookup_lt_is_Some_2 (is_start v3) (n + 1)) as [flags Hflags].
  { rewrite (safe_marks_len _ _ _ HS3), (safe_len _ _ _ HS3). lia. }
  rewrite Hflags. simpl. eauto.
Qed.

Lemma expand_once_safe starts samplers ag v :
  Safe starts (length samplers) v → Inv v →
  ∃ v' ag' solved,
    expand_once samplers ag v = Some (v', ag', solved) ∧
    Safe starts (length samplers) v'.
Proof.
  intros HS HI. unfold expand_once.
  pose proof (safe_len _ _ _ HS) as Hn.
  destruct (pdf_sets_sample (sets v) (world v)) as [oindex w] eqn:Epdf.
  assert (is_Some oindex) as [index ->].
  { unfold pdf_sets_sample in Epdf.
    destruct (pdf_sample (length <$> sets v) (world v)) as [r w1].
    injection Epdf as <- _. apply lookup_lt_is_Some_2.
    unfold pdf_sets. rewrite length_seq. apply Nat.mod_upper_bound. lia. }
  simpl. pose proof (pdf_sets_sample_range _ _ _ _ Epdf) as Hidx.
  destruct (if bool_decide (index = (length (sets v) - 1)%nat) then (true, w)
            else if ag then goal_bias_draw w else (false, w)) as [to_goal w1] eqn:Eto.
  destruct (draw_state_safe starts samplers index to_goal ag w1 v)
    as (v1 & ag1 & added & Hv1 & HS1); [done..|lia| |].
  { intros ->. case_bool_decide as Hi; [by simplify_eq|]. lia. }
  rewrite Hv1. simpl.
  destruct added; [|eauto].
  apply draw_state_inv in Hv1 as [HI1 Hl1]; [|done].
  destruct (connect_added_safe starts (length samplers) index v1)
    as (v3 & solved & Hv3 & HS3); [done..|lia|].
  replace (length (sets v) - 1)%nat with (length samplers + 1)%nat by lia.
  rewrite Hv3. simpl. eauto.
Qed.

Lemma expand_safe starts samplers ptc :
  ∀ ag solved v,
    Safe starts (length samplers) v → Inv v →
    ∃ v' solved',
      expand ptc samplers ag solved v = Some (v', solved') ∧
      Safe starts (length samplers) v'.
Proof.
  induction ptc as [|p IH]; intros ag solved v HS HI; simpl.
  - eauto.
  - destruct solved; [eauto|].
    destruct (expand_once_safe starts samplers ag v) as (v1 & ag1 & solved1 & Hv1 & HS1);
      [done..|].
    rewrite Hv1. simpl.
    apply expand_once_inv in Hv1 as (HI1 & _ & _); [|done].
    by apply IH.
Qed.

(** ** Follower::follow as a whole

    The call returns; its layers are the start states followed by layers of
    valid states; the status tells what happened, and a path is recorded
    exactly when the status is [EXACT_SOLUTION]. *)
Lemma follow_outcome gs starts samplers ptc w :
  ∃ r, follow gs starts samplers ptc w = Some r ∧
       (gs = true →
        length (layers r) = (length samplers + 2)%nat ∧
        vetted starts (length samplers) (layers r)) ∧
       match status r with
       | EXACT_SOLUTION =>
           gs = true ∧ starts ≠ [] ∧
           ∃ path, solution_paths r = [path] ∧ solution_path (layers r) path
       | UNRECOGNIZED_GOAL_TYPE => gs = false ∧ solution_paths r = []
       | INVALID_START => gs = true ∧ starts = [] ∧ solution_paths r = []
       | TIMEOUT | INVALID_GOAL => gs = true ∧ starts ≠ [] ∧ solution_paths r = []
       | _ => False
       end.
Proof.
  unfold follow. destruct gs; simpl; [|eexists; split; [done|]; split; done].
  set (n := length samplers).
  set (sets0 := <[O := starts]> (replicate (n + 2) [])).
  assert (length sets0 = (n + 2)%nat) as Hl0.
  { unfold sets0. by rewrite length_insert, length_replicate. }
  assert (vetted starts n sets0) as Hvet0.
  { split.
    - unfold sets0. apply list_lookup_insert_eq. rewrite length_replicate. lia.
    - intros l row x Hl Hrow Hx. unfold sets0 in Hrow.
      rewrite list_lookup_insert_ne in Hrow by lia.
      apply lookup_replicate in Hrow as [-> _]. by apply elem_of_nil in Hx. }
  destruct starts as [|x0 starts].
  { eexists. split; [done|]. simpl. by split. }
  set (v0 := mkVars sets0 [] [] allocState w).
  destruct (seed_layers_safe (x0 :: starts) samplers n O ptc v0)
    as (ptc1 & v1 & Hr1 & Hl1 & Hvet1 & Hpop1); [done..| |].
  { intros _ l Hl. assert (l = O) as -> by lia. exists x0.
    apply at2_Some. exists (x0 :: starts). by destruct Hvet0. }
  fold n. rewrite Hr1. simpl. simpl in Hl1.
  destruct ptc1 as [|ptc2].
  { eexists. split; [done|]. simpl. split; [|done]. intros _. split; [lia|done]. }
  specialize (Hpop1 ltac:(done)).
  destruct (nextGoal (world v1)) as [[g|] w2].
  2:{ eexists. split; [done|]. simpl. split; [|done]. intros _. split; [lia|done]. }
  destruct (push_back_at_defined (length (sets v1) - 1) g (sets v1)) as [s2 Hs2]; [lia|].
  rewrite Hs2. simpl.
  pose proof (push_back_at_length _ _ _ _ Hs2) as Hl2.
  assert (vetted (x0 :: starts) n s2) as Hvet2.
  { eapply vetted_push; eauto; lia. }
  assert (populated s2) as Hpop2.
  { intros l Hl. destruct (decide (l = length (sets v1) - 1)%nat) as [->|Hne].
    - destruct (push_back_at_lookup _ _ _ _ Hs2) as (row & _ & Hrow' & _).
      apply at2_is_Some. eexists. split; [done|]. rewrite length_app. simpl. lia.
    - destruct (Hpop1 l) as [y Hy]; [lia|]. exists y.
      by eapply push_back_at_ext. }
  set (c0 := replicate (length s2 - 1) []) in *.
  assert (length c0 = (length s2 - 1)%nat) as Hlc0 by apply length_replicate.
  assert (edges_ok s2 c0) as Hok0.
  { intros l j out k Hout Hk. apply at2_Some in Hout as (row & Hrow & Hj).
    apply lookup_replicate in Hrow as [-> _]. done. }
  destruct (first_samples_safe s2 (length c0) O c0 true) as (c1 & worked & Hr3 & Hrows1);
    [done| |intros; lia|].
  { intros l Hl. apply Hpop2. lia. }
  rewrite Hr3. simpl.
  destruct (first_samples_spec _ _ _ _ _ _ _ Hok0 Hr3)
    as (Hlc1 & Hok1 & _ & Hfirst & Hall).
  assert (length s2 = S (length c1)) as Hlen1 by lia.
  destruct worked.
  - destruct (computeSolution_defined s2 c1) as [sol Hsol]; [done..|lia|].
    rewrite Hsol. simpl. eexists. split; [done|]. simpl.
    split; [intros _; split; [lia|done]|].
    split; [done|]. split; [done|].
    eapply computeSolution_found in Hsol as (path & -> & Hpath); eauto.
    + apply Hfirst. lia.
    + apply all_first_to_goal. intros l Hl. apply Hall; [done|lia].
  - pose proof Hvet2 as [Hstarts2 Hvalid2].
    rewrite Hstarts2; cbn [mbind option_bind].
    assert (∀ i', (0 ≤ i' < 0 + length (x0 :: starts))%nat → is_Some (at2 s2 O i'))
      as Hstarts.
    { intros i' Hi'. apply at2_is_Some. eexists. split; [done|]. lia. }
    destruct (more_start_connections_safe s2 (length (x0 :: starts) - 1) 1 c1)
      as (c2 & Hc2 & Hrows2); [done| | |lia|].
    { intros i' Hi'. apply Hstarts. simpl in *. lia. }
    { apply Hpop2. lia. }
    rewrite Hc2; cbn [mbind option_bind].
    destruct (more_start_connections_spec _ _ _ _ _ Hok1 Hc2) as [Hlc2 Hok2].
    destruct (init_is_start_safe s2) as (is0 & His0 & Hlis0 & Hm0); [lia|].
    rewrite His0; cbn [mbind option_bind].
    destruct (propagate_starts_safe s2 c2 (length (x0 :: starts)) O is0)
      as (is1 & His1 & Hsame1); [done|done|lia|done|done|done|].
    rewrite His1; cbn [mbind option_bind].
    set (v2 := mkVars s2 c2 is1 (work_area v1) w2).
    assert (Inv v2) as HI.
    { split; simpl; [lia|done|].
      eapply propagate_starts_sound; [|by eapply init_is_start_sound|done].
      done. }
    assert (Safe (x0 :: starts) n v2) as HS.
    { split; simpl; [lia|done|done| | |done].
      - rewrite (same_rows_length _ _ Hsame1). done.
      - eapply rows_match_same; eauto. }
    destruct (expand_safe (x0 :: starts) samplers ptc2 true false v2)
      as (v3 & solved & Hr4 & HS3); [done..|].
    rewrite Hr4. simpl.
    apply expand_inv in Hr4 as (HI3 & Hl3 & Hsolved); [|done..].
    simpl in Hl3.
    destruct solved.
    + destruct (computeSolution_defined (sets v3) (connections v3)) as [sol Hsol].
      { by apply inv_edges. }
      { by apply (safe_rows _ _ _ HS3). }
      { lia. }
      rewrite Hsol. simpl. eexists. split; [done|]. simpl.
      split; [intros _; split; [lia|by apply (safe_vetted _ _ _ HS3)]|].
      split; [done|]. split; [done|].
      destruct Hsolved as [gi Hgi]; [done|].
      pose proof (inv_len _ HI3) as Hlen3.
      replace (length (sets v3) - 1)%nat with (length (connections v3)) in Hgi by lia.
      apply reach_goal_layer in Hgi as (j0 & Hj0 & Hgoal).
      eapply computeSolution_found in Hsol as (path & -> & Hpath);
        eauto using inv_edges.
    + eexists. split; [done|]. simpl.
      split; [intros _; split; [lia|by apply (safe_vetted _ _ _ HS3)]|done].
Qed.

(** X1.  [Follower::follow] never indexes out of range.  Whatever the
    samplers, the start states, the goal states and the random draws are,
    and whatever the number of polls the termination condition answers
    false to, each index into [sets], [connections], [is_start] and
    [samplers] that the function, [propagateStartInfo], [findSolutionPath]
    and [computeSolution] use is within range: the run, of which an access
    out of range is the only undefined step, is defined.  This is about the
    function after [pis_.checkValidity()] has passed, and says nothing of a
    condition that never fires. *)
Theorem follow_indexes_in_range gs starts samplers ptc w :
  is_Some (follow gs starts samplers ptc w).
Proof. destruct (follow_outcome gs starts samplers ptc w) as (r & Hr & _). eauto. Qed.

(** X2.  When the goal is sampleable, the layers [Follower::follow] ends
    with are one per sampler plus two, layer 0 holds the start states it was
    given, unchanged, and every state of the layers 1 .. n of the samplers
    passed [isValid], whatever the status is. *)
Theorem follow_layers_vetted gs starts samplers ptc w r :
  follow gs starts samplers ptc w = Some r → gs = true →
  length (layers r) = (length samplers + 2)%nat ∧
  layers r !! O = Some starts ∧
  ∀ l row x, (1 ≤ l ≤ length samplers)%nat →
    layers r !! l = Some row → x ∈ row → isValid x = true.
Proof.
  intros Hrun Hgs.
  destruct (follow_outcome gs starts samplers ptc w) as (r' & Hr & Hlay & _).
  rewrite Hrun in Hr. injection Hr as <-.
  destruct (Hlay Hgs) as (Hlen & H0 & Hvalid). done.
Qed.

(** X3.  The status of [Follower::follow] tells what happened: it is
    [UNRECOGNIZED_GOAL_TYPE] exactly when the goal is not sampleable,
    [INVALID_START] exactly when the goal is sampleable and there is no
    start state, and otherwise [TIMEOUT], [INVALID_GOAL] or
    [EXACT_SOLUTION]; no path is handed to [addSolutionPath] unless the
    status is [EXACT_SOLUTION]. *)
Theorem follow_status_tells_cause gs starts samplers ptc w r :
  follow gs starts samplers ptc w = Some r →
  (status r = UNRECOGNIZED_GOAL_TYPE ↔ gs = false) ∧
  (status r = INVALID_START ↔ gs = true ∧ starts = []) ∧
  (status r ≠ EXACT_SOLUTION → solution_paths r = []) ∧
  status r ∈ [UNRECOGNIZED_GOAL_TYPE; INVALID_START; TIMEOUT; INVALID_GOAL;
              EXACT_SOLUTION].
Proof.
  intros Hrun.
  destruct (follow_outcome gs starts samplers ptc w) as (r' & Hr & _ & Hst).
  rewrite Hrun in Hr. injection Hr as <-.
  destruct (status r); try done;
    (split; [intuition congruence|]);
    (split; [intuition congruence|]);
    (split; [intuition congruence|]);
    rewrite !elem_of_cons; tauto.
Qed.

(** X4.  A path that [Follower::follow] hands to [addSolutionPath] starts
    at one of the start states the call was given, and each of its
    waypoints 1 .. n, one per sampler, is a state that passed [isValid]. *)
Theorem follow_path_endpoints gs starts samplers ptc w r path :
  follow gs starts samplers ptc w = Some r → path ∈ solution_paths r →
  (∃ x, head path = Some x ∧ x ∈ starts) ∧
  ∀ k x, (1 ≤ k ≤ length samplers)%nat → path !! k = Some x → isValid x = true.
Proof.
  intros Hrun Hpath.
  destruct (follow_outcome gs starts samplers ptc w) as (r' & Hr & Hlay & Hst).
  rewrite Hrun in Hr. injection Hr as <-.
  assert (gs = true ∧ solution_path (layers r) path) as [Hgs (Hlen & Hin & _)].
  { destruct (status r); try done;
      try (destruct Hst as (_ & _ & Hp); rewrite Hp in Hpath;
           by apply elem_of_nil in Hpath);
      try (destruct Hst as (_ & Hp); rewrite Hp in Hpath;
           by apply elem_of_nil in Hpath).
    destruct Hst as (Hgs & _ & p & Hp & Hsp). rewrite Hp in Hpath.
    by apply list_elem_of_singleton in Hpath as ->. }
  destruct (Hlay Hgs) as (Hl & H0 & Hvalid). split.
  - destruct path as [|x path]; [simpl in Hlen; lia|].
    exists x. split; [done|].
    destruct (Hin O x eq_refl) as (layer & Hlayer & Hx). by simplify_eq.
  - intros k x Hk Hx. destruct (Hin k x Hx) as (layer & Hlayer & Hxl). eauto.
Qed.

(** X5.  Called with a termination condition that has already fired (and a
    sampleable goal and a start state), [Follower::follow] returns
    [TIMEOUT] at once: no sampler is run, no goal state is asked for, the
    layers hold the start states only and no path is recorded. *)
Theorem follow_fired_returns_timeout starts samplers w :
  starts ≠ [] →
  follow true starts samplers O w
  = Some (mkResult TIMEOUT [] (<[O := starts]> (replicate (length samplers + 2) [])) w).
Proof.
  intros Hne. unfold follow. simpl. destruct starts as [|x0 starts]; [done|].
  by destruct (length samplers).
Qed.

End Safety.
End FollowerSafety.

(** * The first samples *)

Module FollowerFirst.
Import Follower FollowerFacts FollowerShape FollowerSafety.

Section First.
Context {State W : Type} `{SI : SpaceInformation State} `{PI : PlannerInputs State W}.
Implicit Types (s : Sets State) (c : Connections) (is_s : IsStart).
Implicit Types (v : @Vars State W).

(** ** Phase 1 stores one state per sampler *)

Lemma seed_once_one samplers i v v' :
  seed_once samplers i v = Some v' → sets v !! S i = Some [] →
  (∀ l, l ≠ S i → sets v' !! l = sets v !! l) ∧
  ∃ row, sets v' !! S i = Some row ∧ (length row ≤ 1)%nat.
Proof.
  unfold seed_once. intros Hrun Hempty.
  bind_inv Hrun prev Hprev. bind_inv Hrun smp Hsmp.
  destruct (match last prev with
            | Some back =>
                let '(okp, wa, w) := project smp back (world v) in
                if okp then (true, wa, w) else sample smp wa w
            | None => sample smp (work_area v) (world v)
            end) as [[ok wa] w].
  destruct (ok && isValid wa).
  - bind_inv Hrun s' Hs'. injection Hrun as <-. simpl.
    destruct (push_back_at_lookup _ _ _ _ Hs') as (row & Hr & Hr' & Ho).
    simpl in Hr, Ho. rewrite Hempty in Hr. injection Hr as <-.
    split; [done|]. exists [wa]. split; [done|]. simpl. lia.
  - injection Hrun as <-. simpl. split; [done|].
    exists []. split; [done|]. simpl. lia.
Qed.

Lemma seed_layer_one ptc :
  ∀ samplers i v ptc' v',
    seed_layer ptc samplers i v = Some (ptc', v') →
    (∀ row, sets v !! S i = Some row → (length row ≤ 1)%nat) →
    (∀ l, l ≠ S i → sets v' !! l = sets v !! l) ∧
    (∀ row, sets v' !! S i = Some row → (length row ≤ 1)%nat).
Proof.
  induction ptc as [|p IH]; intros samplers i v ptc' v' Hrun Hsmall; simpl in Hrun.
  - bind_inv Hrun layer Hlayer. destruct layer; by simplify_eq.
  - bind_inv Hrun layer Hlayer. destruct layer; [|by simplify_eq].
    bind_inv Hrun v1 Hv1.
    apply seed_once_one in Hv1 as (Hframe1 & row1 & Hrow1 & Hlen1); [|done].
    apply IH in Hrun as (Hframe & Hsmall').
    + split; [|done]. intros l Hl. rewrite Hframe, Hframe1 by done. done.
    + intros row Hrow. by simplify_eq.
Qed.

Lemma seed_layers_one k :
  ∀ i ptc samplers v ptc' v',
    seed_layers k i ptc samplers v = Some (ptc', v') →
    (∀ l row, (i < l)%nat → sets v !! l = Some row → row = []) →
    (∀ l row, (1 ≤ l)%nat → sets v !! l = Some row → (length row ≤ 1)%nat) →
    sets v' !! O = sets v !! O ∧
    (∀ l row, (i + k < l)%nat → sets v' !! l = Some row → row = []) ∧
    (∀ l row, (1 ≤ l)%nat → sets v' !! l = Some row → (length row ≤ 1)%nat).
Proof.
  induction k as [|k IH]; intros i ptc samplers v ptc' v' Hrun Hrest Hsmall;
    simpl in Hrun.
  - injection Hrun as <- <-. split; [done|]. split; [|done].
    intros l row Hl. apply Hrest. lia.
  - destruct ptc as [|p].
    { injection Hrun as <- <-. split; [done|]. split; [|done].
      intros l row Hl. apply Hrest. lia. }
    bind_inv Hrun r Hr. destruct r as [p1 v1].
    apply seed_layer_one in Hr as (Hframe1 & Hsmall1).
    2:{ intros row Hrow. apply (Hsmall (S i)); [lia|done]. }
    apply IH in Hrun as (H0 & Hrest' & Hsmall').
    + split; [by rewrite H0, Hframe1|]. split; [|done].
      intros l row Hl. apply Hrest'. lia.
    + intros l row Hl Hrow. rewrite Hframe1 in Hrow by lia.
      apply (Hrest l); [lia|done].
    + intros l row Hl Hrow. destruct (decide (l = S i)) as [->|Hne]; [eauto|].
      rewrite Hframe1 in Hrow by done. eauto.
Qed.

(** ** Phase 3 *)

Lemma first_samples_stays_false s k :
  ∀ i c c' worked', first_samples k i s c false = Some (c', worked') → worked' = false.
Proof.
  induction k as [|k IH]; intros i c c' worked' Hrun; simpl in Hrun.
  - by simplify_eq.
  - bind_inv Hrun si Hsi. bind_inv Hrun layer Hlayer.
    bind_inv Hrun a Ha. bind_inv Hrun b Hb.
    destruct (checkMotion a b); [bind_inv Hrun c2 Hc2|]; eauto.
Qed.

(** When a first sample does not connect, [first_sample_worked] is false. *)
Lemma first_samples_false s k :
  ∀ i c c',
    first_samples k i s c true = Some (c', false) →
    ∃ l a b, (i ≤ l < i + k)%nat ∧ at2 s l O = Some a ∧ at2 s (S l) O = Some b ∧
             checkMotion a b = false.
Proof.
  induction k as [|k IH]; intros i c c' Hrun; simpl in Hrun.
  - by simplify_eq.
  - bind_inv Hrun si Hsi. bind_inv Hrun layer Hlayer.
    bind_inv Hrun a Ha. bind_inv Hrun b Hb.
    destruct (checkMotion a b) eqn:Hm.
    + bind_inv Hrun c2 Hc2.
      apply IH in Hrun as (l & a' & b' & Hl & ?). exists l, a', b'.
      split; [lia|done].
    + exists i, a, b. split; [lia|done].
Qed.

(** When all first samples connect, each row of [connections] starts
    with the one connection to the first state of the next layer. *)
Lemma first_samples_true s k :
  ∀ i c c',
    first_samples k i s c true = Some (c', true) →
    (∀ l, (i ≤ l < length c)%nat → c !! l = Some []) →
    (∀ l, (l < i)%nat → c' !! l = c !! l) ∧
    (∀ l, (i ≤ l < i + k)%nat → at2 c' l O = Some [O]).
Proof.
  induction k as [|k IH]; intros i c c' Hrun Hfresh; simpl in Hrun.
  - injection Hrun as <-. split; [done|]. intros; lia.
  - bind_inv Hrun si Hsi. bind_inv Hrun layer Hlayer.
    bind_inv Hrun a Ha. bind_inv Hrun b Hb.
    destruct (checkMotion a b) eqn:Hm.
    2:{ apply first_samples_stays_false in Hrun. done. }
    bind_inv Hrun c2 Hc2.
    assert (layer = []) as ->.
    { pose proof (lookup_lt_Some _ _ _ Hlayer).
      rewrite Hfresh in Hlayer by lia. by injection Hlayer. }
    assert (i < length c)%nat as Hi by (by eapply lookup_lt_Some).
    assert (at2 c2 i O = Some [O]) as Hrow.
    { destruct (add_edge_new _ _ _ _ _ Hc2) as (out' & Hout' & Hin).
      destruct (add_edge_inv _ _ _ _ _ _ _ _ Hc2 Hout')
        as [Hold|(_ & _ & out & Hout & ->)].
      - rewrite at2_insert, decide_True in Hold by done.
        apply lookup_resize_inv in Hold as [Hold| ->]; [done|].
        by apply elem_of_nil in Hin.
      - rewrite at2_insert, decide_True in Hout by done.
        apply lookup_resize_inv in Hout as [Hout| ->]; [done|]. by rewrite Hout'. }
    apply IH in Hrun as (Hframe & Hall).
    + split.
      * intros l Hl. rewrite Hframe by lia.
        rewrite (add_edge_other _ _ _ _ _ _ Hc2) by lia.
        apply list_lookup_insert_ne. lia.
      * intros l Hl. destruct (decide (l = i)) as [->|Hne]; [|apply Hall; lia].
        unfold at2. rewrite Hframe by lia. exact Hrow.
    + intros l Hl. rewrite (add_edge_length _ _ _ _ _ Hc2), length_insert in Hl.
      rewrite (add_edge_other _ _ _ _ _ _ Hc2) by lia.
      rewrite list_lookup_insert_ne by lia. apply Hfresh. lia.
Qed.

(** ** The path along the first states *)

Lemma find_first s c rest :
  ∀ l path,
    rest = drop l c → length s = S (length c) → (l ≤ length c)%nat →
    (∀ l', (l ≤ l' < length c)%nat → at2 c l' O = Some [O]) →
    (∀ l', (l' < length s)%nat → is_Some (at2 s l' O)) →
    find_from rest l O s path = Some (true, path ++ reverse (omap head (drop l s))).
Proof.
  induction rest as [|layer rest IH]; intros l path Hd Hlen Hl Hc Hs; simpl.
  - assert (l = length c) as ->.
    { symmetry in Hd. apply drop_nil_inv in Hd. lia. }
    destruct (Hs (length c)) as [x Hx]; [lia|]. rewrite Hx. simpl.
    pose proof Hx as Hx'. apply at2_Some in Hx' as (row & Hrow & Hx0).
    rewrite (drop_S _ _ _ Hrow), drop_ge by lia. simpl.
    destruct row; simplify_eq/=. done.
  - symmetry in Hd. apply drop_cons_inv in Hd as [Hlayer Hd].
    pose proof (lookup_lt_Some _ _ _ Hlayer) as Hlt.
    pose proof (Hc l ltac:(lia)) as Hout.
    apply at2_Some in Hout as (layer' & Hlayer' & Hout). simplify_eq.
    rewrite Hout. simpl.
    rewrite (IH (S l) path) by (try done; try lia; intros; apply Hc; lia).
    simpl. destruct (Hs l) as [x Hx]; [lia|]. rewrite Hx. simpl.
    pose proof Hx as Hx'. apply at2_Some in Hx' as (row & Hrow & Hx0).
    rewrite (drop_S _ _ _ Hrow). simpl.
    destruct row; simplify_eq/=. rewrite reverse_cons. by rewrite (assoc_L (++)).
Qed.

Lemma computeSolution_first s c :
  length s = S (length c) →
  (∀ l, (l < length c)%nat → at2 c l O = Some [O]) →
  (∀ l, (l < length s)%nat → is_Some (at2 s l O)) →
  computeSolution s c = Some (Some (omap head s)).
Proof.
  intros Hlen Hc Hs. unfold computeSolution.
  destruct (Hs O) as [x Hx]; [lia|].
  apply at2_Some in Hx as (starts & Hstarts & Hx). rewrite Hstarts. simpl.
  destruct starts as [|x0 starts]; [done|]. simpl.
  unfold findSolutionPath. rewrite decide_True by lia. rewrite ?drop_0.
  rewrite (find_first s c c O []); try done; try lia.
  - simpl. by rewrite ?drop_0, reverse_involutive.
  - intros l' Hl'. apply Hc. lia.
Qed.

(** ** The layers only grow during the expansion *)

Lemma draw_state_ext samplers goal_index index to_goal ag w v v1 ag1 added :
  draw_state samplers goal_index index to_goal ag w v = Some (v1, ag1, added) →
  sets_ext (sets v) (sets v1).
Proof.
  unfold draw_state. intros Hrun. destruct to_goal.
  - destruct (nextGoal w) as [[g|] w1].
    + bind_inv Hrun s' Hs'. bind_inv Hrun is' His'. simplify_eq/=.
      by eapply sets_ext_push.
    + simplify_eq/=. apply sets_ext_refl.
  - bind_inv Hrun smp Hsmp.
    destruct (sample smp (work_area v) w) as [[ok wa] w1].
    destruct (ok && isValid wa).
    + bind_inv Hrun s' Hs'. bind_inv Hrun c' Hc'. bind_inv Hrun is' His'.
      simplify_eq/=. by eapply sets_ext_push.
    + simplify_eq/=. apply sets_ext_refl.
Qed.

Lemma expand_once_ext samplers ag v v' ag' solved :
  Inv v → expand_once samplers ag v = Some (v', ag', solved) →
  sets_ext (sets v) (sets v').
Proof.
  intros HI Hrun. unfold expand_once in Hrun.
  destruct (pdf_sets_sample (sets v) (world v)) as [oindex w] eqn:Epdf.
  bind_inv Hrun index Hindex. subst oindex.
  apply pdf_sets_sample_range in Epdf.
  destruct (if bool_decide (index = (length (sets v) - 1)%nat) then (true, w)
            else if ag then goal_bias_draw w else (false, w)) as [to_goal w1].
  bind_inv Hrun r Hr. destruct r as [[v1 ag1] added].
  pose proof (draw_state_ext _ _ _ _ _ _ _ _ _ _ Hr) as Hext.
  apply draw_state_inv in Hr as [HI1 Hl1]; [|done].
  destruct added.
  - bind_inv Hrun r2 Hr2. destruct r2 as [v3 solved3].
    injection Hrun as <- <- <-.
    apply connect_added_inv in Hr2 as (_ & Hs3 & _); [|lia|done].
    by rewrite Hs3.
  - by simplify_eq/=.
Qed.

Lemma expand_ext ptc :
  ∀ samplers ag solved v v' solved',
    Inv v → expand ptc samplers ag solved v = Some (v', solved') →
    sets_ext (sets v) (sets v').
Proof.
  induction ptc as [|p IH]; intros samplers ag solved v v' solved' HI Hrun;
    simpl in Hrun.
  - simplify_eq. apply sets_ext_refl.
  - destruct solved; [simplify_eq; apply sets_ext_refl|].
    bind_inv Hrun r Hr. destruct r as [[v1 ag1] solved1].
    pose proof (expand_once_ext _ _ _ _ _ _ HI Hr) as Hext1.
    apply expand_once_inv in Hr as (HI1 & _ & _); [|done].
    apply IH in Hrun; [|done].
    intros l j x Hx. eauto.
Qed.

(** X20.  The shortcut of [Follower::follow]: when, in the layers the call
    ends with, the first state of every layer has a valid motion to the
    first state of the next layer, the status is [EXACT_SOLUTION], the path
    recorded is the sequence of these first states, and the call has
    stored exactly one state for each sampler and one goal state (the
    expansion loop was not entered). *)
Theorem follow_first_samples_path gs starts samplers ptc w r :
  follow gs starts samplers ptc w = Some r →
  (∀ l, (l ≤ length samplers)%nat →
     ∃ a b, at2 (layers r) l O = Some a ∧ at2 (layers r) (S l) O = Some b ∧
            checkMotion a b = true) →
  status r = EXACT_SOLUTION ∧
  solution_paths r = [omap head (layers r)] ∧
  ∀ l row, (1 ≤ l)%nat → layers r !! l = Some row → length row = 1%nat.
Proof.
  unfold follow. intros Hrun Hfirst.
  destruct gs; simpl in Hrun.
  2:{ injection Hrun as <-. destruct (Hfirst O) as (a & b & Ha & _); [lia|]. done. }
  set (sets0 := <[O := starts]> (replicate (length samplers + 2) [])) in *.
  assert (length sets0 = (length samplers + 2)%nat) as Hl0.
  { unfold sets0. by rewrite length_insert, length_replicate. }
  assert (sets0 !! O = Some starts) as Hs0.
  { unfold sets0. apply list_lookup_insert_eq. rewrite length_replicate. lia. }
  assert (∀ l row, (0 < l)%nat → sets0 !! l = Some row → row = []) as Hrest0.
  { intros l row Hl Hrow. unfold sets0 in Hrow.
    rewrite list_lookup_insert_ne in Hrow by lia.
    by apply lookup_replicate in Hrow as [-> _]. }
  destruct starts as [|x0 starts].
  { injection Hrun as <-. destruct (Hfirst O) as (a & b & Ha & _); [lia|].
    simpl in Ha. unfold at2 in Ha. rewrite Hs0 in Ha. done. }
  bind_inv Hrun r1 Hr1. destruct r1 as [ptc1 v1].
  pose proof (seed_layers_length _ _ _ _ _ _ _ Hr1) as Hl1. simpl in Hl1.
  apply seed_layers_one in Hr1 as (H0 & Hgoal1 & Hsmall1); simpl; [|done|].
  2:{ intros l row Hl Hrow. rewrite (Hrest0 l row) by (done || lia). simpl. lia. }
  simpl in H0.
  assert (sets v1 !! (length samplers + 1)%nat = Some []) as Hempty.
  { destruct (lookup_lt_is_Some_2 (sets v1) (length samplers + 1)) as [row Hrow]; [lia|].
    rewrite (Hgoal1 (length samplers + 1)%nat row ltac:(lia) Hrow) in Hrow. done. }
  assert (∀ (w' : W) st, ¬ (∀ l, (l ≤ length samplers)%nat →
            ∃ a b, at2 (layers (mkResult st [] (sets v1) w')) l O = Some a ∧
                   at2 (layers (mkResult st [] (sets v1) w')) (S l) O = Some b ∧
                   checkMotion a b = true)) as Hno.
  { intros w' st H. destruct (H (length samplers)) as (a & b & _ & Hb & _); [lia|].
    simpl in Hb. unfold at2 in Hb.
    replace (S (length samplers)) with (length samplers + 1)%nat in Hb by lia. rewrite Hempty in Hb. done. }
  destruct ptc1 as [|ptc2].
  { injection Hrun as <-. by apply Hno in Hfirst. }
  destruct (nextGoal (world v1)) as [[g|] w2].
  2:{ injection Hrun as <-. by apply Hno in Hfirst. }
  clear Hno.
  bind_inv Hrun s2 Hs2.
  pose proof (push_back_at_length _ _ _ _ Hs2) as Hl2.
  replace (length (sets v1) - 1)%nat with (length samplers + 1)%nat in Hs2 by lia.
  destruct (push_back_at_lookup _ _ _ _ Hs2) as (row & Hrow & Hrow' & Hother).
  rewrite Hempty in Hrow. injection Hrow as <-. simpl in Hrow'.
  bind_inv Hrun r3 Hr3. destruct r3 as [c1 worked].
  set (c0 := replicate (length s2 - 1) []) in *.
  assert (length c0 = (length s2 - 1)%nat) as Hlc0 by apply length_replicate.
  assert (edges_ok s2 c0) as Hok0.
  { intros l j out k Hout Hk. apply at2_Some in Hout as (row & Hrow & Hj).
    apply lookup_replicate in Hrow as [-> _]. done. }
  destruct (first_samples_spec _ _ _ _ _ _ _ Hok0 Hr3)
    as (Hlc1 & Hok1 & _ & _ & _).
  destruct worked.
  - bind_inv Hrun sol Hsol. injection Hrun as <-. simpl in *.
    split; [done|].
    apply first_samples_true in Hr3 as (_ & Hall).
    2:{ intros l Hl. apply lookup_replicate. split; [done|lia]. }
    rewrite computeSolution_first in Hsol.
    + injection Hsol as <-. split; [done|].
      intros l row Hl Hrow.
      destruct (decide (l = length samplers + 1)%nat) as [->|Hne]; [by simplify_eq|].
      rewrite Hother in Hrow by done.
      pose proof (Hsmall1 _ _ Hl Hrow) as Hle.
      assert (l ≤ length samplers)%nat as Hln. { apply lookup_lt_Some in Hrow. lia. }
      destruct l as [|l]; [lia|].
      destruct (Hfirst l) as (a & b & _ & Hb & _); [lia|].
      apply at2_Some in Hb as (row2 & Hrow2 & Hb).
      rewrite Hother in Hrow2 by lia. simplify_eq.
      apply lookup_lt_Some in Hb. lia.
    + lia.
    + intros l Hl. apply Hall. lia.
    + intros l Hl. destruct (decide (l ≤ length samplers)%nat) as [Hle|Hgt].
      * destruct (Hfirst l Hle) as (a & b & Ha & _). by eexists.
      * destruct (Hfirst (length samplers)) as (a & b & _ & Hb & _); [lia|].
        replace l with (S (length samplers)) by lia. by eexists.
  - exfalso.
    apply first_samples_false in Hr3 as (l & a & b & Hl & Ha & Hb & Hm).
    bind_inv Hrun starts2 Hstarts2. bind_inv Hrun c2 Hc2.
    bind_inv Hrun is0 His0. bind_inv Hrun is1 His1.
    bind_inv Hrun r4 Hr4. destruct r4 as [v3 solved].
    destruct (more_start_connections_spec _ _ _ _ _ Hok1 Hc2) as [Hlc2 Hok2].
    assert (Inv (mkVars s2 c2 is1 (work_area v1) w2)) as HI.
    { split; simpl; [lia|done|].
      eapply propagate_starts_sound; [|by eapply init_is_start_sound|done].
      intros i' Hi'. unfold at2. rewrite Hstarts2. simpl.
      apply lookup_lt_is_Some_2. lia. }
    pose proof (expand_ext _ _ _ _ _ _ _ HI Hr4) as Hext. simpl in Hext.
    assert (layers r = sets v3) as Hlay.
    { destruct solved; [bind_inv Hrun sol Hsol|]; by injection Hrun as <-. }
    rewrite Hlay in Hfirst.
    destruct (Hfirst l) as (a' & b' & Ha' & Hb' & Hm'); [lia|].
    rewrite (Hext _ _ _ Ha) in Ha'. rewrite (Hext _ _ _ Hb) in Hb'.
    congruence.
Qed.

End First.
End FollowerFirst.

(** * The helpers of the Follower *)

Module FollowerHelpers.
Import Follower FollowerFacts FollowerShape FollowerSafety.

Lemma assign2_keeps {A} i j (x : A) v v' l m y :
  assign2 i j x v = Some v' → at2 v l m = Some y →
  at2 v' l m = Some (if decide (l = i ∧ m = j) then x else y).
Proof.
  unfold assign2. intros H Hy.
  destruct (v !! i) as [row|] eqn:E; simplify_eq/=.
  destruct (row !! j) as [z|] eqn:Ej; simplify_eq/=.
  rewrite at2_insert by (by eapply lookup_lt_Some).
  apply at2_Some in Hy as (r & Hr & Hm).
  destruct (decide (l = i)) as [->|Hne].
  - simplify_eq. destruct (decide (m = j)) as [->|Hnm].
    + rewrite decide_True by done.
      apply list_lookup_insert_eq. by eapply lookup_lt_Some.
    + rewrite decide_False by (by intros [_ ?]).
      by rewrite list_lookup_insert_ne.
  - rewrite decide_False by (by intros [? _]). apply at2_Some. eauto.
Qed.

Lemma assign2_sets {A} i j (x : A) v v' :
  assign2 i j x v = Some v' → at2 v' i j = Some x.
Proof.
  unfold assign2. intros H.
  destruct (v !! i) as [row|] eqn:E; simplify_eq/=.
  destruct (row !! j) as [z|] eqn:Ej; simplify_eq/=.
  rewrite at2_insert, decide_True by (done || by eapply lookup_lt_Some).
  apply list_lookup_insert_eq. by eapply lookup_lt_Some.
Qed.

Section Helpers.
Context {State W : Type} `{SI : SpaceInformation State} `{PI : PlannerInputs State W}.
Implicit Types (s : Sets State) (c : Connections) (is_s : IsStart).

(** ** propagateStartInfo *)

Lemma propagate_from_marks c rest :
  ∀ l j is_s is_s',
    rest = drop l c → propagate_from rest l j is_s = Some is_s' →
    (∀ l' k', descends c l j l' k' → at2 is_s' l' k' = Some 1) ∧
    marks_kept is_s is_s'.
Proof.
  induction rest as [|layer rest IH]; intros l j is_s is_s' Hd Hrun; simpl in Hrun.
  - injection Hrun as <-. split; [|by intros ? ?].
    intros l' k' Hdesc. exfalso.
    assert (c !! l = None) as Hnone.
    { apply lookup_ge_None_2. symmetry in Hd. by apply drop_nil_inv in Hd. }
    inversion Hdesc as [? ? out k Hout|? ? out k ? ? Hout]; subst;
      apply at2_Some in Hout as (row & Hrow & _); congruence.
  - symmetry in Hd. apply drop_cons_inv in Hd as [Hl Hd].
    bind_inv Hrun out Hout.
    assert (at2 c l j = Some out) as Hedge by (apply at2_Some; eauto).
    assert (∀ xs a a',
              for_each (λ ci is_s0,
                          is_s1 ← assign2 (S l) ci 1 is_s0;
                          propagate_from rest (S l) ci is_s1) xs a = Some a' →
              (∀ ci, ci ∈ xs →
                 at2 a' (S l) ci = Some 1 ∧
                 ∀ l' k', descends c (S l) ci l' k' → at2 a' l' k' = Some 1) ∧
              marks_kept a a') as Hloop.
    { induction xs as [|ci xs IHxs]; intros a a' Hfe; simpl in Hfe.
      - injection Hfe as <-. split; [|by intros ? ?]. intros ci Hci.
        by apply elem_of_nil in Hci.
      - bind_inv Hfe a1 Ha1. bind_inv Ha1 a0 Ha0.
        apply IH in Ha1 as [Hdesc1 Hkept1]; [|done].
        apply IHxs in Hfe as [Hrest Hkept].
        assert (marks_kept a a0) as Hkept0.
        { intros l' k' Hm. rewrite (assign2_keeps _ _ _ _ _ _ _ _ Ha0 Hm).
          by destruct (decide _). }
        split.
        + intros cj Hcj. apply elem_of_cons in Hcj as [->|Hcj]; [|by apply Hrest].
          split.
          * apply Hkept, Hkept1. by eapply assign2_sets.
          * intros l' k' Hdesc. by apply Hkept, Hdesc1.
        + intros l' k' Hm. by apply Hkept, Hkept1, Hkept0. }
    apply Hloop in Hrun as [Hall Hkept]. split; [|done].
    intros l' k' Hdesc.
    inversion Hdesc as [? ? out' k Hout' Hk|? ? out' k ? ? Hout' Hk Hnext]; subst.
    + rewrite Hedge in Hout'. injection Hout' as <-. by apply Hall.
    + rewrite Hedge in Hout'. injection Hout' as <-.
      destruct (Hall k Hk) as [_ Hd']. by apply Hd'.
Qed.

Lemma propagate_from_changes c rest :
  ∀ l j is_s is_s',
    rest = drop l c → propagate_from rest l j is_s = Some is_s' →
    ∀ l' k' f, at2 is_s' l' k' = Some f →
      at2 is_s l' k' = Some f ∨ (f = 1 ∧ descends c l j l' k').
Proof.
  induction rest as [|layer rest IH]; intros l j is_s is_s' Hd Hrun; simpl in Hrun.
  - injection Hrun as <-. eauto.
  - symmetry in Hd. apply drop_cons_inv in Hd as [Hl Hd].
    bind_inv Hrun out Hout.
    assert (at2 c l j = Some out) as Hedge by (apply at2_Some; eauto).
    revert Hrun.
    apply (for_each_inv
             (λ a, ∀ l' k' f, at2 a l' k' = Some f →
                     at2 is_s l' k' = Some f ∨ (f = 1 ∧ descends c l j l' k'))).
    + intros ci a a' Hci Ha Hbody l' k' f Hf.
      bind_inv Hbody a0 Ha0.
      destruct (IH _ _ _ _ Hd Hbody _ _ _ Hf) as [Hold|[-> Hdesc]].
      * destruct (assign2_inv _ _ _ _ _ _ _ _ Ha0 Hold) as [Hold'|(-> & -> & ->)].
        { by apply Ha. }
        right. split; [done|]. by eapply descends_one.
      * right. split; [done|]. by eapply descends_step.
    + eauto.
Qed.

(** X21.  [propagateStartInfo(set_index, elem_index, ...)], when it
    returns, has set to 1 the mark of every state that is reached from
    state [elem_index] of layer [set_index] by one or more recorded
    connections, and has changed no other mark. *)
Theorem propagateStartInfo_marks_descendants l j is_s c is_s' :
  propagateStartInfo l j is_s c = Some is_s' →
  (∀ l' k', descends c l j l' k' → at2 is_s' l' k' = Some 1) ∧
  (∀ l' k' f, at2 is_s' l' k' = Some f →
     at2 is_s l' k' = Some f ∨ (f = 1 ∧ descends c l j l' k')).
Proof.
  unfold propagateStartInfo. intros Hrun. split.
  - by eapply propagate_from_marks.
  - by eapply propagate_from_changes.
Qed.

(** ** findSolutionPath, computeSolution *)

Lemma is_chain_to_goal s rest l j ch : is_chain s rest l j ch → to_goal rest j.
Proof. induction 1; econstructor; eauto. Qed.

(** X22.  [findSolutionPath(path, set_index, elem_index, ...)], when it
    returns, answers true exactly when recorded connections lead from the
    given state to a state of the goal layer; it has then appended to
    [path] the states of one such chain, the goal state first and the
    given state last.  When it answers false, [path] is unchanged. *)
Theorem findSolutionPath_finds_chain path l j s c b path' :
  findSolutionPath path l j s c = Some (b, path') →
  (b = true ↔ to_goal (drop l c) j) ∧
  if b then ∃ ch, path' = path ++ reverse ch ∧ is_chain s (drop l c) l j ch
  else path' = path.
Proof.
  unfold findSolutionPath. intros Hrun. case_decide; [|done].
  apply find_from_spec in Hrun. destruct b.
  - destruct Hrun as (ch & -> & Hch). split; [|eauto].
    split; [|done]. intros _. by eapply is_chain_to_goal.
  - destruct Hrun as [-> Hno]. split; [|done]. split; [done|]. by intros ?.
Qed.

(** X23.  [computeSolution], when it returns, hands a path to
    [addSolutionPath] exactly when recorded connections lead from some
    start state to a state of the goal layer; the path is then such a chain,
    from the start state to the goal state. *)
Theorem computeSolution_iff_chain s c sol :
  computeSolution s c = Some sol →
  (is_Some sol ↔ ∃ j0, is_Some (at2 s O j0) ∧ to_goal c j0) ∧
  ∀ path, sol = Some path → ∃ j0, is_chain s c O j0 path.
Proof.
  unfold computeSolution. intros Hrun.
  bind_inv Hrun starts Hstarts. bind_inv Hrun r Hr. destruct r as [b pg].
  injection Hrun as <-.
  apply computeSolution_loop_spec in Hr. destruct b.
  - destruct Hr as (i' & ch & -> & Hch). rewrite app_nil_l, reverse_involutive.
    split.
    + split; [|by eexists]. intros _. exists i'. split.
      * inversion Hch; subst; by eexists.
      * by eapply is_chain_to_goal.
    + intros path [= <-]. eauto.
  - destruct Hr as [_ Hnone]. split; [|done]. split; [by intros [? ?]|].
    intros (j0 & [x0 Hx0] & Hg). exfalso. apply (Hnone j0); [|done].
    apply at2_Some in Hx0 as (row & Hrow & Hj0). simplify_eq.
    apply lookup_lt_Some in Hj0. lia.
Qed.

End Helpers.
End FollowerHelpers.

(** * More properties of the planning context *)

Section MoreContextFacts.
Context {State W : Type}.
Context `{SI : Follower.SpaceInformation State} `{PI : Follower.PlannerInputs State W}.
Context `{MI : MoveIt} `{EN : PlanningEngine State W} `{RS : !RobotStates State W}.
Implicit Types (c : ModelBasedPlanningContext (State := State) (W := W)).

(** ** How many planners [solve] launches *)

Lemma to_int_unsigned z :
  0 ≤ z < 2 ^ 32 → to_int z = z ∨ to_int z < 0.
Proof.
  intros Hz. unfold to_int. rewrite Z.mod_small by lia.
  destruct (Z.ltb_spec z (2 ^ 31)); lia.
Qed.

Lemma sum_app (zs1 zs2 : list Z) :
  foldr Z.add 0 (zs1 ++ zs2) = foldr Z.add 0 zs1 + foldr Z.add 0 zs2.
Proof. induction zs1 as [|z zs1 IH]; simpl; lia. Qed.

Lemma full_batches_sizes k :
  ∀ ptc c w result ptc' c' w' result' evs,
    full_batches k ptc c w result = (ptc', c', w', result', evs) →
    0 ≤ max_planning_threads_ c →
    ∃ j, (j ≤ k)%nat ∧ batch_sizes evs = replicate j (max_planning_threads_ c) ∧
         planners_launched evs = Z.of_nat j * max_planning_threads_ c.
Proof.
  induction k as [|k IH]; intros ptc c w result ptc' c' w' result' evs Hrun Hm;
    simpl in Hrun.
  - injection Hrun as <- <- <- <- <-. by exists O.
  - destruct ptc as [|p]; simpl in Hrun.
    + injection Hrun as <- <- <- <- <-. exists O. split; [lia|done].
    + destruct (run_batch _ _ _ _ _) as [[[r c1] w1] ev] eqn:Eb.
      destruct (full_batches k p c1 w1 (result && r))
        as [[[[ptc2 c2] w2] result2] evs2] eqn:Ef.
      injection Hrun as <- <- <- <- <-.
      apply run_batch_spec in Eb as (Hm1 & _ & _ & pool & st & -> & Hlen & _).
      apply IH in Ef as (j & Hj & Hsz & Hsum); [|by rewrite Hm1].
      exists (S j). split; [lia|]. simpl.
      rewrite Hsz, Hsum, Hlen, Hm1, Z2Nat.id by done. split; [done|lia].
Qed.

Lemma planners_launched_app (evs1 evs2 : list Event) :
  planners_launched (evs1 ++ evs2) = planners_launched evs1 + planners_launched evs2.
Proof.
  induction evs1 as [|[] evs1 IH]; simpl; lia.
Qed.

Lemma batch_bounds_join ptc evs1 evs2 j m count :
  0 < m → 0 ≤ count →
  batch_sizes evs1 = replicate j m → planners_launched evs1 = Z.of_nat j * m →
  Z.of_nat j ≤ count / m →
  Forall (λ n, 0 ≤ n ≤ m) (batch_sizes evs2) →
  planners_launched evs2 ≤ count mod m →
  Forall (λ n, 0 ≤ n ≤ m)
    (batch_sizes ([EvRegister ptc] ++ evs1 ++ evs2 ++ [EvUnregister])) ∧
  planners_launched ([EvRegister ptc] ++ evs1 ++ evs2 ++ [EvUnregister]) ≤ count.
Proof.
  intros Hm Hc Hsz Hsum1 Hj Hall Hsum.
  pose proof (Z.div_mod count m) as Hdiv.
  rewrite !planners_launched_app, Hsum1. simpl.
  rewrite !batch_sizes_app, Hsz. simpl.
  rewrite app_nil_r. split.
  - apply Forall_app. split; [|done].
    apply Forall_forall. intros x Hx.
    apply elem_of_replicate in Hx as [-> _]. lia.
  - nia.
Qed.

(** X8.  For a [count] and a [max_planning_threads_] that are values of
    [unsigned int], a call of [solve] that returns has run at most
    [max(count, 1)] planners in all: exactly one, the planner of the simple
    setup and no parallel run, when [count <= 1] (so for a [count] of 0
    too), and at most [count] otherwise.  None of its parallel runs holds
    more than [max_planning_threads_] planners, whichever branch it took
    and however many batches the termination condition let through. *)
Theorem solve_batch_bounds timeout count c w r c' w' evs :
  0 ≤ count < 2 ^ 32 → 0 ≤ max_planning_threads_ c < 2 ^ 32 →
  solve timeout count c w = Some (r, c', w', evs) →
  Forall (λ n, 0 ≤ n ≤ max_planning_threads_ c) (batch_sizes evs) ∧
  planners_launched evs ≤ Z.max count 1 ∧
  (count ≤ 1 → planners_launched evs = 1 ∧ batch_sizes evs = []) ∧
  (1 < count → planners_launched evs ≤ count).
Proof.
  intros Hc Hm Hrun. unfold solve in Hrun.
  bind_inv Hrun c0 Hc0. bind_inv Hrun res Hres.
  destruct res as [[[result c3] w3] evs0].
  bind_inv Hrun c4 Hc4. injection Hrun as <- <- <- <-.
  apply preSolve_spec in Hc0 as (_ & Hm0 & _ & _).
  destruct (timedPlannerTerminationCondition timeout w) as [ptc w1].
  case_bool_decide as H1.
  { destruct (simple_setup_solve ptc w1) as [st w2].
    injection Hres as <- <- <- <-. simpl.
    split; [constructor|]. split; [lia|]. split; [done|lia]. }
  assert (Forall (λ n, 0 ≤ n ≤ max_planning_threads_ c) (batch_sizes evs0) ∧
          planners_launched evs0 ≤ count) as [Hall Hsum];
    [|split; [done|]; split; [lia|]; split; [lia|done]].
  rewrite Hm0 in Hres. case_bool_decide as H2.
  { destruct (parallel_plan_solve _ _ _ _ _ _) as [st w2].
    injection Hres as <- <- <- <-. simpl.
    rewrite ?length_app, length_replicate. simpl. rewrite Z2Nat.id by lia.
    split; [|lia]. constructor; [lia|constructor]. }
  simpl in Hres. rewrite Hm0 in Hres.
  case_bool_decide as Hz; [done|].
  assert (0 ≤ count / max_planning_threads_ c < 2 ^ 32
          ∧ 0 ≤ count mod max_planning_threads_ c < max_planning_threads_ c)
    as (Hq & Hrem).
  { split; [split|].
    - apply Z.div_pos; lia.
    - apply Z.div_lt_upper_bound; nia.
    - apply Z.mod_pos_bound. lia. }
  destruct (full_batches _ _ _ _ _) as [[[[ptc1 c2] w2] res1] evs1] eqn:Ef.
  apply full_batches_sizes in Ef as (j & Hj & Hsz & Hsum1); [|simpl; lia].
  simpl in Hsz, Hsum1. rewrite Hm0 in Hsz, Hsum1.
  assert (Z.of_nat j ≤ count / max_planning_threads_ c) as Hjq.
  { destruct (to_int_unsigned (count / max_planning_threads_ c)) as [Heq|Hneg];
      [lia| |]; rewrite ?Heq in Hj; lia. }
  destruct (bool_decide (to_int (count `mod` max_planning_threads_ c) = 0)).
  { injection Hres as <- <- <- <-.
    apply (batch_bounds_join ptc evs1 [] j); try done; try lia.
    simpl. lia. }
  destruct (ptc_eval ptc1) as [[] ptc2].
  { injection Hres as <- <- <- <-.
    apply (batch_bounds_join ptc evs1 [] j); try done; try lia.
    simpl. lia. }
  destruct (run_batch _ _ _ _ _) as [[[rb c3'] w3'] ev] eqn:Eb.
  apply run_batch_spec in Eb as (_ & _ & _ & pool & st & -> & Hlen & _).
  injection Hres as <- <- <- <-.
  apply (batch_bounds_join ptc evs1 [_] j); try done; try lia; simpl.
  - constructor; [|constructor]. rewrite Hlen.
    destruct (to_int_unsigned (count mod max_planning_threads_ c)) as [Heq|Hneg];
      [lia| |]; rewrite ?Heq; lia.
  - rewrite Hlen.
    destruct (to_int_unsigned (count mod max_planning_threads_ c)) as [Heq|Hneg];
      [lia| |]; rewrite ?Heq; lia.
Qed.


(** ** Goals *)

Lemma constructGoal_goals_members mgr scene group gc g :
  g ∈ constructGoal_goals mgr scene group gc →
  ∃ kset cs m,
    g = ConstrainedGoalSampler kset cs ∧ kset ∈ gc ∧ mgr = Some m ∧
    selectSampler m scene group (getAllConstraints kset) = Some cs.
Proof.
  induction gc as [|kset gc IH]; simpl; intros Hg.
  - by apply elem_of_nil in Hg.
  - destruct mgr as [m|]; simpl in *.
    + destruct (selectSampler m scene group (getAllConstraints kset)) as [cs|] eqn:E.
      * apply elem_of_cons in Hg as [->|Hg].
        { exists kset, cs, m. repeat split; [by left|done]. }
        destruct (IH Hg) as (k & cs' & m' & ? & ? & ? & ?).
        exists k, cs', m'. repeat split; [done|by right|done..].
      * destruct (IH Hg) as (k & cs' & m' & ? & ? & ? & ?).
        exists k, cs', m'. repeat split; [done|by right|done..].
    + destruct (IH Hg) as (k & cs' & m' & ? & ? & ? & ?). done.
Qed.

Lemma constructGoal_goals_with_sampler mgr scene group gc :
  let sampler_of kset := m ← mgr; selectSampler m scene group (getAllConstraints kset) in
  Forall2 (λ kset g, ∃ cs, sampler_of kset = Some cs ∧ g = ConstrainedGoalSampler kset cs)
    (filter (λ kset, is_Some (sampler_of kset)) gc)
    (constructGoal_goals mgr scene group gc).
Proof.
  intros sampler_of. induction gc as [|kset gc IH]; simpl; [constructor|].
  fold (sampler_of kset).
  destruct (sampler_of kset) as [cs|] eqn:E.
  - rewrite filter_cons_True by (rewrite E; eauto).
    constructor; [|done]. eauto.
  - rewrite filter_cons_False by (rewrite E; by intros [? ?]). done.
Qed.

(** X11.  The goal [setGoalConstraints] builds when it has stored at least
    one constraint set, as a function of the stored sets for which the
    manager selects a sampler (a null manager selects none).  When no set
    has a sampler, the goal of the simple setup is set to null and the
    answer is false.  When exactly one set has a sampler, the goal is the
    [ConstrainedGoalSampler] of that set and its sampler.  When two or more
    have one, the goal is a [GoalSampleableRegionMux] that holds one
    [ConstrainedGoalSampler] per such set, in the order of the stored sets.
    In both these cases the answer is true. *)
Theorem setGoalConstraints_goal_kind goal_constraints path_constraints error c r error' c' :
  setGoalConstraints goal_constraints path_constraints error c = Some (r, error', c') →
  goal_constraints_ c' ≠ [] →
  let sampler_of kset :=
    m ← constraint_sampler_manager_ (spec_ c');
    selectSampler m (planning_scene_ c') (group_name (joint_model_group_ (spec_ c')))
      (getAllConstraints kset) in
  let sampler_for kset g :=
    ∃ cs, sampler_of kset = Some cs ∧ g = ConstrainedGoalSampler kset cs in
  match filter (λ kset, is_Some (sampler_of kset)) (goal_constraints_ c') with
  | [] => goal (ompl_simple_setup_ c') = None ∧ r = false
  | [kset] =>
      ∃ g, sampler_for kset g ∧ goal (ompl_simple_setup_ c') = Some g ∧ r = true
  | ksets =>
      ∃ goals, Forall2 sampler_for ksets goals ∧
        goal (ompl_simple_setup_ c') = Some (GoalSampleableRegionMux goals) ∧ r = true
  end.
Proof.
  intros Hrun Hne sampler_of sampler_for. unfold setGoalConstraints in Hrun.
  bind_inv Hrun gcs Hgcs. destruct gcs as [|kset0 gcs].
  { injection Hrun as <- <- <-. done. }
  injection Hrun as <- <- <-. clear Hne. subst sampler_for sampler_of.
  unfold constructGoal.
  cbn [goal ompl_simple_setup_ with_simple_setup setGoal goal_constraints_
       with_goal_constraints spec_ planning_scene_].
  pose proof (constructGoal_goals_with_sampler (constraint_sampler_manager_ (spec_ c))
                (planning_scene_ c) (group_name (joint_model_group_ (spec_ c)))
                (kset0 :: gcs)) as Hall.
  cbv zeta in Hall.
  destruct (constructGoal_goals _ _ _ (kset0 :: gcs)) as [|g1 [|g2 goals]];
    inversion Hall as [|k1 ? ksets ? H1 Hrest Hk]; subst; [done| |].
  - inversion Hrest; subst. exists g1. done.
  - inversion Hrest as [|k2 ? ksets2 ? H2 Hrest2 Hk2]; subst.
    exists (g1 :: g2 :: goals). split; [|done].
    constructor; [done|]. constructor; done.
Qed.

Lemma merged_goal_constraints_all_empty scene goal_constraints path_constraints :
  Forall (λ g, empty (add (mergeConstraints g path_constraints)
                        (newKinematicConstraintSet scene)) = true) goal_constraints →
  merged_goal_constraints scene goal_constraints path_constraints = [].
Proof.
  induction 1 as [|g gs Hg _ IH]; simpl; [done|]. by rewrite Hg.
Qed.

(** X12.  When every goal constraint message, merged with the path
    constraints, gives an empty constraint set (in particular when there is
    no message), [setGoalConstraints] answers false, writes
    [INVALID_GOAL_CONSTRAINTS] through a non-null error pointer, leaves
    [goal_constraints_] empty and does not touch the simple setup: a goal
    set by an earlier call stays. *)
Theorem setGoalConstraints_nothing_to_solve goal_constraints path_constraints error c scene :
  planning_scene_ c = Some scene →
  Forall (λ g, empty (add (mergeConstraints g path_constraints)
                        (newKinematicConstraintSet scene)) = true) goal_constraints →
  ∃ c',
    setGoalConstraints goal_constraints path_constraints error c
    = Some (false, (λ _, INVALID_GOAL_CONSTRAINTS) <$> error, c') ∧
    goal_constraints_ c' = [] ∧
    ompl_simple_setup_ c' = ompl_simple_setup_ c.
Proof.
  intros Hscene Hall. unfold setGoalConstraints. rewrite Hscene.
  destruct goal_constraints as [|g gs]; simpl.
  - eexists. split; [by destruct error|done].
  - apply Forall_cons in Hall as [Hg Hall]. rewrite Hg.
    rewrite (merged_goal_constraints_all_empty _ _ _ Hall). simpl.
    eexists. split; [by destruct error|done].
Qed.

(** ** The exported trajectory *)

Lemma convertPath_from_spec pg :
  ∀ ks traj,
    let traj' := convertPath_from ks pg traj in
    length traj' = (length traj + length pg)%nat ∧
    (∀ k, (k < length traj)%nat → traj' !! k = traj !! k) ∧
    (∀ k st, pg !! k = Some st →
       traj' !! (length traj + k)%nat
       = Some (copyToRobotState
                 (match k with
                  | O => ks
                  | S k' => default ks (fst <$> traj' !! (length traj + k')%nat)
                  end) st, double_zero)).
Proof.
  induction pg as [|st0 pg IH]; intros ks traj; simpl.
  - split; [lia|]. split; [done|]. intros k st Hk. done.
  - destruct (IH (copyToRobotState ks st0) (traj ++ [(copyToRobotState ks st0, double_zero)]))
      as (Hlen & Hold & Hnew).
    rewrite length_app in Hlen, Hold, Hnew. simpl in Hlen, Hold, Hnew.
    split; [lia|]. split.
    { intros k Hk. rewrite Hold by lia. by apply lookup_app_l. }
    assert (convertPath_from (copyToRobotState ks st0) pg
              (traj ++ [(copyToRobotState ks st0, double_zero)]) !! length traj
            = Some (copyToRobotState ks st0, double_zero)) as Hfirst.
    { rewrite Hold by lia. apply list_lookup_middle. done. }
    intros [|k] st Hk; simpl in Hk.
    + injection Hk as <-. by rewrite Nat.add_0_r.
    + specialize (Hnew k st Hk).
      replace (length traj + S k)%nat with (length traj + 1 + k)%nat by lia.
      rewrite Hnew. destruct k as [|k].
      * by rewrite Nat.add_0_r, Hfirst.
      * replace (length traj + S k)%nat with (length traj + 1 + k)%nat by lia.
        apply lookup_lt_Some in Hk.
        destruct (lookup_lt_is_Some_2
                    (convertPath_from (copyToRobotState ks st0) pg
                       (traj ++ [(copyToRobotState ks st0, double_zero)]))
                    (length traj + 1 + k)%nat) as [wp ->]; [lia|done].
Qed.

(** X10.  [getSolutionPath] answers false and leaves the trajectory empty
    when the simple setup has no solution path.  Otherwise it answers true
    and the trajectory has one waypoint per state of the path, each with
    duration 0.0; waypoint k is what [copyToRobotState] makes of waypoint
    k - 1 (of the complete initial robot state for k = 0) and state k: the
    robot state is threaded through the path. *)
Theorem getSolutionPath_waypoints ks traj c :
  let '(answer, traj') := getSolutionPath ks traj c in
  match solution_paths (ompl_simple_setup_ c) with
  | [] => answer = false ∧ traj' = []
  | pg :: _ =>
      answer = true ∧ length traj' = length pg ∧
      ∀ k st, pg !! k = Some st →
        traj' !! k
        = Some (copyToRobotState
                  (match k with
                   | O => ks
                   | S k' => default ks (fst <$> traj' !! k')
                   end) st, double_zero)
  end.
Proof.
  unfold getSolutionPath, convertPath.
  destruct (solution_paths (ompl_simple_setup_ c)) as [|pg rest]; [done|].
  destruct (convertPath_from_spec pg ks []) as (Hlen & _ & Hnew).
  split; [done|]. split; [done|]. exact Hnew.
Qed.

(** ** useConfig *)

(** X15.  A call of [useConfig] that returns binds a planner allocator for
    the [type] entry of the configuration, and only for it; what it hands to
    [setParams] is the configuration without its [projection_evaluator] and
    [type] entries, and nothing at all when the configuration has no entry
    besides [projection_evaluator]. *)
Theorem useConfig_actions config c c' acts :
  useConfig config c = Returns (c', acts) →
  bound_planner acts = config !! "type"%string ∧
  forwarded_params acts
  = if bool_decide (delete "projection_evaluator"%string config = ∅) then None
    else Some (delete "type"%string (delete "projection_evaluator"%string config)).
Proof.
  unfold useConfig. intros Hrun.
  case_bool_decide as Hempty.
  { injection Hrun as <- <-. subst config.
    rewrite delete_empty, lookup_empty. by rewrite bool_decide_true. }
  assert (∀ c1 : ModelBasedPlanningContext (State := State) (W := W),
            (if bool_decide (delete "projection_evaluator"%string config = ∅)
             then Returns (c1, [])
             else
               let group := group_name (joint_model_group_ (spec_ c1)) in
               let '(c2, cfg2, acts) :=
                 match delete "projection_evaluator"%string config !! "type"%string with
                 | None => (c1, delete "projection_evaluator"%string config, [])
                 | Some type =>
                     (with_simple_setup (setPlannerAllocator (ompl_simple_setup_ c1)) c1,
                      delete "type"%string (delete "projection_evaluator"%string config),
                      [SetPlannerAllocator type
                         (if bool_decide (name_ c1 ≠ group) then name_ c1 else ""%string)])
                 end in
               Returns (c2, acts ++ [SpaceInformationSetup; SetParams cfg2;
                                     SpaceInformationSetup]))
            = Returns (c', acts) →
            bound_planner acts = config !! "type"%string ∧
            forwarded_params acts
            = if bool_decide (delete "projection_evaluator"%string config = ∅) then None
              else Some (delete "type"%string
                           (delete "projection_evaluator"%string config))) as Hrest.
  { intros c1 Hr. rewrite lookup_delete_ne in Hr by done.
    case_bool_decide as Hd.
    - injection Hr as <- <-. split; [|done]. simpl.
      destruct (config !! "type"%string) as [t|] eqn:Et; [|done].
      exfalso. assert (delete "projection_evaluator"%string config !! "type"%string
                       = Some t) as Hl by (by rewrite lookup_delete_ne).
      rewrite Hd, lookup_empty in Hl. done.
    - destruct (config !! "type"%string) as [t|] eqn:Et.
      + injection Hr as <- <-. done.
      + injection Hr as <- <-. simpl. split; [done|].
        rewrite (delete_id (delete "projection_evaluator"%string config) "type"%string);
          [done|by rewrite lookup_delete_ne]. }
  destruct (config !! "projection_evaluator"%string) as [peval|] eqn:Epe.
  - destruct (setProjectionEvaluator _ _ _ _) as [ss|]; [|done].
    by apply (Hrest (with_state_space ss c)).
  - rewrite (delete_id config "projection_evaluator"%string) by done.
    rewrite (delete_id config "projection_evaluator"%string) in Hrest by done.
    by apply (Hrest c).
Qed.

End MoreContextFacts.

Section ContextSafety.
Context {State W : Type}.
Context `{SI : Follower.SpaceInformation State} `{PI : Follower.PlannerInputs State W}.
Context `{MI : MoveIt} `{EN : PlanningEngine State W} `{RS : !RobotStates State W}.
Implicit Types (c : ModelBasedPlanningContext (State := State) (W := W)).

(** ** When [solve] and [follow] are defined *)

Lemma solve_needs_goal timeout count c w :
  is_Some (solve timeout count c w) → is_Some (goal (ompl_simple_setup_ c)).
Proof.
  intros [[[[r c'] w'] evs] Hrun]. unfold solve in Hrun. bind_inv Hrun c0 Hc0.
  by apply preSolve_spec in Hc0 as (_ & _ & _ & ?).
Qed.

Lemma follow_needs_goal timeout count c w :
  is_Some (follow timeout count c w) → is_Some (goal (ompl_simple_setup_ c)).
Proof.
  intros [[[[r c'] w'] evs] Hrun]. unfold follow in Hrun. bind_inv Hrun c0 Hc0.
  by apply preSolve_spec in Hc0 as (_ & _ & _ & ?).
Qed.

Lemma follow_defined timeout count c w :
  is_Some (goal (ompl_simple_setup_ c)) → is_Some (follow timeout count c w).
Proof.
  intros Hgoal. unfold follow.
  destruct (preSolve_defined _ Hgoal) as [c0 Hc0]. rewrite Hc0. simpl.
  apply preSolve_spec in Hc0 as (_ & _ & Hg0 & _).
  destruct (timedPlannerTerminationCondition timeout w) as [ptc w1]. simpl.
  rewrite Hg0. destruct Hgoal as [g Hg]. rewrite Hg. simpl.
  destruct (FollowerSafety.follow_outcome (is_sampleable_region g)
              (nextStart (ompl_simple_setup_ c0)) (follow_samplers_ c0) ptc w1)
    as (r & Hr & _).
  rewrite Hr. simpl.
  rewrite postSolve_defined; [by eexists|]. simpl. by rewrite Hg0, Hg.
Qed.

(** X6.  [solve(timeout, count)] has a defined behaviour exactly when the
    goal of the simple setup is not null (it is dereferenced by [preSolve]
    and [postSolve]) and, for [count > 1], [max_planning_threads_] is not
    zero (a [count] above it is divided by it). *)
Theorem solve_defined_iff timeout count c w :
  is_Some (solve timeout count c w) ↔
  is_Some (goal (ompl_simple_setup_ c)) ∧ (count ≤ 1 ∨ max_planning_threads_ c ≠ 0).
Proof.
  split.
  - intros Hdef. split; [by eapply solve_needs_goal|].
    destruct Hdef as [[[[r c'] w'] evs] Hrun].
    destruct (decide (count ≤ 1)) as [|H1]; [by left|]. right.
    destruct (decide (count ≤ max_planning_threads_ c)) as [|H2]; [lia|].
    by apply solve_batched_spec in Hrun as [? _].
  - intros [Hgoal Hm].
    destruct (decide (count ≤ 1)) as [H1|H1];
      [|destruct (decide (count ≤ max_planning_threads_ c)) as [H2|H2]].
    + unfold solve.
      destruct (preSolve_defined _ Hgoal) as [c0 Hc0]. rewrite Hc0. simpl.
      apply preSolve_spec in Hc0 as (_ & _ & Hg0 & _).
      rewrite bool_decide_true by done.
      destruct (timedPlannerTerminationCondition timeout w) as [ptc w1].
      destruct (simple_setup_solve ptc w1) as [st w2]. simpl.
      rewrite postSolve_defined; [by eexists|]. simpl. by rewrite Hg0.
    + unfold solve.
      destruct (preSolve_defined _ Hgoal) as [c0 Hc0]. rewrite Hc0. simpl.
      apply preSolve_spec in Hc0 as (_ & Hm0 & Hg0 & _).
      rewrite bool_decide_false by done.
      rewrite bool_decide_true by (by rewrite Hm0).
      destruct (timedPlannerTerminationCondition timeout w) as [ptc w1].
      destruct (parallel_plan_solve _ _ _ _ _ _) as [st w2]. simpl.
      rewrite postSolve_defined; [by eexists|]. simpl. by rewrite Hg0.
    + apply solve_batched_defined; [done..|lia|done].
Qed.

(** [follow], past [pis_.checkValidity()], is defined exactly when the
    goal of the simple setup is not null. *)
Lemma follow_defined_iff timeout count c w :
  is_Some (follow timeout count c w) ↔ is_Some (goal (ompl_simple_setup_ c)).
Proof. split; [apply follow_needs_goal|apply follow_defined]. Qed.

(** X9.  After [follow] has returned, [getSolutionPath] answers what
    [follow] answered.  When that is true the simple setup holds exactly
    one solution path, whatever it held before the call, and the trajectory
    has one waypoint per sampler plus two; when it is false the simple setup
    holds no solution path and the trajectory is empty. *)
Theorem follow_then_getSolutionPath timeout count c w r c' w' evs ks traj :
  follow timeout count c w = Some (r, c', w', evs) →
  ∃ traj',
    getSolutionPath ks traj c' = (r, traj') ∧
    length traj' = (if r then length (follow_samplers_ c) + 2 else 0)%nat ∧
    length (solution_paths (ompl_simple_setup_ c')) = (if r then 1 else 0)%nat.
Proof.
  intros Hrun. unfold follow in Hrun. bind_inv Hrun c0 Hc0.
  destruct (timedPlannerTerminationCondition timeout w) as [ptc w1].
  bind_inv Hrun g Hg. bind_inv Hrun fr Hfr. bind_inv Hrun c4 Hc4.
  injection Hrun as <- <- <- <-.
  apply postSolve_spec in Hc4 as ->.
  unfold preSolve in Hc0. bind_inv Hc0 g0 Hg0. injection Hc0 as <-.
  simpl in Hfr.
  match type of Hfr with
  | Follower.follow ?gs ?starts ?samplers ?p ?w0 = _ =>
      destruct (FollowerSafety.follow_outcome gs starts samplers p w0)
        as (fr' & Hfr' & _ & Hst)
  end.
  rewrite Hfr in Hfr'. injection Hfr' as <-.
  unfold getSolutionPath. simpl. unfold is_exact.
  destruct (Follower.status fr);
    try done;
    try (destruct Hst as (_ & _ & ->); rewrite bool_decide_false by done;
         by eexists);
    try (destruct Hst as (_ & ->); rewrite bool_decide_false by done;
         by eexists).
  destruct Hst as (_ & _ & path & -> & Hlen & _).
  rewrite bool_decide_true by done. simpl.
  eexists. split; [done|]. split; [|done].
  unfold convertPath.
  destruct (convertPath_from_spec path ks []) as (Hl & _). simpl in Hl.
  rewrite Hl, Hlen.
  match type of Hfr with
  | Follower.follow ?gs ?starts ?samplers ?p ?w0 = _ =>
      destruct (FollowerSafety.follow_outcome gs starts samplers p w0)
        as (fr' & Hfr' & Hlay & _)
  end.
  rewrite Hfr in Hfr'. injection Hfr' as <-.
  apply Hlay. by destruct g.
Qed.

(** X13.  After [setGoalConstraints] has stored at least one constraint
    set, its answer tells whether the context can be solved: [follow] has a
    defined behaviour exactly when the answer was true, and so has [solve]
    for one run; after the answer false the goal is null and both
    dereference it. *)
Theorem setGoalConstraints_then_follow goal_constraints path_constraints error c
    r error' c' timeout count w :
  setGoalConstraints goal_constraints path_constraints error c = Some (r, error', c') →
  goal_constraints_ c' ≠ [] →
  (is_Some (follow timeout count c' w) ↔ r = true) ∧
  (is_Some (solve timeout 1 c' w) ↔ r = true).
Proof.
  intros Hrun Hne.
  assert (is_Some (goal (ompl_simple_setup_ c')) ↔ r = true) as Hgoal.
  { unfold setGoalConstraints in Hrun.
    bind_inv Hrun gcs Hgcs. destruct gcs as [|kset0 gcs].
    { injection Hrun as <- <- <-. done. }
    injection Hrun as <- <- <-. simpl.
    destruct (constructGoal _); split; (done || by intros []). }
  split.
  - rewrite <- Hgoal. split; [apply follow_needs_goal|apply follow_defined].
  - rewrite <- Hgoal. split; [apply solve_needs_goal|].
    intros Hg. unfold solve.
    destruct (preSolve_defined _ Hg) as [c0 Hc0]. rewrite Hc0. simpl.
    apply preSolve_spec in Hc0 as (_ & _ & Hg0 & _).
    destruct (timedPlannerTerminationCondition timeout w) as [ptc w1].
    destruct (simple_setup_solve ptc w1) as [st w2]. simpl.
    rewrite postSolve_defined; [by eexists|]. simpl. by rewrite Hg0.
Qed.

(** X14.  After [clear] the context holds no solution path
    ([getSolutionPath] answers false), allocates the default state sampler
    for its own state space without consulting the library or the manager,
    and has a null goal: [solve] and [follow] dereference it. *)
Theorem clear_resets c ss ks traj timeout count w :
  getSolutionPath ks traj (clear c) = (false, []) ∧
  allocPathConstrainedSampler ss (clear c)
  = (if bool_decide (address <$> state_space_ (spec_ c) = Some ss)
     then (Some (DefaultStateSampler ss), [])
     else (None, [])) ∧
  solve timeout count (clear c) w = None ∧
  follow timeout count (clear c) w = None.
Proof.
  split; [done|]. split; [|done].
  unfold allocPathConstrainedSampler, clear. simpl.
  case_bool_decide as H1.
  - by rewrite bool_decide_false by (by intros ?).
  - by rewrite bool_decide_true.
Qed.

(** X19.  [useConfig] raises an exception of its own in one case only: the
    configuration has a [projection_evaluator] entry, a state space is
    configured, and [getProjectionEvaluator] throws on the trimmed entry
    (its [substr] is out of range).  Otherwise it returns, the planner
    selector and the space information permitting. *)
Theorem useConfig_throws_iff config c :
  useConfig config c = Throws ↔
  ∃ peval,
    config !! "projection_evaluator"%string = Some peval ∧
    is_Some (state_space_ (spec_ c)) ∧
    getProjectionEvaluator (robot_model_ (spec_ c)) (joint_model_group_ (spec_ c))
      (Trim.trim_copy peval) = Throws.
Proof.
  unfold useConfig. case_bool_decide as Hempty.
  { split; [done|]. intros (peval & Hp & _). subst config.
    by rewrite lookup_empty in Hp. }
  assert (∀ (c1 : ModelBasedPlanningContext (State := State) (W := W)) cfg,
            (if bool_decide (cfg = ∅) then Returns (c1, [])
             else
               let group := group_name (joint_model_group_ (spec_ c1)) in
               let '(c2, cfg2, acts) :=
                 match cfg !! "type"%string with
                 | None => (c1, cfg, [])
                 | Some type =>
                     (with_simple_setup (setPlannerAllocator (ompl_simple_setup_ c1)) c1,
                      delete "type"%string cfg,
                      [SetPlannerAllocator type
                         (if bool_decide (name_ c1 ≠ group) then name_ c1 else ""%string)])
                 end in
               Returns (c2, acts ++ [SpaceInformationSetup; SetParams cfg2;
                                     SpaceInformationSetup]))
            ≠ Throws) as Hrest.
  { intros c1 cfg. case_bool_decide; [done|].
    by destruct (cfg !! "type"%string). }
  destruct (config !! "projection_evaluator"%string) as [peval|] eqn:Epe.
  - unfold setProjectionEvaluator.
    destruct (state_space_ (spec_ c)) as [ss|] eqn:Ess.
    + destruct (getProjectionEvaluator _ _ (Trim.trim_copy peval)) as [pe|] eqn:Eg.
      * split.
        { intros H. exfalso.
          destruct pe as [pe|].
          - exact (Hrest (with_state_space (Some (registerDefaultProjection pe ss)) c)
                     (delete "projection_evaluator"%string config) H).
          - exact (Hrest (with_state_space (Some ss) c)
                     (delete "projection_evaluator"%string config) H). }
        { intros (p & Hp & _ & Hthrow). injection Hp as <-. congruence. }
      * split; [|done]. intros _. exists peval. split; [done|]. split; [by eexists|done].
    + split.
      * intros H. exfalso.
        exact (Hrest (with_state_space None c)
                 (delete "projection_evaluator"%string config) H).
      * intros (p & _ & [? ?] & _). done.
  - split.
    + intros H. exfalso. exact (Hrest c config H).
    + by intros (p & ? & _).
Qed.

End ContextSafety.

Section ContextExitFacts.
Context {State W : Type}.
Context `{SI : Follower.SpaceInformation State} `{PI : Follower.PlannerInputs State W}.
Context `{MI : MoveIt} `{EN : PlanningEngine State W} `{EF : EngineFaults W}.
Implicit Types (c : ModelBasedPlanningContext (State := State) (W := W)).

(** ** The exits of [solve] and [follow] *)

Lemma run_batch_exits_spec n maxSol ptc c w :
  match run_batch_exits n maxSol ptc c w with
  | Returned res => res = run_batch n maxSol ptc c w
  | Unwound c' w' evs => ptc_ c' = ptc_ c ∧ evs = []
  end.
Proof.
  unfold run_batch_exits.
  by destruct (parallel_plan_solve_throws _ _ _ _ _ _).
Qed.

Lemma full_batches_exits_spec k :
  ∀ ptc c w result,
    match full_batches_exits k ptc c w result with
    | Returned res => res = full_batches k ptc c w result
    | Unwound c' w' evs => ptc_ c' = ptc_ c ∧ registrations evs = []
    end.
Proof.
  induction k as [|k IH]; intros ptc c w result; simpl; [done|].
  destruct (ptc_eval ptc) as [[] ptc1]; [done|].
  pose proof (run_batch_exits_spec (Z.to_nat (max_planning_threads_ c))
                (max_planning_threads_ c) ptc1 c w) as Hb.
  destruct (run_batch_exits _ _ _ _ _) as [[[[r c1] w1] ev]|c1 w1 evs1].
  - rewrite <- Hb.
    symmetry in Hb. apply run_batch_spec in Hb as (_ & Hp & _ & pool & st & -> & _).
    specialize (IH ptc1 c1 w1 (result && r)).
    destruct (full_batches_exits k ptc1 c1 w1 (result && r))
      as [[[[[ptc2 c2] w2] result2] evs]|c2 w2 evs].
    + by rewrite <- IH.
    + destruct IH as [IH1 IH2]. simpl. split; [congruence|done].
  - destruct Hb as [Hp ->]. done.
Qed.

(** When no planner throws, [solve] returns, and what it returns is what
    [solve_exits] returns. *)
Lemma solve_exits_returns timeout count c w :
  planners_never_throw →
  solve_exits timeout count c w = Returned <$> solve timeout count c w.
Proof.
  intros [Hs Hp]. unfold solve_exits, solve.
  destruct (preSolve c) as [c0|]; [|done]. simpl.
  destruct (timedPlannerTerminationCondition timeout w) as [ptc w1].
  case_bool_decide as H1.
  { rewrite Hs. destruct (simple_setup_solve ptc w1) as [st w2]. simpl.
    by destruct (postSolve _). }
  case_bool_decide as H2.
  { rewrite Hp. destruct (parallel_plan_solve _ _ _ _ _ _) as [st w2]. simpl.
    by destruct (postSolve _). }
  case_bool_decide as Hz; [done|].
  assert (∀ k p c1 w1 res,
            full_batches_exits k p c1 w1 res = Returned (full_batches k p c1 w1 res))
    as Hfull.
  { induction k as [|k IH]; intros p c1 w1' res; simpl; [done|].
    destruct (ptc_eval p) as [[] p1]; [done|].
    unfold run_batch_exits. rewrite Hp.
    destruct (run_batch _ _ _ _ _) as [[[r c2] w2] ev].
    rewrite IH. by destruct (full_batches k p1 c2 w2 (res && r)) as [[[[? ?] ?] ?] ?]. }
  rewrite Hfull.
  destruct (full_batches _ _ _ _ _) as [[[[ptc1 c2] w2] res1] evs1].
  case_bool_decide as Hn.
  { simpl. by destruct (postSolve _). }
  destruct (ptc_eval ptc1) as [[] ptc2].
  { simpl. by destruct (postSolve _). }
  unfold run_batch_exits. rewrite Hp.
  destruct (run_batch _ _ _ _ _) as [[[rb c3] w3] ev].
  simpl. by destruct (postSolve _).
Qed.


Lemma solve_exits_registration timeout count c w e :
  solve_exits timeout count c w = Some e →
  match e with
  | Returned (_, c', _, evs) =>
      ptc_ c' = None ∧ ∃ ptc, registrations evs = [EvRegister ptc; EvUnregister]
  | Unwound c' _ evs =>
      ∃ ptc, ptc_ c' = Some ptc ∧ registrations evs = [EvRegister ptc]
  end.
Proof.
  intros Hrun. unfold solve_exits in Hrun. bind_inv Hrun c0 Hc0.
  destruct (timedPlannerTerminationCondition timeout w) as [ptc w1].
  case_bool_decide as H1.
  { destruct (simple_setup_solve_throws ptc w1).
    - injection Hrun as <-. by exists ptc.
    - destruct (simple_setup_solve ptc w1) as [st w2]. simpl in Hrun.
      bind_inv Hrun c4 Hc4. injection Hrun as <-.
      apply postSolve_spec in Hc4 as ->. split; [done|]. by exists ptc. }
  case_bool_decide as H2.
  { destruct (parallel_plan_solve_throws _ _ _ _ _ _).
    - injection Hrun as <-. by exists ptc.
    - destruct (parallel_plan_solve _ _ _ _ _ _) as [st w2]. simpl in Hrun.
      bind_inv Hrun c4 Hc4. injection Hrun as <-.
      apply postSolve_spec in Hc4 as ->. split; [done|]. by exists ptc. }
  case_bool_decide as Hz; [done|].
  match type of Hrun with
  | context [full_batches_exits ?k ?p ?c1 ?w0 ?res] =>
      pose proof (full_batches_exits_spec k p c1 w0 res) as Hfull;
      destruct (full_batches_exits k p c1 w0 res)
        as [[[[[ptc1 c2] w2] res1] evs1]|c2 w2 evs1]
  end.
  2:{ injection Hrun as <-. destruct Hfull as [Hp Hr]. exists ptc.
      split; [by rewrite Hp|]. simpl. by rewrite Hr. }
  symmetry in Hfull.
  apply full_batches_spec in Hfull as (_ & Hp2 & _ & _ & Hreg & _).
  case_bool_decide as Hn.
  { simpl in Hrun. bind_inv Hrun c4 Hc4. injection Hrun as <-.
    apply postSolve_spec in Hc4 as ->. split; [done|]. exists ptc.
    simpl. rewrite !registrations_app, Hreg. done. }
  destruct (ptc_eval ptc1) as [[] ptc2].
  { simpl in Hrun. bind_inv Hrun c4 Hc4. injection Hrun as <-.
    apply postSolve_spec in Hc4 as ->. split; [done|]. exists ptc.
    simpl. rewrite !registrations_app, Hreg. done. }
  match type of Hrun with
  | context [run_batch_exits ?n ?m ?p ?c1 ?w0] =>
      pose proof (run_batch_exits_spec n m p c1 w0) as Hb;
      destruct (run_batch_exits n m p c1 w0) as [[[[rb c3] w3] ev]|c3 w3 evs2]
  end.
  - symmetry in Hb. apply run_batch_spec in Hb as (_ & _ & _ & pool & st & -> & _).
    simpl in Hrun. bind_inv Hrun c4 Hc4. injection Hrun as <-.
    apply postSolve_spec in Hc4 as ->. split; [done|]. exists ptc.
    simpl. rewrite !registrations_app, Hreg. done.
  - injection Hrun as <-. destruct Hb as [Hp3 ->]. exists ptc.
    split; [by rewrite Hp3, Hp2|].
    simpl. rewrite !registrations_app, Hreg. done.
Qed.

(** [f.follow] throws at once when the problem definition has no start
    state: [follow] is left with the condition registered. *)
Lemma follow_exits_throws timeout count c w :
  is_Some (goal (ompl_simple_setup_ c)) →
  start_states (ompl_simple_setup_ c) = [] →
  ∃ c0,
    preSolve c = Some c0 ∧
    follow_exits timeout count c w
    = Some (Unwound
              (registerTerminationCondition
                 (timedPlannerTerminationCondition timeout w).1 c0)
              (timedPlannerTerminationCondition timeout w).2
              [EvRegister (timedPlannerTerminationCondition timeout w).1]).
Proof.
  intros [g Hg] Hs. unfold follow_exits, preSolve.
  rewrite Hg. simpl. eexists. split; [done|].
  destruct (timedPlannerTerminationCondition timeout w) as [ptc w1]. simpl.
  unfold checkValidity. simpl. by rewrite Hs.
Qed.

(** With a start state [f.follow] gets past [pis_.checkValidity()], and
    [follow] returns what the Follower gives. *)
Lemma follow_exits_returns timeout count c w :
  start_states (ompl_simple_setup_ c) ≠ [] →
  follow_exits timeout count c w = Returned <$> follow timeout count c w.
Proof.
  intros Hs. unfold follow_exits, follow, preSolve.
  destruct (goal (ompl_simple_setup_ c)) as [g|] eqn:Hg; [|done]. simpl.
  destruct (timedPlannerTerminationCondition timeout w) as [ptc w1]. simpl.
  unfold checkValidity. simpl. rewrite ?Hg.
  destruct (start_states (ompl_simple_setup_ c)) as [|s0 starts]; [done|]. simpl.
  rewrite ?Hg. simpl.
  by destruct (Follower.follow _ _ _ _ _) as [r|].
Qed.

Lemma follow_exits_registration timeout count c w e :
  follow_exits timeout count c w = Some e →
  match e with
  | Returned (_, c', _, evs) =>
      ptc_ c' = None ∧ ∃ ptc, registrations evs = [EvRegister ptc; EvUnregister]
  | Unwound c' _ evs =>
      ∃ ptc, ptc_ c' = Some ptc ∧ registrations evs = [EvRegister ptc]
  end.
Proof.
  intros Hrun. unfold follow_exits in Hrun. bind_inv Hrun c0 Hc0.
  destruct (timedPlannerTerminationCondition timeout w) as [ptc w1].
  destruct (checkValidity _).
  - bind_inv Hrun g Hg. bind_inv Hrun r Hr. bind_inv Hrun c4 Hc4.
    injection Hrun as <-. apply postSolve_spec in Hc4 as ->.
    split; [done|]. by exists ptc.
  - injection Hrun as <-. by exists ptc.
Qed.

(** C7.  The exits of [solve] and [follow], among them the exception a
    planner or [pis_.checkValidity()] of the Follower throws after the
    termination condition was registered.  A call that returns has
    unregistered the condition: [ptc_] is null.  A call that an exception
    leaves has not: no [unregisterTerminationCondition] follows the
    [registerTerminationCondition], [ptc_] still points to the condition,
    a local variable of the call that is left, and [terminateSolve]
    afterwards calls [terminate()] on it.  [follow] ends so on every
    context that has a goal and no start state. *)
Theorem exception_skips_unregistration timeout count c w :
  (∀ e,
     solve_exits timeout count c w = Some e ∨ follow_exits timeout count c w = Some e →
     match e with
     | Returned (_, c', _, evs) =>
         ptc_ c' = None ∧ terminateSolve c' = c' ∧
         ∃ ptc, registrations evs = [EvRegister ptc; EvUnregister]
     | Unwound c' _ evs =>
         ∃ ptc, ptc_ c' = Some ptc ∧
                terminateSolve c' = with_ptc (Some (ptc_terminate ptc)) c' ∧
                registrations evs = [EvRegister ptc]
     end) ∧
  (is_Some (goal (ompl_simple_setup_ c)) →
   start_states (ompl_simple_setup_ c) = [] →
   ∃ c' w' evs, follow_exits timeout count c w = Some (Unwound c' w' evs)).
Proof.
  split.
  - intros e He.
    assert (match e with
            | Returned (_, c', _, evs) =>
                ptc_ c' = None ∧ ∃ ptc, registrations evs = [EvRegister ptc; EvUnregister]
            | Unwound c' _ evs =>
                ∃ ptc, ptc_ c' = Some ptc ∧ registrations evs = [EvRegister ptc]
            end) as Hreg.
    { destruct He as [He|He];
        [exact (solve_exits_registration _ _ _ _ _ He)
        |exact (follow_exits_registration _ _ _ _ _ He)]. }
    destruct e as [[[[r c'] w'] evs]|c' w' evs].
    + destruct Hreg as [Hp Hr]. split; [done|]. split; [|done].
      unfold terminateSolve. by rewrite Hp.
    + destruct Hreg as (ptc & Hp & Hr). exists ptc. split; [done|]. split; [|done].
      unfold terminateSolve. by rewrite Hp.
  - intros Hg Hs.
    destruct (follow_exits_throws timeout count c w Hg Hs) as (c0 & _ & ->). eauto.
Qed.

(** X7.  [follow(timeout, count)] has a defined behaviour exactly when the
    goal of the simple setup is not null.  With a goal, it is left by the
    exception of [pis_.checkValidity()] exactly when the problem definition
    has no start state; with a start state, valid or not, it returns, after
    the finitely many polls the termination condition answers false to,
    and the exits of the call are those of [follow]. *)
Theorem follow_exits_defined_iff timeout count c w :
  (is_Some (follow_exits timeout count c w) ↔ is_Some (goal (ompl_simple_setup_ c))) ∧
  ∀ e, follow_exits timeout count c w = Some e →
    match e with
    | Unwound _ _ _ => start_states (ompl_simple_setup_ c) = []
    | Returned res =>
        start_states (ompl_simple_setup_ c) ≠ [] ∧ follow timeout count c w = Some res
    end.
Proof.
  assert (∀ e, follow_exits timeout count c w = Some e →
            is_Some (goal (ompl_simple_setup_ c))) as Hneeds.
  { intros e Hrun. unfold follow_exits in Hrun. bind_inv Hrun c0 Hc0.
    by apply preSolve_spec in Hc0 as (_ & _ & _ & ?). }
  split; [split|].
  - intros [e He]. eauto.
  - intros Hg.
    destruct (decide (start_states (ompl_simple_setup_ c) = [])) as [Hs|Hs].
    + destruct (follow_exits_throws timeout count c w Hg Hs) as (c0 & _ & ->). eauto.
    + rewrite follow_exits_returns by done.
      destruct (follow_defined timeout count c w Hg) as [res ->]. simpl. eauto.
  - intros e He. pose proof (Hneeds e He) as Hg.
    destruct (decide (start_states (ompl_simple_setup_ c) = [])) as [Hs|Hs].
    + destruct (follow_exits_throws timeout count c w Hg Hs) as (c0 & _ & Hrun).
      rewrite Hrun in He. injection He as <-. done.
    + rewrite follow_exits_returns in He by done.
      destruct (follow timeout count c w) as [res|]; [|done].
      injection He as <-. done.
Qed.

End ContextExitFacts.

Section Interpolation.
Context {State W : Type}.
Context `{SI : Follower.SpaceInformation State} `{PI : Follower.PlannerInputs State W}.
Context `{MI : MoveIt} `{EN : PlanningEngine State W}.
Implicit Types (c : ModelBasedPlanningContext (State := State) (W := W)).

(** ** The way points of the interpolated solution *)

(** [interpolateSolution] is undefined in one case only: there is a
    solution path and the rounded quotient is no [unsigned int]. *)
Lemma interpolateSolution_defined_iff c :
  is_Some (interpolateSolution c) ↔
  ∀ pg, head (solution_paths (ompl_simple_setup_ c)) = Some pg →
        is_Some (rounded_segments (path_length pg) (max_solution_segment_length_ c)).
Proof.
  unfold interpolateSolution.
  destruct (solution_paths (ompl_simple_setup_ c)) as [|pg others]; simpl.
  - split; [intros _ pg Hpg; discriminate|eauto].
  - destruct (rounded_segments _ _) as [n|] eqn:Hn; simpl.
    + split; [|eauto]. intros _ pg' [= <-]. rewrite Hn. eauto.
    + split; [by intros [? ?]|]. intros Hpg.
      destruct (Hpg pg eq_refl) as [n Hn']. congruence.
Qed.

(** C8, amended.  [interpolateSolution] works on the solution path of the
    simple setup, the first of the stored ones, and leaves the other stored
    paths as they are.  Let that path have at least two states, or already
    as many as are asked for, and let the rounded quotient
    [floor(0.5 + pathLength / maxSolutionSegmentLength)], computed in double
    arithmetic, be a value of [unsigned int] (it is none for the segment
    length 0.0 the constructor sets).  Then, with [interpolate] doing what
    OMPL documents, after the call the path has at least
    [max(rounded quotient, minimumWaypointCount)] way points: exactly that
    many when it had fewer, and it is unchanged otherwise.  When there is
    no solution path the call changes nothing. *)
Theorem interpolateSolution_waypoint_count c :
  interpolate_as_documented →
  (solution_paths (ompl_simple_setup_ c) = [] → interpolateSolution c = Some c) ∧
  ∀ pg others n,
    solution_paths (ompl_simple_setup_ c) = pg :: others →
    rounded_segments (path_length pg) (max_solution_segment_length_ c) = Some n →
    let count := Z.max n (minimum_waypoint_count_ c) in
    (2 ≤ length pg)%nat ∨ count ≤ Z.of_nat (length pg) →
    ∃ c' pg',
      interpolateSolution c = Some c' ∧
      solution_paths (ompl_simple_setup_ c') = pg' :: others ∧
      count ≤ Z.of_nat (length pg') ∧
      (Z.of_nat (length pg) < count → Z.of_nat (length pg') = count) ∧
      (count ≤ Z.of_nat (length pg) → pg' = pg).
Proof.
  intros Hdoc. split.
  { unfold interpolateSolution. by intros ->. }
  intros pg others n Hpaths Hn count Hlen.
  unfold interpolateSolution. rewrite Hpaths, Hn. simpl. fold count.
  eexists _, _. split; [done|]. split; [done|].
  destruct (Hdoc count pg) as [Hsame Hmore].
  destruct (decide (count ≤ Z.of_nat (length pg))) as [Hle|Hgt].
  - rewrite Hsame by done. split; [done|]. split; [lia|done].
  - assert (2 ≤ Z.of_nat (length pg) < count) as H2 by lia.
    rewrite (Hmore H2). split; [lia|]. split; [done|lia].
Qed.

End Interpolation.

(** ** The grammar of projection expressions *)

Section Grammar.
Implicit Types (s a b w : string) (c : ascii).

Lemma append_cons c a b :
  String.append (String c a) b = String c (String.append a b).
Proof. reflexivity. Qed.

Lemma append_nil b : String.append EmptyString b = b.
Proof. reflexivity. Qed.

Ltac app_simpl := rewrite ?append_cons, ?append_nil.

Lemma length_append a b :
  String.length (String.append a b) = (String.length a + String.length b)%nat.
Proof. induction a as [|c a IH]; app_simpl; simpl; [done|]. by rewrite IH. Qed.

Lemma append_empty_r a : String.append a EmptyString = a.
Proof. induction a as [|c a IH]; app_simpl; [done|]. by rewrite IH. Qed.

Lemma append_assoc a b w :
  String.append (String.append a b) w = String.append a (String.append b w).
Proof. induction a as [|c a IH]; app_simpl; [done|]. by rewrite IH. Qed.

Lemma substring_0_append a b :
  String.substring 0 (String.length a) (String.append a b) = a.
Proof.
  induction a as [|c a IH]; app_simpl; simpl.
  - by destruct b.
  - by rewrite IH.
Qed.

Lemma get_append_end a c :
  String.get (String.length a) (String.append a (String c EmptyString)) = Some c.
Proof. induction a as [|c' a IH]; app_simpl; simpl; done. Qed.

Lemma last_char_append a c :
  Str.last_char (String.append a (String c EmptyString)) = Some c.
Proof.
  unfold Str.last_char. rewrite length_append. simpl.
  replace (String.length a + 1 - 1)%nat with (String.length a) by lia.
  apply get_append_end.
Qed.

Lemma to_size_t_small z : 0 ≤ z < 2 ^ 64 → Str.to_size_t z = z.
Proof. intros. unfold Str.to_size_t. by apply Z.mod_small. Qed.

(** [s.substr(n, |body|)] of [pre ++ body ++ ")"], with [n] the length of
    [pre], is the body. *)
Lemma substr_body pre body n z :
  n = String.length pre → z = Z.of_nat (String.length body) → z < 2 ^ 64 →
  Str.substr (String.append pre (String.append body ")")) n (Str.to_size_t z)
  = Some body.
Proof.
  intros -> -> Hlen. unfold Str.substr.
  rewrite !length_append. simpl.
  rewrite decide_True by lia.
  rewrite to_size_t_small by lia.
  f_equal.
  replace (Z.to_nat _) with (String.length body) by lia.
  induction pre as [|c pre IH]; app_simpl; simpl.
  - apply substring_0_append.
  - apply IH.
Qed.

(** X16.  The expression [link(NAME)], for a name whose length fits
    [size_t], is read as the link NAME: a projection on its pose when the
    robot model has that link, null otherwise. *)
Theorem link_expression rm jmg name :
  Z.of_nat (String.length name) < 2 ^ 64 →
  getProjectionEvaluator rm jmg (String.append "link(" (String.append name ")"))
  = Returns (if hasLinkModel rm name
             then Some (ProjectionEvaluatorLinkPose name) else None).
Proof.
  intros Hlen. unfold getProjectionEvaluator.
  rewrite bool_decide_true by done.
  rewrite <- append_assoc, last_char_append, bool_decide_true by done.
  rewrite append_assoc. cbv zeta.
  rewrite (substr_body "link(" name).
  - cbn [andb]. by destruct (hasLinkModel rm name).
  - done.
  - rewrite !length_append. simpl. lia.
  - rewrite !length_append. simpl. lia.
Qed.

(** *** Joint lists *)

Lemma projection_joints_omap jmg names :
  projection_joints jmg names = omap (keeps jmg) names.
Proof.
  unfold projection_joints.
  enough (∀ acc,
            foldl (λ j v,
                     match getVariableCount jmg v with
                     | Some vc => if bool_decide (0 < vc) then j ++ [(v, vc)] else j
                     | None => j
                     end) acc names
            = acc ++ omap (keeps jmg) names) as H by apply (H []).
  induction names as [|v names IH]; intros acc; simpl.
  - by rewrite app_nil_r.
  - rewrite IH. unfold keeps at 2.
    destruct (getVariableCount jmg v) as [vc|]; simpl; [|done].
    case_bool_decide; [|done]. by rewrite <- (assoc_L (++)).
Qed.

Lemma replace_commas_append a b :
  Str.replace_commas (String.append a b)
  = String.append (Str.replace_commas a) (Str.replace_commas b).
Proof. induction a as [|c a IH]; app_simpl; simpl; [done|]. by rewrite IH. Qed.

Lemma replace_commas_plain w : plain w = true → Str.replace_commas w = w.
Proof.
  induction w as [|c w IH]; simpl; [done|]. intros H.
  apply andb_prop in H as [H Hw]. apply andb_prop in H as [Hc _].
  rewrite IH by done. destruct (Ascii.eqb c ","); [done|done].
Qed.

Lemma split_ws_word w :
  ∀ cur rest,
    joint_name w →
    Str.split_ws cur (String.append w rest)
    = Str.split_ws (Some (String.append (default EmptyString cur) w)) rest.
Proof.
  induction w as [|c w IH]; intros cur rest [Hne Hp]; [done|].
  simpl in Hp. apply andb_prop in Hp as [Hp Hw]. apply andb_prop in Hp as [_ Hc].
  app_simpl. simpl. destruct (Str.isspace c); [done|].
  destruct w as [|c' w'].
  - by app_simpl.
  - rewrite IH by done. simpl. rewrite append_assoc. by app_simpl.
Qed.

Lemma split_ws_comma x rest :
  Str.split_ws (Some x) (Str.replace_commas (String.append "," rest))
  = x :: Str.split_ws None (Str.replace_commas rest).
Proof. reflexivity. Qed.

Lemma split_ws_names names :
  Forall joint_name names →
  Str.split_ws None (Str.replace_commas (String.concat "," names)) = names.
Proof.
  induction 1 as [|w names Hw Hall IH]; [done|].
  destruct names as [|w2 names].
  - change (String.concat "," [w]) with w.
    rewrite replace_commas_plain by apply Hw.
    rewrite <- (append_empty_r w) at 1.
    rewrite split_ws_word by done. done.
  - change (String.concat "," (w :: w2 :: names))
      with (String.append w (String.append "," (String.concat "," (w2 :: names)))).
    rewrite replace_commas_append, replace_commas_plain by apply Hw.
    rewrite split_ws_word by done.
    rewrite split_ws_comma, IH. done.
Qed.

(** X17.  The expression [joints(N1,...,Nk)], k >= 1, of names that are not
    empty and hold no comma or white space, gives the projection on those of
    the names that the group knows as joints with at least one variable, in
    their order and with their variable counts; null when there is none. *)
Theorem joints_expression rm jmg names :
  names ≠ [] → Forall joint_name names →
  Z.of_nat (String.length (String.concat "," names)) < 2 ^ 64 →
  getProjectionEvaluator rm jmg
    (String.append "joints(" (String.append (String.concat "," names) ")"))
  = Returns (match omap (keeps jmg) names with
             | [] => None
             | j => Some (ProjectionEvaluatorJointValue j)
             end).
Proof.
  intros Hne Hnames Hlen. unfold getProjectionEvaluator.
  rewrite (bool_decide_false
             (Str.find_first_of
                (String.append "joints(" (String.append (String.concat "," names) ")"))
                "link(" = Some O)).
  2:{ app_simpl. simpl. discriminate. }
  cbn [andb].
  rewrite (bool_decide_true
             (Str.find_first_of
                (String.append "joints(" (String.append (String.concat "," names) ")"))
                "joints(" = Some O)) by (by app_simpl).
  rewrite <- append_assoc, last_char_append, bool_decide_true by done.
  rewrite append_assoc. cbv zeta.
  rewrite (substr_body "joints(" (String.concat "," names)); [|done| |].
  2,3: rewrite !length_append; simpl; lia.
  cbn [andb]. unfold Str.extracted_words. rewrite split_ws_names by done.
  rewrite projection_joints_omap.
  destruct names as [|w names]; [done|].
  by destruct (omap (keeps jmg) (w :: names)).
Qed.

(** X18.  An expression that ends with a closing parenthesis, starts with a
    character of [link(] and has fewer than 5 characters, or starts with a
    character of [joints(] that is none of [link(] and has fewer than 7,
    makes [getProjectionEvaluator] throw: [substr] starts beyond the end of
    the string. *)
Theorem short_expression_throws rm jmg peval :
  Str.last_char peval = Some ")"%char →
  (Str.find_first_of peval "link(" = Some O ∧ (String.length peval < 5)%nat) ∨
  (Str.find_first_of peval "link(" ≠ Some O ∧
   Str.find_first_of peval "joints(" = Some O ∧ (String.length peval < 7)%nat) →
  getProjectionEvaluator rm jmg peval = Throws.
Proof.
  intros Hlast Hcase. unfold getProjectionEvaluator, Str.substr.
  rewrite (bool_decide_true _ Hlast).
  destruct Hcase as [[H1 Hlen]|(H1 & H2 & Hlen)].
  - rewrite (bool_decide_true _ H1). simpl. by rewrite decide_False by lia.
  - rewrite (bool_decide_false _ H1), (bool_decide_true _ H2). simpl.
    by rewrite decide_False by lia.
Qed.

End Grammar.

(** * More runs on the concrete scene *)

Section MoreRuns.
Import Demo DemoMore.

(** The run over the two gates ends with four layers: the start state, the
    samples of the two gates and the goal states. *)
Lemma follow_layers_vetted_witness :
  ∃ r,
    Follower.follow true [O] [gate 1; gate 2] 10%nat follow_world = Some r ∧
    length (Follower.layers r) = 4%nat ∧
    Follower.layers r !! O = Some [O] ∧
    ∀ l row x, (1 ≤ l ≤ 2)%nat →
      Follower.layers r !! l = Some row → x ∈ row → Follower.isValid x = true.
Proof.
  eexists. split; [vm_compute; reflexivity|].
  apply (FollowerSafety.follow_layers_vetted (SI := line_si) (PI := line_pi)
           true [O] [gate 1; gate 2] 10%nat follow_world); reflexivity.
Defined.

Lemma follow_status_tells_cause_witness :
  ∃ r,
    Follower.follow true [] [gate 1; gate 2] 10%nat follow_world = Some r ∧
    (Follower.status r = UNRECOGNIZED_GOAL_TYPE ↔ true = false) ∧
    (Follower.status r = INVALID_START ↔ true = true ∧ @nil nat = []) ∧
    (Follower.status r ≠ EXACT_SOLUTION → Follower.solution_paths r = []) ∧
    Follower.status r ∈ [UNRECOGNIZED_GOAL_TYPE; INVALID_START; TIMEOUT; INVALID_GOAL;
                         EXACT_SOLUTION].
Proof.
  eexists. split; [vm_compute; reflexivity|].
  apply (FollowerSafety.follow_status_tells_cause (SI := line_si) (PI := line_pi)
           true [] [gate 1; gate 2] 10%nat follow_world); reflexivity.
Defined.

(** The path of the run over the two gates: 0, 12, 23 and the goal 31. *)
Lemma follow_path_endpoints_witness :
  ∃ r,
    Follower.follow true [O] [gate 1; gate 2] 10%nat follow_world = Some r ∧
    [0; 12; 23; 31]%nat ∈ Follower.solution_paths r ∧
    (∃ x, head [0; 12; 23; 31]%nat = Some x ∧ x ∈ [O]) ∧
    ∀ k x, (1 ≤ k ≤ 2)%nat → [0; 12; 23; 31]%nat !! k = Some x →
      Follower.isValid x = true.
Proof.
  eexists. split; [vm_compute; reflexivity|]. split; [by left|].
  eapply (FollowerSafety.follow_path_endpoints (SI := line_si) (PI := line_pi)
            true [O] [gate 1; gate 2] 10%nat follow_world _ [0; 12; 23; 31]%nat);
    [vm_compute; reflexivity|by left].
Defined.

Lemma follow_fired_returns_timeout_witness :
  [O] ≠ [] ∧
  Follower.follow true [O] [gate 1; gate 2] O follow_world
  = Some (Follower.mkResult TIMEOUT [] [[O]; []; []; []] follow_world).
Proof.
  split; [discriminate|].
  apply (FollowerSafety.follow_fired_returns_timeout (SI := line_si) (PI := line_pi)
           [O] [gate 1; gate 2] follow_world).
  discriminate.
Defined.

(** Ten runs on four threads: batches of 4, 4 and 2, ten planners.  No
    run asked for: the planner of the simple setup runs once all the
    same. *)
Lemma solve_batch_bounds_witness :
  (∃ r c' w' evs,
     solve 5 10 context [1; 1; 1]%nat = Some (r, c', w', evs) ∧
     Forall (λ n, 0 ≤ n ≤ max_planning_threads_ context) (batch_sizes evs) ∧
     planners_launched evs ≤ Z.max 10 1 ∧
     (10 ≤ 1 → planners_launched evs = 1 ∧ batch_sizes evs = []) ∧
     (1 < 10 → planners_launched evs ≤ 10)) ∧
  (∃ r c' w' evs,
     solve 5 0 context [1]%nat = Some (r, c', w', evs) ∧
     Forall (λ n, 0 ≤ n ≤ max_planning_threads_ context) (batch_sizes evs) ∧
     planners_launched evs ≤ Z.max 0 1 ∧
     (0 ≤ 1 → planners_launched evs = 1 ∧ batch_sizes evs = []) ∧
     (1 < 0 → planners_launched evs ≤ 0)).
Proof.
  split.
  - eexists _, _, _, _. split; [vm_compute; reflexivity|].
    eapply (solve_batch_bounds (EN := line_engine) 5 10 context [1; 1; 1]%nat);
      [vm_compute; split; [discriminate|reflexivity]..|vm_compute; reflexivity].
  - eexists _, _, _, _. split; [vm_compute; reflexivity|].
    eapply (solve_batch_bounds (EN := line_engine) 5 0 context [1]%nat);
      [vm_compute; split; [discriminate|reflexivity]..|vm_compute; reflexivity].
Defined.

(** [follow] on the context of the scene, then [getSolutionPath]. *)
Lemma follow_then_getSolutionPath_witness :
  ∃ c' w' evs,
    follow 10 1 context follow_world = Some (true, c', w', evs) ∧
    ∃ traj',
      getSolutionPath (RS := line_robot_states) O [] c' = (true, traj') ∧
      length traj' = 4%nat ∧
      length (solution_paths (ompl_simple_setup_ c')) = 1%nat.
Proof.
  eexists _, _, _. split; [vm_compute; reflexivity|].
  eapply (follow_then_getSolutionPath (EN := line_engine) (RS := line_robot_states)
            10 1 context follow_world).
  vm_compute. reflexivity.
Defined.

(** Three goal constraint sets, two of which the manager has a sampler
    for: a union of the two goal samplers, in the order of the sets. *)
Lemma setGoalConstraints_goal_kind_witness :
  ∃ r error' c',
    setGoalConstraints [[7]; [7; 8]; [3]]%nat [] None context = Some (r, error', c') ∧
    goal_constraints_ c' ≠ [] ∧
    ∃ goals,
      Forall2 (λ kset g, ∃ cs, selectSampler manager (Some ()) "arm"%string kset = Some cs ∧
                               g = ConstrainedGoalSampler kset cs)
        [[7]; [7; 8]]%nat goals ∧
      goal (ompl_simple_setup_ c') = Some (GoalSampleableRegionMux goals) ∧ r = true.
Proof.
  eexists _, _, _. split; [vm_compute; reflexivity|]. split; [discriminate|].
  exact (setGoalConstraints_goal_kind (MI := line_moveit) (EN := line_engine)
           [[7]; [7; 8]; [3]]%nat [] None context _ _ _
           ltac:(vm_compute; reflexivity) ltac:(discriminate)).
Defined.

(** Two goal constraint messages that hold nothing. *)
Lemma setGoalConstraints_nothing_to_solve_witness :
  planning_scene_ context = Some () ∧
  Forall (λ g, empty (add (mergeConstraints g []) (newKinematicConstraintSet ())) = true)
    [[]; []] ∧
  ∃ c',
    setGoalConstraints [[]; []] [] (Some SUCCESS) context
    = Some (false, (λ _, INVALID_GOAL_CONSTRAINTS) <$> Some SUCCESS, c') ∧
    goal_constraints_ c' = [] ∧
    ompl_simple_setup_ c' = ompl_simple_setup_ context.
Proof.
  split; [reflexivity|]. split; [repeat constructor|].
  apply (setGoalConstraints_nothing_to_solve (MI := line_moveit) (EN := line_engine)
           [[]; []] [] (Some SUCCESS) context ());
    [reflexivity|repeat constructor].
Defined.

(** One goal constraint set the manager has no sampler for. *)
Lemma setGoalConstraints_then_follow_witness :
  ∃ r error' c',
    setGoalConstraints [[3%nat]] [] None context = Some (r, error', c') ∧
    goal_constraints_ c' ≠ [] ∧
    (is_Some (follow 10 1 c' follow_world) ↔ r = true) ∧
    (is_Some (solve 10 1 c' follow_world) ↔ r = true).
Proof.
  eexists _, _, _. split; [vm_compute; reflexivity|]. split; [discriminate|].
  eapply (setGoalConstraints_then_follow (MI := line_moveit) (EN := line_engine)
            [[3%nat]] [] None context);
    [vm_compute; reflexivity|discriminate].
Defined.

(** The configuration of the scene: the planner type is bound, the
    parameter [range] is the only one forwarded. *)
Lemma useConfig_actions_witness :
  ∃ c' acts,
    useConfig (EN := line_engine) planner_config context = Returns (c', acts) ∧
    bound_planner acts = planner_config !! "type"%string ∧
    forwarded_params acts
    = if bool_decide (delete "projection_evaluator"%string planner_config = ∅) then None
      else Some (delete "type"%string
                   (delete "projection_evaluator"%string planner_config)).
Proof.
  eexists _, _. split; [vm_compute; reflexivity|].
  eapply (useConfig_actions (EN := line_engine) planner_config context).
  vm_compute. reflexivity.
Defined.

Lemma link_expression_witness :
  Z.of_nat (String.length "base") < 2 ^ 64 ∧
  getProjectionEvaluator robot arm (String.append "link(" (String.append "base" ")"))
  = Returns (if hasLinkModel robot "base"
             then Some (ProjectionEvaluatorLinkPose "base") else None).
Proof.
  split; [reflexivity|].
  apply (link_expression robot arm "base"). reflexivity.
Defined.

(** Of the joints x, z and q the group knows x and z, and z has no degree
    of freedom: the projection is on x alone. *)
Lemma joints_expression_witness :
  ["x"; "z"; "q"]%string ≠ [] ∧
  Forall joint_name ["x"; "z"; "q"]%string ∧
  Z.of_nat (String.length (String.concat "," ["x"; "z"; "q"]%string)) < 2 ^ 64 ∧
  getProjectionEvaluator robot arm
    (String.append "joints(" (String.append (String.concat "," ["x"; "z"; "q"]%string) ")"))
  = Returns (match omap (keeps arm) ["x"; "z"; "q"]%string with
             | [] => None
             | j => Some (ProjectionEvaluatorJointValue j)
             end).
Proof.
  assert (Forall joint_name ["x"; "z"; "q"]%string) as Hnames.
  { repeat constructor; discriminate. }
  split; [discriminate|]. split; [exact Hnames|]. split; [reflexivity|].
  apply (joints_expression robot arm ["x"; "z"; "q"]%string);
    [discriminate|exact Hnames|reflexivity].
Defined.

(** The expression [l)] starts with a character of [link(] and ends with a
    parenthesis. *)
Lemma short_expression_throws_witness :
  Str.last_char "l)" = Some ")"%char ∧
  ((Str.find_first_of "l)" "link(" = Some O ∧ (String.length "l)" < 5)%nat) ∨
   (Str.find_first_of "l)" "link(" ≠ Some O ∧
    Str.find_first_of "l)" "joints(" = Some O ∧ (String.length "l)" < 7)%nat)) ∧
  getProjectionEvaluator robot arm "l)" = Throws.
Proof.
  split; [reflexivity|]. split; [left; split; [reflexivity|simpl; lia]|].
  apply (short_expression_throws robot arm "l)");
    [reflexivity|left; split; [reflexivity|simpl; lia]].
Defined.

(** A run in which the first samples 12 and 23 and the goal 32 connect. *)
Lemma follow_first_samples_path_witness :
  ∃ r,
    Follower.follow true [O] [gate 1; gate 2] 10%nat [2; 3; 2]%nat = Some r ∧
    (∀ l, (l ≤ 2)%nat →
       ∃ a b, Follower.at2 (Follower.layers r) l O = Some a ∧
              Follower.at2 (Follower.layers r) (S l) O = Some b ∧
              Follower.checkMotion a b = true) ∧
    Follower.status r = EXACT_SOLUTION ∧
    Follower.solution_paths r = [omap head (Follower.layers r)] ∧
    ∀ l row, (1 ≤ l)%nat → Follower.layers r !! l = Some row → length row = 1%nat.
Proof.
  eexists. split; [vm_compute; reflexivity|].
  assert (∀ l, (l ≤ 2)%nat →
            ∃ a b, Follower.at2 [[0]; [12]; [23]; [32]]%nat l O = Some a ∧
                   Follower.at2 [[0]; [12]; [23]; [32]]%nat (S l) O = Some b ∧
                   Follower.checkMotion a b = true) as Hfirst.
  { intros [|[|[|l]]] Hl; [by eexists _, _..|lia]. }
  split; [exact Hfirst|].
  apply (FollowerFirst.follow_first_samples_path (SI := line_si) (PI := line_pi)
           true [O] [gate 1; gate 2] 10%nat [2; 3; 2]%nat);
    [vm_compute; reflexivity|exact Hfirst].
Defined.

(** Marks over three layers: state 0 of layer 0 is connected to both
    states of layer 1, the first of which is connected to the goal. *)
Lemma propagateStartInfo_marks_descendants_witness :
  Follower.propagateStartInfo 0 0 [[1]; [0; 0]; [0]] [[[0; 1]%nat]; [[O]; []]]
  = Some [[1]; [1; 1]; [1]] ∧
  (∀ l' k', FollowerShape.descends [[[0; 1]%nat]; [[O]; []]] 0 0 l' k' →
     Follower.at2 [[1]; [1; 1]; [1]] l' k' = Some 1) ∧
  (∀ l' k' f, Follower.at2 [[1]; [1; 1]; [1]] l' k' = Some f →
     Follower.at2 [[1]; [0; 0]; [0]] l' k' = Some f ∨
     (f = 1 ∧ FollowerShape.descends [[[0; 1]%nat]; [[O]; []]] 0 0 l' k')).
Proof.
  split; [reflexivity|].
  apply (FollowerHelpers.propagateStartInfo_marks_descendants
           0 0 [[1]; [0; 0]; [0]] [[[0; 1]%nat]; [[O]; []]]).
  reflexivity.
Defined.

(** The search from the start state 0 over the layers 0 | 15 12 | 23 | 31,
    where 0 is connected to 12 only. *)
Lemma findSolutionPath_finds_chain_witness :
  Follower.findSolutionPath [] 0 0 [[0]; [15; 12]; [23]; [31]]%nat
    [[[1%nat]]; [[]; [O]]; [[O]]]
  = Some (true, [31; 23; 12; 0]%nat) ∧
  (true = true ↔ Follower.to_goal (drop 0 [[[1%nat]]; [[]; [O]]; [[O]]]) 0) ∧
  ∃ ch, [31; 23; 12; 0]%nat = [] ++ reverse ch ∧
        Follower.is_chain [[0]; [15; 12]; [23]; [31]]%nat
          (drop 0 [[[1%nat]]; [[]; [O]]; [[O]]]) 0 0 ch.
Proof.
  split; [reflexivity|].
  apply (FollowerHelpers.findSolutionPath_finds_chain (State := nat)
           [] 0 0 [[0]; [15; 12]; [23]; [31]]%nat [[[1%nat]]; [[]; [O]]; [[O]]]
           true [31; 23; 12; 0]%nat).
  reflexivity.
Defined.

Lemma computeSolution_iff_chain_witness :
  Follower.computeSolution [[0]; [15; 12]; [23]; [31]]%nat [[[1%nat]]; [[]; [O]]; [[O]]]
  = Some (Some [0; 12; 23; 31]%nat) ∧
  (is_Some (Some [0; 12; 23; 31]%nat) ↔
   ∃ j0, is_Some (Follower.at2 [[0]; [15; 12]; [23]; [31]]%nat O j0) ∧
         Follower.to_goal [[[1%nat]]; [[]; [O]]; [[O]]] j0) ∧
  ∀ path, Some [0; 12; 23; 31]%nat = Some path →
    ∃ j0, Follower.is_chain [[0]; [15; 12]; [23]; [31]]%nat
            [[[1%nat]]; [[]; [O]]; [[O]]] O j0 path.
Proof.
  split; [reflexivity|].
  apply (FollowerHelpers.computeSolution_iff_chain (State := nat)
           [[0]; [15; 12]; [23]; [31]]%nat [[[1%nat]]; [[]; [O]]; [[O]]]).
  reflexivity.
Defined.

(** [interpolate] on the line does what is documented. *)
Lemma line_interpolate_as_documented : interpolate_as_documented (EN := line_engine).
Proof.
  intros count pg. unfold path_interpolate, line_engine, line_interpolate.
  destruct pg as [|a [|b rest]]; [split; [done|simpl; lia]..|].
  case_bool_decide as Hc.
  - split; [done|lia].
  - split.
    + intros Hle. replace (Z.to_nat count - length (a :: b :: rest))%nat with O by lia.
      done.
    + intros _. simpl in *.
      rewrite length_app, length_replicate. simpl. lia.
Qed.

(** A path of four states and length 31, a segment length of 4 and at
    least two way points: eight way points after the call. *)
Lemma interpolateSolution_waypoint_count_witness :
  ∃ c' pg',
    interpolateSolution (solved_context 4 2 [[0; 12; 24; 31]%nat]) = Some c' ∧
    solution_paths (ompl_simple_setup_ c') = pg' :: [] ∧
    Z.max 8 2 ≤ Z.of_nat (length pg') ∧
    (Z.of_nat (length [0; 12; 24; 31]%nat) < Z.max 8 2 →
     Z.of_nat (length pg') = Z.max 8 2) ∧
    (Z.max 8 2 ≤ Z.of_nat (length [0; 12; 24; 31]%nat) → pg' = [0; 12; 24; 31]%nat).
Proof.
  apply (proj2 (interpolateSolution_waypoint_count (EN := line_engine)
                  (solved_context 4 2 [[0; 12; 24; 31]%nat])
                  line_interpolate_as_documented)
           [0; 12; 24; 31]%nat [] 8);
    [reflexivity|vm_compute; reflexivity|left; simpl; lia].
Defined.

(** With the segment length 0.0 of the constructor the number of way
    points to ask for is not defined, whatever the path.  With two stored
    paths only the first is interpolated: the second, of length 31, keeps
    its three states where the bound of the claim is 8. *)
Lemma interpolateSolution_counterexample :
  interpolateSolution (solved_context 0 0 [[0; 12; 24; 31]%nat]) = None ∧
  ∃ c',
    interpolateSolution (solved_context 4 2 [[0; 12; 24; 31]; [0; 12; 31]]%nat) = Some c' ∧
    solution_paths (ompl_simple_setup_ c')
    = [[0; 6; 6; 6; 6; 12; 24; 31]; [0; 12; 31]]%nat ∧
    rounded_segments (path_length [0; 12; 31]%nat) (4 : Double) = Some 8 ∧
    Z.of_nat (length [0; 12; 31]%nat) < Z.max 8 2.
Proof.
  split; [vm_compute; reflexivity|].
  eexists. split; [vm_compute; reflexivity|]. split; [reflexivity|].
  split; [vm_compute; reflexivity|]. simpl. lia.
Qed.

(** [follow] on the context without start state, and [solve] with a
    planner that throws: both leave the condition registered. *)
Lemma exception_skips_unregistration_witness :
  (∃ c' w' evs,
     follow_exits 10 1 context_without_start follow_world = Some (Unwound c' w' evs) ∧
     ∃ ptc, ptc_ c' = Some ptc ∧
            terminateSolve c' = with_ptc (Some (ptc_terminate ptc)) c' ∧
            registrations evs = [EvRegister ptc]) ∧
  (∃ c' w' evs,
     solve_exits 10 1 context [9]%nat = Some (Unwound c' w' evs) ∧
     ∃ ptc, ptc_ c' = Some ptc ∧
            terminateSolve c' = with_ptc (Some (ptc_terminate ptc)) c' ∧
            registrations evs = [EvRegister ptc]).
Proof.
  split.
  - eexists _, _, _. split; [vm_compute; reflexivity|].
    exact (proj1 (exception_skips_unregistration (EN := line_engine) (EF := line_faults)
                    10 1 context_without_start follow_world)
             (Unwound _ _ _) (or_intror eq_refl)).
  - eexists _, _, _. split; [vm_compute; reflexivity|].
    exact (proj1 (exception_skips_unregistration (EN := line_engine) (EF := line_faults)
                    10 1 context [9]%nat)
             (Unwound _ _ _) (or_introl eq_refl)).
Defined.

End MoreRuns.
